(** * Harmonia: the playback queue engine of [Harmonia/Harmonia.py]

    A shallow embedding of the queue ([DoublyLinkedList]), the listening
    history ([Stack]) and the playback controller methods of [HarmoniaApp],
    followed by the properties proved about them.

    Python objects are mutable and compared by identity.  Nodes therefore
    live in an explicit heap (a finite map from object identities to [Node]
    records) and every attribute write is a heap update; [Song] objects are
    never mutated after construction, so a song is a record that carries its
    object identity along with its fields. *)

From stdpp Require Import gmap strings list fin_maps pretty.
From Stdlib Require Import ZArith QArith Qround Lia.

Local Open Scope Z_scope.

(** ** Songs and nodes *)

(** Object identities (what Python's default [==] and [is] compare). *)
Abbreviation loc := positive.

(** [class Song]: the class defines no [__eq__], so [s == song] is identity;
    [oid] is the identity of the object, and equality of records coincides
    with identity as long as distinct objects carry distinct [oid]s. *)
Record Song := mkSong {
  oid : loc;
  title : string;
  artist : string;
  path : option string
}.

#[global] Instance Song_eq_dec : EqDecision Song.
Proof. solve_decision. Defined.

(** [class Node]: [next] and [prev] are references to nodes or [None]. *)
Record Node := mkNode {
  data : Song;
  next : option loc;
  prev : option loc
}.

(** The heap of [Node] objects. *)
Abbreviation heap := (gmap loc Node).

(** Attribute reads.  A result of [None] in the outer option means that the
    reference is not a live object, which Python rules out. *)
Definition get_data (h : heap) (a : loc) : option Song := data <$> h !! a.

Definition get_next (h : heap) (a : loc) : option (option loc) := next <$> h !! a.

Definition get_prev (h : heap) (a : loc) : option (option loc) := prev <$> h !! a.

(** Attribute writes [a.next = v] and [a.prev = v]. *)
Definition set_next (a : loc) (v : option loc) (h : heap) : option heap :=
  n ← h !! a; Some (<[a := mkNode (data n) v (prev n)]> h).

Definition set_prev (a : loc) (v : option loc) (h : heap) : option heap :=
  n ← h !! a; Some (<[a := mkNode (data n) (next n) v]> h).

(** [Node(data)]: a new object, distinct from every live one. *)
Definition new_Node (d : Song) (h : heap) : loc * heap :=
  let a := fresh (dom h) in (a, <[a := mkNode d None None]> h).

(** ** [class Stack] *)

Module Stack.

(** [items] is a Python list; its end is the top of the stack. *)
Record Stack (A : Type) := mk { items : list A }.
Arguments mk {A} _.
Arguments items {A} _.

Definition init {A} : Stack A := mk [].

Definition is_empty {A} (s : Stack A) : bool := Nat.eqb (length (items s)) 0.

Definition push {A} (item : A) (s : Stack A) : Stack A := mk (items s ++ [item]).

(** [pop] returns the popped item, or [None] on an empty stack. *)
Definition pop {A} (s : Stack A) : option A * Stack A :=
  if negb (is_empty s)
  then (last (items s), mk (removelast (items s)))
  else (None, s).

End Stack.

(** ** Text search *)

(** The rest of [s] after its prefix [p], when [s] starts with [p]. *)
Fixpoint strip_prefix (p s : string) : option string :=
  match p with
  | EmptyString => Some s
  | String a p' =>
      match s with
      | EmptyString => None
      | String b s' => if bool_decide (a = b) then strip_prefix p' s' else None
      end
  end.

(** [needle in haystack] on Python strings: [needle] occurs as a contiguous
    part of [haystack]. *)
Fixpoint contains (needle haystack : string) : bool :=
  bool_decide (is_Some (strip_prefix needle haystack))
  || match haystack with
     | EmptyString => false
     | String _ rest => contains needle rest
     end.

(** [query in s.title.lower() or query in s.artist.lower()], the test of
    [DoublyLinkedList.find] and of [filter_songs].  [lower] stands for
    Python's [str.lower]. *)
Definition matches (lower : string → string) (query : string) (s : Song) : bool :=
  contains query (lower (title s)) || contains query (lower (artist s)).

(** ** [class DoublyLinkedList] *)

Module DoublyLinkedList.

Record DoublyLinkedList := mk {
  head : option loc;
  tail : option loc;
  current : option loc;
  size : Z
}.

Definition set_head (v : option loc) (q : DoublyLinkedList) :=
  mk v (tail q) (current q) (size q).

Definition set_tail (v : option loc) (q : DoublyLinkedList) :=
  mk (head q) v (current q) (size q).

Definition set_current (v : option loc) (q : DoublyLinkedList) :=
  mk (head q) (tail q) v (size q).

Definition set_size (v : Z) (q : DoublyLinkedList) :=
  mk (head q) (tail q) (current q) v.

(** [__init__] *)
Definition init : DoublyLinkedList := mk None None None 0.

(** [append(data)].  In the non-empty branch [self.tail.next = new_node]
    raises when [tail] is [None]. *)
Definition append (d : Song) (h : heap) (q : DoublyLinkedList)
  : option (heap * DoublyLinkedList) :=
  let '(new_node, h) := new_Node d h in
  '(h, q) ← match head q with
            | None =>
                Some (h, set_current (Some new_node)
                           (set_tail (Some new_node)
                              (set_head (Some new_node) q)))
            | Some _ =>
                h ← set_prev new_node (tail q) h;
                t ← tail q;
                h ← set_next t (Some new_node) h;
                Some (h, set_tail (Some new_node) q)
            end;
  Some (h, set_size (size q + 1) q).

(** [clear()] *)
Definition clear (q : DoublyLinkedList) : DoublyLinkedList :=
  set_size 0 (set_current None (set_tail None (set_head None q))).

(** [remove_node(node)], statement by statement. *)
Definition remove_node (node : option loc) (h : heap) (q : DoublyLinkedList)
  : option (heap * DoublyLinkedList) :=
  match node with
  | None => Some (h, q)
  | Some a =>
      (* if node == self.head: self.head = node.next *)
      q ← (if decide (Some a = head q)
           then nx ← get_next h a; Some (set_head nx q) else Some q);
      (* if node == self.tail: self.tail = node.prev *)
      q ← (if decide (Some a = tail q)
           then pv ← get_prev h a; Some (set_tail pv q) else Some q);
      (* if node.prev: node.prev.next = node.next *)
      pv ← get_prev h a;
      h ← match pv with
          | Some p => nx ← get_next h a; set_next p nx h
          | None => Some h
          end;
      (* if node.next: node.next.prev = node.prev *)
      nx ← get_next h a;
      h ← match nx with
          | Some x => pv ← get_prev h a; set_prev x pv h
          | None => Some h
          end;
      (* if node == self.current:
           self.current = node.next if node.next else node.prev *)
      q ← (if decide (Some a = current q)
           then nx ← get_next h a;
                match nx with
                | Some x => Some (set_current (Some x) q)
                | None => pv ← get_prev h a; Some (set_current pv q)
                end
           else Some q);
      (* node.next = None; node.prev = None; self.size -= 1 *)
      h ← set_next a None h;
      h ← set_prev a None h;
      Some (h, set_size (size q - 1) q)
  end.

(** [get_node_at_index(index)]: the loop [for _ in range(index)] follows
    [next]; reading [temp.next] from [None] raises. *)
Fixpoint walk (k : nat) (h : heap) (temp : option loc) : option (option loc) :=
  match k with
  | O => Some temp
  | S k' => a ← temp; nx ← get_next h a; walk k' h nx
  end.

Definition get_node_at_index (index : Z) (h : heap) (q : DoublyLinkedList)
  : option (option loc) :=
  if decide (index < 0 ∨ index >= size q) then Some None
  else walk (Z.to_nat index) h (head q).

(** [swap_nodes(node1, node2)] *)
Definition swap_nodes (node1 node2 : option loc) (h : heap) (q : DoublyLinkedList)
  : option (heap * DoublyLinkedList) :=
  match node1, node2 with
  | Some a, Some b =>
      nx ← get_next h a;
      if decide (nx ≠ Some b) then Some (h, q) else
      prev_node ← get_prev h a;
      next_node ← get_next h b;
      '(h, q) ← match prev_node with
                | Some p => h ← set_next p (Some b) h; Some (h, q)
                | None => Some (h, set_head (Some b) q)
                end;
      '(h, q) ← match next_node with
                | Some x => h ← set_prev x (Some a) h; Some (h, q)
                | None => Some (h, set_tail (Some a) q)
                end;
      h ← set_prev b prev_node h;
      h ← set_next b (Some a) h;
      h ← set_prev a (Some b) h;
      h ← set_next a next_node h;
      Some (h, q)
  | _, _ => Some (h, q)
  end.

(** The loop [while temp: nodes.append(temp); temp = temp.next].  On a
    cyclic chain the Python loop does not terminate; a chain without
    repetition visits at most as many nodes as the heap holds, which is the
    fuel given by the callers.  [None] stands for the run that never
    leaves the loop. *)
Fixpoint collect (fuel : nat) (h : heap) (temp : option loc) : option (list loc) :=
  match temp with
  | None => Some []
  | Some a =>
      match fuel with
      | O => None
      | S f => nx ← get_next h a; rest ← collect f h nx; Some (a :: rest)
      end
  end.

(** [nodes[i], nodes[j] = nodes[j], nodes[i]]: the right-hand side is
    evaluated first (an index out of range raises), then [nodes[i]] and
    [nodes[j]] are assigned in that order. *)
Definition swap_items (i j : nat) (nodes : list loc) : option (list loc) :=
  x ← nodes !! j; y ← nodes !! i; Some (<[j := y]> (<[i := x]> nodes)).

(** [for i in range(n - 1, 0, -1): j = random.randint(0, i); swap].
    [rand i] is the number drawn at loop index [i]. *)
Fixpoint fisher_yates (rand : nat → nat) (i : nat) (nodes : list loc)
  : option (list loc) :=
  match i with
  | O => Some nodes
  | S i' => nodes ← swap_items i (rand i) nodes; fisher_yates rand i' nodes
  end.

(** One turn of [for k in range(n)]. *)
Definition relink_step (nodes : list loc) (h : heap) (k : nat) : option heap :=
  h ← (if decide (0 < k)%nat
       then a ← nodes !! k; p ← nodes !! (k - 1)%nat; set_prev a (Some p) h
       else Some h);
  if decide (k < length nodes - 1)%nat
  then a ← nodes !! k; x ← nodes !! (k + 1)%nat; set_next a (Some x) h
  else Some h.

Definition relink (nodes : list loc) (h : heap) : option heap :=
  foldl (λ acc k, h ← acc; relink_step nodes h k) (Some h)
        (seq 0 (length nodes)).

(** [shuffle()] *)
Definition shuffle (rand : nat → nat) (h : heap) (q : DoublyLinkedList)
  : option (heap * DoublyLinkedList) :=
  if decide (size q < 2) then Some (h, q) else
  nodes ← collect (S (base.size h)) h (head q);
  nodes ← fisher_yates rand (length nodes - 1) nodes;
  (* self.head = nodes[0]; self.tail = nodes[-1] *)
  hd ← nodes !! 0%nat;
  tl ← last nodes;
  let q := set_tail (Some tl) (set_head (Some hd) q) in
  (* self.head.prev = None; self.tail.next = None *)
  h ← set_prev hd None h;
  h ← set_next tl None h;
  h ← relink nodes h;
  Some (h, q).

(** The traversal [temp = head; while temp: songs.append(temp.data);
    temp = temp.next] (as in [show_queue]). *)
Definition songs_of (h : heap) (q : DoublyLinkedList) : option (list Song) :=
  nodes ← collect (S (base.size h)) h (head q);
  mapM (get_data h) nodes.

(** [find(query)]: the loop [while temp: if <match>: results.append(temp);
    temp = temp.next], with the fuel of [collect]. *)
Fixpoint find_from (lower : string → string) (query : string) (fuel : nat)
    (h : heap) (temp : option loc) : option (list loc) :=
  match temp with
  | None => Some []
  | Some a =>
      match fuel with
      | O => None
      | S f =>
          d ← get_data h a;
          nx ← get_next h a;
          rest ← find_from lower query f h nx;
          Some (if matches lower (lower query) d then a :: rest else rest)
      end
  end.

Definition find (lower : string → string) (query : string) (h : heap)
    (q : DoublyLinkedList) : option (list loc) :=
  find_from lower query (S (base.size h)) h (head q).

End DoublyLinkedList.

(** ** The audio backend

    [pygame.mixer] is an external collaborator.  The controller only uses
    the calls below, so the backend is an interface; a call that raises
    returns [None]. *)

Class AudioBackend (M : Type) := {
  (** [pygame.mixer.Sound(path).get_length()] *)
  Sound_get_length : M → option string → option Q;
  (** [pygame.mixer.music.load(path)] *)
  music_load : option string → M → option M;
  (** [pygame.mixer.music.play()] *)
  music_play : M → option M;
  music_pause : M → M;
  music_unpause : M → M;
  music_stop : M → M;
  music_get_busy : M → bool;
  (** [pygame.mixer.music.get_pos()], in milliseconds, [-1] when no music
      has been started *)
  music_get_pos : M → option Z
}.

(** The backend is busy right after a successful [play()] (so that
    [check_music_end] does not take a track that has just been started for
    one that has ended). *)
Definition busy_after_play (M : Type) `{AudioBackend M} : Prop :=
  ∀ m m', music_play m = Some m' → music_get_busy m' = true.

(** A backend that accepts every [load] and [play] and never reports busy
    (as when the music ends at once, or no output device plays it). *)
Definition never_busy (M : Type) `{AudioBackend M} : Prop :=
  (∀ p m, is_Some (music_load p m)) ∧
  (∀ m, is_Some (music_play m)) ∧
  (∀ m, music_get_busy m = false).

(** A simple backend, used to run the controller on concrete states:
    [get_pos] is [-1] until music has been started and again after [stop],
    and [get_busy] is false while paused.  It loads every song that has a
    path and reports a length of three minutes.  (A real mixer may go on
    reporting a position after [stop]; the theorems are stated for every
    backend and say where the value of [get_pos] matters.) *)
Record SimMixer := mkSim {
  sim_loaded : bool;
  sim_started : bool;
  sim_paused : bool
}.

#[global] Instance SimMixer_backend : AudioBackend SimMixer := {
  Sound_get_length _ p := match p with Some _ => Some (180 # 1)%Q | None => None end;
  music_load p m := match p with Some _ => Some (mkSim true false false) | None => None end;
  music_play m := if sim_loaded m then Some (mkSim true true false) else None;
  music_pause m := mkSim (sim_loaded m) (sim_started m) (sim_started m);
  music_unpause m := mkSim (sim_loaded m) (sim_started m) false;
  music_stop m := mkSim (sim_loaded m) false false;
  music_get_busy m := sim_started m && negb (sim_paused m);
  music_get_pos m := Some (if sim_started m then 0 else -1)
}.

(** A backend of the second kind, with a single state. *)
Inductive MuteMixer := mute.

#[global] Instance MuteMixer_backend : AudioBackend MuteMixer := {
  Sound_get_length _ _ := None;
  music_load _ _ := Some mute;
  music_play _ := Some mute;
  music_pause m := m;
  music_unpause m := m;
  music_stop m := m;
  music_get_busy _ := false;
  music_get_pos _ := Some (-1)
}.

(** ** [class HarmoniaApp]: the playback controller *)

Module HarmoniaApp.

Import DoublyLinkedList.

(** The two texts of the play button. *)
Inductive glyph := glyph_play | glyph_pause.

(** [format_time(seconds)]: [f"{minutes}:{seconds:02d}"] with
    [minutes = int(seconds // 60)] and [seconds = int(seconds % 60)];
    times are floats in the source and rationals here. *)
Definition format_time (seconds : Q) : string :=
  let minutes := Qfloor (seconds / (60 # 1)) in
  let secs := Qfloor (seconds - (60 # 1) * inject_Z minutes) in
  pretty minutes +:+ ":" +:+ (if decide (0 ≤ secs < 10) then "0" else "")
    +:+ pretty secs.

Section controller.
Context {M : Type} `{AudioBackend M}.

(** The fields of the application object that the controller reads or
    writes, the heap of nodes, the backend, and the module-level flag
    [HAS_DEPS].  [polls] counts the callbacks registered with
    [root.after(1000, self.check_music_end)]. *)
Record HarmoniaApp := mk {
  HAS_DEPS : bool;
  mixer : M;
  nodes : heap;
  queue : DoublyLinkedList;
  history : Stack.Stack loc;
  current_view_songs : list Song;
  active_playlist_name : string;
  is_looping : bool;
  is_shuffled : bool;
  is_playing : bool;
  song_length : Q;
  start_time : Q;
  current_time : Q;
  btn_play : glyph;
  lbl_now_title : string;
  lbl_now_artist : string;
  lbl_total_time : string;
  polls : nat
}.

Definition set_mixer (v : M) (a : HarmoniaApp) : HarmoniaApp :=
  mk (HAS_DEPS a) v (nodes a) (queue a) (history a) (current_view_songs a)
     (active_playlist_name a) (is_looping a) (is_shuffled a) (is_playing a)
     (song_length a) (start_time a) (current_time a) (btn_play a)
     (lbl_now_title a) (lbl_now_artist a) (lbl_total_time a) (polls a).

Definition set_nodes (v : heap) (a : HarmoniaApp) : HarmoniaApp :=
  mk (HAS_DEPS a) (mixer a) v (queue a) (history a) (current_view_songs a)
     (active_playlist_name a) (is_looping a) (is_shuffled a) (is_playing a)
     (song_length a) (start_time a) (current_time a) (btn_play a)
     (lbl_now_title a) (lbl_now_artist a) (lbl_total_time a) (polls a).

Definition set_queue (v : DoublyLinkedList) (a : HarmoniaApp) : HarmoniaApp :=
  mk (HAS_DEPS a) (mixer a) (nodes a) v (history a) (current_view_songs a)
     (active_playlist_name a) (is_looping a) (is_shuffled a) (is_playing a)
     (song_length a) (start_time a) (current_time a) (btn_play a)
     (lbl_now_title a) (lbl_now_artist a) (lbl_total_time a) (polls a).

Definition set_history (v : Stack.Stack loc) (a : HarmoniaApp) : HarmoniaApp :=
  mk (HAS_DEPS a) (mixer a) (nodes a) (queue a) v (current_view_songs a)
     (active_playlist_name a) (is_looping a) (is_shuffled a) (is_playing a)
     (song_length a) (start_time a) (current_time a) (btn_play a)
     (lbl_now_title a) (lbl_now_artist a) (lbl_total_time a) (polls a).

Definition set_view (name : string) (v : list Song) (a : HarmoniaApp) : HarmoniaApp :=
  mk (HAS_DEPS a) (mixer a) (nodes a) (queue a) (history a) v
     name (is_looping a) (is_shuffled a) (is_playing a)
     (song_length a) (start_time a) (current_time a) (btn_play a)
     (lbl_now_title a) (lbl_now_artist a) (lbl_total_time a) (polls a).

Definition set_is_shuffled (v : bool) (a : HarmoniaApp) : HarmoniaApp :=
  mk (HAS_DEPS a) (mixer a) (nodes a) (queue a) (history a) (current_view_songs a)
     (active_playlist_name a) (is_looping a) v (is_playing a)
     (song_length a) (start_time a) (current_time a) (btn_play a)
     (lbl_now_title a) (lbl_now_artist a) (lbl_total_time a) (polls a).

(** [self.is_playing = v] together with the button text that every such
    assignment in the source sets with it. *)
Definition set_is_playing (v : bool) (g : glyph) (a : HarmoniaApp) : HarmoniaApp :=
  mk (HAS_DEPS a) (mixer a) (nodes a) (queue a) (history a) (current_view_songs a)
     (active_playlist_name a) (is_looping a) (is_shuffled a) v
     (song_length a) (start_time a) (current_time a) g
     (lbl_now_title a) (lbl_now_artist a) (lbl_total_time a) (polls a).

Definition set_song_length (v : Q) (label : string) (a : HarmoniaApp) : HarmoniaApp :=
  mk (HAS_DEPS a) (mixer a) (nodes a) (queue a) (history a) (current_view_songs a)
     (active_playlist_name a) (is_looping a) (is_shuffled a) (is_playing a)
     v (start_time a) (current_time a) (btn_play a)
     (lbl_now_title a) (lbl_now_artist a) label (polls a).

Definition set_start_time (v : Q) (a : HarmoniaApp) : HarmoniaApp :=
  mk (HAS_DEPS a) (mixer a) (nodes a) (queue a) (history a) (current_view_songs a)
     (active_playlist_name a) (is_looping a) (is_shuffled a) (is_playing a)
     (song_length a) v (current_time a) (btn_play a)
     (lbl_now_title a) (lbl_now_artist a) (lbl_total_time a) (polls a).

Definition set_current_time (v : Q) (a : HarmoniaApp) : HarmoniaApp :=
  mk (HAS_DEPS a) (mixer a) (nodes a) (queue a) (history a) (current_view_songs a)
     (active_playlist_name a) (is_looping a) (is_shuffled a) (is_playing a)
     (song_length a) (start_time a) v (btn_play a)
     (lbl_now_title a) (lbl_now_artist a) (lbl_total_time a) (polls a).

Definition set_now_playing (t r : string) (a : HarmoniaApp) : HarmoniaApp :=
  mk (HAS_DEPS a) (mixer a) (nodes a) (queue a) (history a) (current_view_songs a)
     (active_playlist_name a) (is_looping a) (is_shuffled a) (is_playing a)
     (song_length a) (start_time a) (current_time a) (btn_play a)
     t r (lbl_total_time a) (polls a).

Definition set_total_time (label : string) (a : HarmoniaApp) : HarmoniaApp :=
  mk (HAS_DEPS a) (mixer a) (nodes a) (queue a) (history a) (current_view_songs a)
     (active_playlist_name a) (is_looping a) (is_shuffled a) (is_playing a)
     (song_length a) (start_time a) (current_time a) (btn_play a)
     (lbl_now_title a) (lbl_now_artist a) label (polls a).

Definition set_polls (v : nat) (a : HarmoniaApp) : HarmoniaApp :=
  mk (HAS_DEPS a) (mixer a) (nodes a) (queue a) (history a) (current_view_songs a)
     (active_playlist_name a) (is_looping a) (is_shuffled a) (is_playing a)
     (song_length a) (start_time a) (current_time a) (btn_play a)
     (lbl_now_title a) (lbl_now_artist a) (lbl_total_time a) v.

Definition set_queue_current (v : option loc) (a : HarmoniaApp) : HarmoniaApp :=
  set_queue (set_current v (queue a)) a.

(** The name [pygame] is bound only when the import succeeded; using it
    otherwise raises [NameError]. *)
Definition pygame (a : HarmoniaApp) : option M :=
  if HAS_DEPS a then Some (mixer a) else None.

(** The three controller states.  The source keeps the flag [is_playing]
    and tells a paused player from a stopped one by
    [pygame.mixer.music.get_pos() != -1] (the local [is_paused] of
    [toggle_play]; a raising call counts as not paused). *)
Inductive PlaybackState := Stopped | Playing | Paused.

Definition is_paused (m : M) : bool :=
  match music_get_pos m with
  | Some p => negb (p =? -1)
  | None => false
  end.

Definition controller_state (a : HarmoniaApp) : PlaybackState :=
  if is_playing a then Playing
  else if is_paused (mixer a) then Paused else Stopped.

(** The loop shared by [play_specific_song] and [toggle_shuffle]:
    [for s in self.current_view_songs: self.queue.append(s);
     if <wanted s>: node = self.queue.tail]. *)
Fixpoint load_context (wanted : Song → bool) (view : list Song) (h : heap)
    (q : DoublyLinkedList) (node : option loc)
  : option (heap * DoublyLinkedList * option loc) :=
  match view with
  | [] => Some (h, q, node)
  | s :: view =>
      '(h, q) ← append s h q;
      load_context wanted view h q (if wanted s then tail q else node)
  end.

(** [add_playlist_to_queue]: [for song in songs: self.queue.append(song)]. *)
Fixpoint append_all (songs : list Song) (h : heap) (q : DoublyLinkedList)
  : option (heap * DoublyLinkedList) :=
  match songs with
  | [] => Some (h, q)
  | s :: songs => '(h, q) ← append s h q; append_all songs h q
  end.

(** [show_queue()]: the view becomes the list of the queue's songs.
    ([search_var.set] fires [filter_songs], whose effect on the view is
    overwritten here.) *)
Definition show_queue (a : HarmoniaApp) : option HarmoniaApp :=
  songs ← songs_of (nodes a) (queue a);
  Some (set_view "Queue" songs a).

(** [remove_from_queue_ui(index)] *)
Definition remove_from_queue_ui (index : Z) (a : HarmoniaApp)
  : option HarmoniaApp :=
  node ← get_node_at_index index (nodes a) (queue a);
  match node with
  | None => Some a
  | Some n =>
      let is_current := bool_decide (Some n = current (queue a)) in
      '(h, q) ← remove_node (Some n) (nodes a) (queue a);
      let a := set_queue q (set_nodes h a) in
      a ← (if is_current && is_playing a
           then m ← pygame a;
                let a := set_mixer (music_stop m) a in
                let a := set_is_playing false glyph_play a in
                let a := set_now_playing "Not Playing" "" a in
                let a := set_total_time "0:00" a in
                Some (set_current_time 0%Q a)
           else Some a);
      show_queue a
  end.

(** [check_music_end()], with the method [play_next] it calls passed in. *)
Definition check_music_end (play_next : HarmoniaApp → option HarmoniaApp)
    (a : HarmoniaApp) : option HarmoniaApp :=
  if is_playing a
  then m ← pygame a;
       if negb (music_get_busy m) then play_next a
       else Some (set_polls (S (polls a)) a)
  else Some (set_polls (S (polls a)) a).

(** [play_current()].  The body is wrapped in [try ... except Exception],
    so a failing [load] or [play] ends the method with the state reached
    so far, and so does a failure of the nested [check_music_end()].
    Every [play_current] nested in that call catches its own failures, so
    the failure that comes back from [check_music_end] is that of the
    innermost call of [play_next], the one beyond the nesting bound, raised
    before that call has changed anything (a dangling node reference, the
    other failure of this model, does not occur in Python); the state
    reached is then the one handed to [check_music_end].  The tree-view
    highlight touches no field of the engine. *)
Definition play_current (play_next : HarmoniaApp → option HarmoniaApp)
    (a : HarmoniaApp) : option HarmoniaApp :=
  match current (queue a) with
  | None => Some a
  | Some c =>
      if negb (HAS_DEPS a) then Some a else
      song ← get_data (nodes a) c;
      let a := match Sound_get_length (mixer a) (path song) with
               | Some len => set_song_length len (format_time len) a
               | None => set_song_length 0%Q "0:00" a
               end in
      let a := set_current_time 0%Q a in
      match music_load (path song) (mixer a) with
      | None => Some a
      | Some m =>
          let a := set_mixer m a in
          match music_play m with
          | None => Some a
          | Some m =>
              let a := set_mixer m a in
              let a := set_is_playing true glyph_pause a in
              let a := set_now_playing (title song) (artist song) a in
              let a := set_start_time 0%Q a in
              match check_music_end play_next a with
              | Some a' => Some a'
              | None => Some a
              end
          end
      end
  end.

(** The state that [play_current] leaves when the backend loads and
    starts [song] (reaching state [m]) and is busy afterwards. *)
Definition played_from (song : Song) (m : M) (a : HarmoniaApp) : HarmoniaApp :=
  let a := match Sound_get_length (mixer a) (path song) with
           | Some len => set_song_length len (format_time len) a
           | None => set_song_length 0%Q "0:00" a
           end in
  set_polls (S (polls a))
    (set_start_time 0%Q
       (set_now_playing (title song) (artist song)
          (set_is_playing true glyph_pause
             (set_mixer m (set_current_time 0%Q a))))).

(** [play_next()], with the method [play_current] it calls passed in. *)
Definition play_next_body (play_current : HarmoniaApp → option HarmoniaApp)
    (a : HarmoniaApp) : option HarmoniaApp :=
  match current (queue a) with
  | None => Some a
  | Some c =>
      let a := set_history (Stack.push c (history a)) a in
      nx ← get_next (nodes a) c;
      match nx with
      | Some x => play_current (set_queue_current (Some x) a)
      | None =>
          if is_looping a
          then play_current (set_queue_current (head (queue a)) a)
          else Some (set_is_playing false glyph_play a)
      end
  end.

(** [play_next] and [play_current] call each other through
    [check_music_end]: when the backend is not busy right after [play()],
    the next track is started at once.  [depth] bounds how many such nested
    calls are followed (Python's recursion limit): the call of [play_next]
    beyond the bound fails, which the [play_current] that led to it
    catches. *)
Fixpoint play_next (depth : nat) (a : HarmoniaApp) : option HarmoniaApp :=
  play_next_body
    (play_current match depth with
                  | O => λ _, None
                  | S d => play_next d
                  end) a.

Definition play_current_at (depth : nat) (a : HarmoniaApp) : option HarmoniaApp :=
  play_current (play_next depth) a.

(** [play_prev()] *)
Definition play_prev (depth : nat) (a : HarmoniaApp) : option HarmoniaApp :=
  if negb (Stack.is_empty (history a))
  then let '(item, hist) := Stack.pop (history a) in
       play_current_at depth (set_queue_current item (set_history hist a))
  else match current (queue a) with
       | None => Some a
       | Some c =>
           pv ← get_prev (nodes a) c;
           match pv with
           | Some p => play_current_at depth (set_queue_current (Some p) a)
           | None => Some a
           end
       end.

(** [play_specific_song(song)]; [rand] supplies the numbers drawn by
    [shuffle]. *)
Definition play_specific_song (rand : nat → nat) (depth : nat) (song : Song)
    (a : HarmoniaApp) : option HarmoniaApp :=
  let q := clear (queue a) in
  '(h, q, start_node) ←
    load_context (λ s, bool_decide (s = song)) (current_view_songs a)
                 (nodes a) q None;
  let q := set_current start_node q in
  '(h, q) ← (if is_shuffled a then shuffle rand h q else Some (h, q));
  play_current_at depth (set_queue q (set_nodes h a)).

(** The song that the selected row of the tree view stands for:
    [next((s for s in self.current_view_songs
           if s.title == vals[0] and s.artist == vals[1]), None)]. *)
Definition song_of_row (view : list Song) (vals : string * string) : option Song :=
  List.find (λ s, bool_decide (title s = vals.1) && bool_decide (artist s = vals.2))
            view.

(** [toggle_play()]; [sel] holds the values of the selected row of the
    tree view, if a row is selected. *)
Definition toggle_play (rand : nat → nat) (depth : nat)
    (sel : option (string * string)) (a : HarmoniaApp) : option HarmoniaApp :=
  if negb (HAS_DEPS a) then Some a else
  let selected_song :=
    match sel with
    | Some vals => song_of_row (current_view_songs a) vals
    | None => None
    end in
  (* selected_song and (not self.queue.current
                        or self.queue.current.data != selected_song) *)
  other ← match selected_song, current (queue a) with
          | Some s, Some c => d ← get_data (nodes a) c; Some (bool_decide (d ≠ s))
          | Some s, None => Some true
          | None, _ => Some false
          end;
  let first_of_view :=
    match current_view_songs a with
    | s :: _ => play_specific_song rand depth s a
    | [] => Some a
    end in
  match selected_song, other with
  | Some s, true => play_specific_song rand depth s a
  | _, _ =>
      if is_playing a
      then Some (set_is_playing false glyph_play
                   (set_mixer (music_pause (mixer a)) a))
      else
        match current (queue a) with
        | Some _ =>
            if is_paused (mixer a)
            then let m := music_unpause (mixer a) in
                 m ← (if negb (music_get_busy m) then music_play m else Some m);
                 check_music_end (play_next depth)
                   (set_is_playing true glyph_pause (set_mixer m a))
            else first_of_view
        | None => first_of_view
        end
  end.

(** [toggle_shuffle()] (the colour of the button follows [is_shuffled]). *)
Definition toggle_shuffle (rand : nat → nat) (a : HarmoniaApp)
  : option HarmoniaApp :=
  let a := set_is_shuffled (negb (is_shuffled a)) a in
  if is_shuffled a
  then '(h, q) ← shuffle rand (nodes a) (queue a);
       Some (set_queue q (set_nodes h a))
  else
    current_data ← match current (queue a) with
                   | Some c => d ← get_data (nodes a) c; Some (Some d)
                   | None => Some None
                   end;
    let q := clear (queue a) in
    '(h, q, target_node) ←
      load_context (λ s, bool_decide (Some s = current_data))
                   (current_view_songs a) (nodes a) q None;
    Some (set_queue (set_current target_node q) (set_nodes h a)).

End controller.

Arguments HarmoniaApp M : clear implicits.

End HarmoniaApp.

(** ** The library and the playlists of [HarmoniaApp]

    [self.library] is a list of songs and [self.playlists] a dict from
    playlist names to lists of songs.  The methods below read and write
    these two fields only; the file that holds the saved playlists is
    represented by its JSON content. *)

Module Library.

(** [parts = name.split(sep, 1)] when [sep in name]: the text before and
    after the first occurrence of [sep]. *)
Fixpoint split_once (sep s : string) : option (string * string) :=
  match strip_prefix sep s with
  | Some after => Some (EmptyString, after)
  | None =>
      match s with
      | EmptyString => None
      | String c rest =>
          '(before, after) ← split_once sep rest;
          Some (String c before, after)
      end
  end.

(** The parsing step of [refresh_library]: [name] is a file name without
    its extension; the result is [(artist, title)]. *)
Definition parse_name (name : string) : string * string :=
  if contains " - " name
  then match split_once " - " name with
       | Some (artist, title) => (artist, title)
       | None => ("Unknown Artist", name)
       end
  else ("Unknown Artist", name).

(** [self.library if self.active_playlist_name == "Library"
     else self.playlists[self.active_playlist_name]]; a missing key
    raises [KeyError]. *)
Definition source_of (active : string) (library : list Song)
    (playlists : gmap string (list Song)) : option (list Song) :=
  if bool_decide (active = "Library") then Some library
  else playlists !! active.

(** [filter_songs()]: the new value of [current_view_songs], for the text
    [search] of the search box. *)
Definition filter_songs (lower : string → string) (search : string)
    (active : string) (library : list Song)
    (playlists : gmap string (list Song)) : option (list Song) :=
  let query := lower search in
  if bool_decide (query = "")
  then source_of active library playlists
  else source ← source_of active library playlists;
       Some (List.filter (matches lower query) source).

(** [add_to_playlist(pl_name, song)]: the new value of [self.playlists]. *)
Definition add_to_playlist (pl_name : string) (song : Song)
    (playlists : gmap string (list Song)) : option (gmap string (list Song)) :=
  target ← playlists !! pl_name;
  if bool_decide (song ∉ target)
  then Some (<[pl_name := target ++ [song]]> playlists)
  else Some playlists.

(** The loop of [add_playlist_to_playlist]:
    [for song in source_songs: if song not in target_songs:
       target_songs.append(song); count += 1]. *)
Fixpoint add_missing (source_songs target_songs : list Song) (count : nat)
  : list Song * nat :=
  match source_songs with
  | [] => (target_songs, count)
  | song :: rest =>
      if bool_decide (song ∉ target_songs)
      then add_missing rest (target_songs ++ [song]) (S count)
      else add_missing rest target_songs count
  end.

(** [add_playlist_to_playlist(source_name, target_name)]: the new value of
    [self.playlists] and the count shown to the user. *)
Definition add_playlist_to_playlist (source_name target_name : string)
    (playlists : gmap string (list Song))
  : option (gmap string (list Song) * nat) :=
  source_songs ← playlists !! source_name;
  target_songs ← playlists !! target_name;
  let '(target_songs, count) := add_missing source_songs target_songs O in
  Some (<[target_name := target_songs]> playlists, count).

(** [save_playlists()]: the JSON object written to the file,
    [{name: [s.path for s in songs]}]. *)
Definition save_playlists (playlists : gmap string (list Song))
  : gmap string (list (option string)) :=
  (λ songs : list Song, path <$> songs) <$> playlists.

(** [next((s for s in self.library if s.path == path), None)] *)
Definition song_at (library : list Song) (p : option string) : option Song :=
  List.find (λ s, bool_decide (path s = p)) library.

(** [load_playlists()] on the JSON object [data]: every name of [data] is
    bound to the library songs found for its paths, in order; a path with
    no song in the library is skipped. *)
Definition load_playlists (library : list Song)
    (data : gmap string (list (option string)))
    (playlists : gmap string (list Song)) : gmap string (list Song) :=
  ((λ paths : list (option string), omap (song_at library) paths) <$> data)
  ∪ playlists.

End Library.

(** ** Histories of stack operations *)

(** A run of the stack: a sequence of [push] and [pop] calls. *)
Inductive stack_op (A : Type) := Push (x : A) | Pop.
Arguments Push {A} _.
Arguments Pop {A}.

Definition run_stack {A} (ops : list (stack_op A)) (s : Stack.Stack A)
  : Stack.Stack A :=
  foldl (λ s op, match op with
                 | Push x => Stack.push x s
                 | Pop => (Stack.pop s).2
                 end) s ops.

(** [n] calls of [pop] in a row: the results, first call first, and the
    stack left. *)
Fixpoint pops {A} (n : nat) (s : Stack.Stack A) : list (option A) * Stack.Stack A :=
  match n with
  | O => ([], s)
  | S n =>
      let '(r, s) := Stack.pop s in
      let '(rs, s) := pops n s in
      (r :: rs, s)
  end.

(** Pushing the items of a list, first item first. *)
Definition pushes {A} (l : list A) (s : Stack.Stack A) : Stack.Stack A :=
  foldl (λ s x, Stack.push x s) s l.

(** The number of pushed items that no later [pop] has taken. *)
Definition outstanding {A} (ops : list (stack_op A)) : nat :=
  foldl (λ n op, match op with
                 | Push _ => S n
                 | Pop => Nat.pred n
                 end) O ops.

(** ** The structural invariant of the queue *)

Section structure.
Import DoublyLinkedList.

(** The node before position [i] of a chain. *)
Definition pred_at (ls : list loc) (i : nat) : option loc :=
  match i with
  | O => None
  | S j => ls !! j
  end.

(** The node that takes over [current] when the node at position [i] is
    removed: the next one, or else the one before. *)
Definition heir (ls : list loc) (i : nat) : option loc :=
  match ls !! S i with
  | Some x => Some x
  | None => pred_at ls i
  end.

(** The nodes [ls] are linked to each other, in this order, in the heap. *)
Definition linked (h : heap) (ls : list loc) : Prop :=
  ∀ i a, ls !! i = Some a →
    ∃ d, h !! a = Some (mkNode d (ls !! S i) (pred_at ls i)).

(** [dll h q ls]: the queue [q] is the doubly linked chain of the nodes
    [ls], from head to tail. *)
Record dll (h : heap) (q : DoublyLinkedList) (ls : list loc) : Prop := mk_dll {
  dll_nodup : NoDup ls;
  dll_head : head q = ls !! 0%nat;
  dll_tail : tail q = last ls;
  dll_linked : linked h ls;
  dll_size : size q = Z.of_nat (length ls);
  dll_current : ∀ c, current q = Some c → c ∈ ls
}.

(** The nodes met by a walk from [head] along [next]. *)
Definition chain_of (h : heap) (q : DoublyLinkedList) : option (list loc) :=
  collect (S (base.size h)) h (head q).

(** The test of [find] on the song of a node. *)
Definition node_matches (lower : string → string) (query : string) (h : heap)
    (a : loc) : bool :=
  match get_data h a with
  | Some d => matches lower query d
  | None => false
  end.

(** An executable check of [dll], for concrete heaps. *)
Definition linkedb (h : heap) (ls : list loc) : bool :=
  forallb (λ i, match ls !! i with
                | Some a =>
                    match h !! a with
                    | Some n => bool_decide (next n = ls !! S i)
                                && bool_decide (prev n = pred_at ls i)
                    | None => false
                    end
                | None => true
                end) (seq 0 (length ls)).

Definition dllb (h : heap) (q : DoublyLinkedList) (ls : list loc) : bool :=
  bool_decide (NoDup ls)
  && bool_decide (head q = ls !! 0%nat)
  && bool_decide (tail q = last ls)
  && linkedb h ls
  && bool_decide (size q = Z.of_nat (length ls))
  && match current q with
     | Some c => bool_decide (c ∈ ls)
     | None => true
     end.

(** The invariants as the data model lists them. *)
Record structural_invariants (h : heap) (q : DoublyLinkedList) : Prop :=
  mk_structural {
  head_prev_none : ∀ a, head q = Some a → get_prev h a = Some None;
  tail_next_none : ∀ a, tail q = Some a → get_next h a = Some None;
  next_prev_linked : ∀ ls a b, chain_of h q = Some ls → a ∈ ls →
    get_next h a = Some (Some b) → get_prev h b = Some (Some a);
  prev_next_linked : ∀ ls a b, chain_of h q = Some ls → a ∈ ls →
    get_prev h a = Some (Some b) → get_next h b = Some (Some a);
  size_is_chain_length : ∃ ls, chain_of h q = Some ls ∧
    size q = Z.of_nat (length ls);
  current_in_chain : ∀ c, current q = Some c →
    ∃ ls, chain_of h q = Some ls ∧ c ∈ ls
}.

(** [ds] are the songs held by the nodes [ls], one by one. *)
Definition holds (h : heap) (ls : list loc) (ds : list Song) : Prop :=
  Forall2 (λ a d, get_data h a = Some d) ls ds.

(** Node records after an attribute write, and a write through a
    reference that may be [None] (the guarded writes [if p: p.next = v]). *)
Definition with_next (v : option loc) (n : Node) : Node :=
  mkNode (data n) v (prev n).

Definition with_prev (v : option loc) (n : Node) : Node :=
  mkNode (data n) (next n) v.

Definition alter_at (f : Node → Node) (o : option loc) (h : heap) : heap :=
  match o with
  | Some p => alter f p h
  | None => h
  end.

(** The node at position [k] after turn [k] of the relinking loop of
    [shuffle]. *)
Definition relinked (ls : list loc) (k : nat) (n : Node) : Node :=
  mkNode (data n)
         (if decide (k < length ls - 1)%nat then ls !! S k else next n)
         (if decide (0 < k)%nat then pred_at ls k else prev n).

(** The numbers drawn by [random.randint(0, i)] lie in [0..i]. *)
Definition randint_ok (rand : nat → nat) : Prop := ∀ i, (rand i ≤ i)%nat.

End structure.

(** What a call nested in [play_current] may do to a valid queue with
    chain [ls]: fail, or return with heap and chain kept and the history
    extended. *)
Definition extends_history {M : Type} `{AudioBackend M} (ls : list loc)
    (k : HarmoniaApp.HarmoniaApp M → option (HarmoniaApp.HarmoniaApp M))
  : Prop :=
  ∀ b, dll (HarmoniaApp.nodes b) (HarmoniaApp.queue b) ls →
    match k b with
    | Some b' =>
        HarmoniaApp.nodes b' = HarmoniaApp.nodes b
        ∧ dll (HarmoniaApp.nodes b') (HarmoniaApp.queue b') ls
        ∧ Stack.items (HarmoniaApp.history b)
          `prefix_of` Stack.items (HarmoniaApp.history b')
    | None => True
    end.


(** ** Concrete states *)

Definition song_A : Song := mkSong 101 "A" "x" (Some "a.mp3").
Definition song_B : Song := mkSong 102 "B" "y" (Some "b.mp3").
Definition song_C : Song := mkSong 103 "C" "z" (Some "c.mp3").

(** Two playlists: Rock holds A and B, Chill holds B and C. *)
Definition playlists_RC : gmap string (list Song) :=
  <["Rock" := [song_A; song_B]]> (<["Chill" := [song_B; song_C]]> ∅).

(** The queue [A, B, C] with nodes 1, 2, 3 and [current] on B. *)
Definition heap_ABC : heap :=
  <[1%positive := mkNode song_A (Some 2%positive) None]>
    (<[2%positive := mkNode song_B (Some 3%positive) (Some 1%positive)]>
       (<[3%positive := mkNode song_C None (Some 2%positive)]> ∅)).

Definition queue_ABC : DoublyLinkedList.DoublyLinkedList :=
  DoublyLinkedList.mk (Some 1%positive) (Some 3%positive) (Some 2%positive) 3.

(** Lower case for the letters A to Z (what [str.lower] does on ASCII
    text). *)
Definition lower_ascii_char (c : Ascii.ascii) : Ascii.ascii :=
  let n := Ascii.nat_of_ascii c in
  if (65 <=? n)%nat && (n <=? 90)%nat then Ascii.ascii_of_nat (n + 32) else c.

Fixpoint lower_ascii (s : string) : string :=
  match s with
  | EmptyString => EmptyString
  | String c s => String (lower_ascii_char c) (lower_ascii s)
  end.

(** States of the reference backend: nothing loaded; playing; paused. *)
Definition mixer_idle : SimMixer := mkSim false false false.
Definition mixer_playing : SimMixer := mkSim true true false.
Definition mixer_paused : SimMixer := mkSim true true true.

(** The application with the queue [A, B, C] built from the view
    [A, B, C], an empty history, and the given cursor, flags and backend
    state. *)
Definition app_ABC (cur : option loc) (playing looping : bool) (m : SimMixer)
  : HarmoniaApp.HarmoniaApp SimMixer :=
  HarmoniaApp.mk true m heap_ABC
    (DoublyLinkedList.mk (Some 1%positive) (Some 3%positive) cur 3)
    Stack.init [song_A; song_B; song_C] "Library"
    looping false playing (180 # 1)%Q 0%Q 0%Q
    (if playing then HarmoniaApp.glyph_pause else HarmoniaApp.glyph_play)
    "B" "y" "3:00" 0.

(** The queue of [app_ABC] after [shuffle] has drawn 0 twice: the same
    three nodes relinked in the order B, C, A. *)
Definition heap_BCA : heap :=
  <[1%positive := mkNode song_A None (Some 3%positive)]>
    (<[2%positive := mkNode song_B (Some 3%positive) None]>
       (<[3%positive := mkNode song_C (Some 1%positive) (Some 2%positive)]> ∅)).

Definition app_BCA (cur : option loc) : HarmoniaApp.HarmoniaApp SimMixer :=
  HarmoniaApp.mk true mixer_idle heap_BCA
    (DoublyLinkedList.mk (Some 2%positive) (Some 1%positive) cur 3)
    Stack.init [song_A; song_B; song_C] "Library"
    false true false (180 # 1)%Q 0%Q 0%Q
    HarmoniaApp.glyph_play "B" "y" "3:00" 0.

(** The same application over the backend that is never busy. *)
Definition app_mute (cur : option loc) (looping : bool)
  : HarmoniaApp.HarmoniaApp MuteMixer :=
  HarmoniaApp.mk true mute heap_ABC
    (DoublyLinkedList.mk (Some 1%positive) (Some 3%positive) cur 3)
    Stack.init [song_A; song_B; song_C] "Library"
    looping false false 0%Q 0%Q 0%Q
    HarmoniaApp.glyph_play "Not Playing" "" "0:00" 0.

(** The application right after start-up, before anything was played:
    empty queue, nothing loaded, and the given view. *)
Definition app_fresh (view : list Song) : HarmoniaApp.HarmoniaApp SimMixer :=
  HarmoniaApp.mk true mixer_idle ∅ DoublyLinkedList.init
    Stack.init view "Library"
    false false false 0%Q 0%Q 0%Q
    HarmoniaApp.glyph_play "Not Playing" "" "0:00" 0.
(** * Properties *)

(** Settles the tests [decide (x = y)] of the goal that [lia] can decide. *)
Ltac decide_arith :=
  repeat match goal with
         | |- context [decide (?x = ?y)] =>
             first [ rewrite (decide_True (P := x = y)) by lia
                   | rewrite (decide_False (P := x = y)) by lia ]
         end.


(** ** The history stack *)

Section stack_facts.
Context {A : Type}.
Implicit Types (s : Stack.Stack A) (x y : A).

Lemma pop_push s x : Stack.pop (Stack.push x s) = (Some x, s).
Proof.
  destruct s as [l]. unfold Stack.pop, Stack.push, Stack.is_empty. simpl.
  rewrite length_app, Nat.add_1_r. simpl.
  by rewrite last_snoc, removelast_last.
Qed.

Lemma is_empty_items s : Stack.is_empty s = bool_decide (Stack.items s = []).
Proof. destruct s as [[|x l]]; reflexivity. Qed.

Lemma run_stack_length (ops : list (stack_op A)) s :
  length (Stack.items (run_stack ops s))
  = foldl (λ n op, match op with Push _ => S n | Pop => Nat.pred n end)
          (length (Stack.items s)) ops.
Proof.
  revert s. induction ops as [|op ops IH]; intros s; [done|].
  simpl. rewrite IH. f_equal. destruct op as [x|].
  - simpl. rewrite length_app. simpl. lia.
  - destruct s as [l]. unfold Stack.pop, Stack.is_empty. simpl.
    destruct l as [|z l] using rev_ind; [done|].
    rewrite length_app, Nat.add_1_r. simpl.
    rewrite removelast_last. lia.
Qed.

(** C7: the history stack is strictly last-in first-out: the item pushed
    last is popped first (pushing A then B and popping twice gives B, then
    A, and the stack as it was); [pop] on the empty stack returns [None]
    and leaves it empty; and [is_empty] holds exactly when no item is
    stored, that is, after any run of pushes and pops from the empty
    stack, exactly when no pushed item is left unpopped. *)
Theorem C7_stack_lifo s x y (ops : list (stack_op A)) :
  Stack.pop (Stack.push x s) = (Some x, s)
  ∧ (let '(r1, s1) := Stack.pop (Stack.push y (Stack.push x s)) in
     let '(r2, s2) := Stack.pop s1 in
     r1 = Some y ∧ r2 = Some x ∧ s2 = s)
  ∧ Stack.pop (@Stack.init A) = (None, Stack.init)
  ∧ Stack.is_empty (@Stack.init A) = true
  ∧ Stack.is_empty (Stack.push x s) = false
  ∧ Stack.is_empty s = bool_decide (Stack.items s = [])
  ∧ Stack.is_empty (run_stack ops Stack.init) = Nat.eqb (outstanding ops) 0.
Proof.
  repeat split.
  - apply pop_push.
  - by rewrite !pop_push.
  - destruct s as [l]. unfold Stack.is_empty, Stack.push. simpl.
    rewrite length_app. simpl. by rewrite Nat.add_1_r.
  - apply is_empty_items.
  - unfold Stack.is_empty, outstanding. by rewrite run_stack_length.
Qed.

End stack_facts.

(** ** Chains in the heap *)

Section chain_facts.
Import DoublyLinkedList.
Implicit Types (h : heap) (q : DoublyLinkedList) (ls : list loc) (a b : loc).

Lemma linked_get_next h ls i a :
  linked h ls → ls !! i = Some a → get_next h a = Some (ls !! S i).
Proof. intros Hl Hi. destruct (Hl _ _ Hi) as [d Hd]. unfold get_next. by rewrite Hd. Qed.

Lemma linked_get_prev h ls i a :
  linked h ls → ls !! i = Some a → get_prev h a = Some (pred_at ls i).
Proof. intros Hl Hi. destruct (Hl _ _ Hi) as [d Hd]. unfold get_prev. by rewrite Hd. Qed.

Lemma linked_get_data h ls i a :
  linked h ls → ls !! i = Some a → is_Some (get_data h a).
Proof. intros Hl Hi. destruct (Hl _ _ Hi) as [d Hd]. unfold get_data. rewrite Hd. eauto. Qed.

Lemma linked_dom h ls a : linked h ls → a ∈ ls → a ∈ dom h.
Proof.
  intros Hl [i Hi]%list_elem_of_lookup. destruct (Hl _ _ Hi) as [d Hd].
  apply elem_of_dom. eauto.
Qed.

Lemma collect_linked h ls fuel k :
  linked h ls → (length ls - k ≤ fuel)%nat →
  collect fuel h (ls !! k) = Some (drop k ls).
Proof.
  intros Hl. revert k. induction fuel as [|fuel IH]; intros k Hk.
  - rewrite (lookup_ge_None_2 ls k) by lia. simpl. by rewrite drop_ge by lia.
  - destruct (ls !! k) as [a|] eqn:Hi.
    + simpl. rewrite (linked_get_next _ _ _ _ Hl Hi). simpl.
      rewrite IH by lia. simpl. by rewrite (drop_S _ _ _ Hi).
    + simpl. apply lookup_ge_None_1 in Hi. by rewrite drop_ge by lia.
Qed.

Lemma linked_length h ls : NoDup ls → linked h ls → (length ls ≤ base.size h)%nat.
Proof.
  intros Hnd Hl. rewrite <- size_dom, <- (size_list_to_set (C:=gset loc) ls) by done.
  apply subseteq_size. intros a Ha. apply elem_of_list_to_set in Ha.
  by eapply linked_dom.
Qed.

Lemma dll_chain_of h q ls : dll h q ls → chain_of h q = Some ls.
Proof.
  intros [Hnd Hh _ Hl _ _]. unfold chain_of. rewrite Hh.
  rewrite (collect_linked h ls) by (done || (pose proof (linked_length _ _ Hnd Hl); lia)).
  done.
Qed.

Lemma dll_structural h q ls : dll h q ls → structural_invariants h q.
Proof.
  intros Hd. pose proof (dll_chain_of _ _ _ Hd) as Hc.
  destruct Hd as [Hnd Hh Ht Hl Hs Hcur]. split.
  - intros a Ha. rewrite Hh in Ha. by rewrite (linked_get_prev _ _ _ _ Hl Ha).
  - intros a Ha. rewrite Ht, last_lookup in Ha.
    rewrite (linked_get_next _ _ _ _ Hl Ha). f_equal.
    apply lookup_ge_None_2. destruct ls; simpl in *; [done|lia].
  - intros ls' a b Hc' [i Hi]%list_elem_of_lookup Hn.
    rewrite Hc in Hc'. simplify_eq.
    rewrite (linked_get_next _ _ _ _ Hl Hi) in Hn.
    assert (ls' !! S i = Some b) as Hb by congruence.
    rewrite (linked_get_prev _ _ _ _ Hl Hb). simpl. by rewrite Hi.
  - intros ls' a b Hc' [i Hi]%list_elem_of_lookup Hp.
    rewrite Hc in Hc'. simplify_eq.
    rewrite (linked_get_prev _ _ _ _ Hl Hi) in Hp.
    destruct i as [|i]; simpl in Hp; [done|].
    assert (ls' !! i = Some b) as Hb by congruence.
    rewrite (linked_get_next _ _ _ _ Hl Hb). by rewrite Hi.
  - eauto.
  - eauto.
Qed.

End chain_facts.

(** ** [append] *)

Section append_facts.
Import DoublyLinkedList.
Implicit Types (h : heap) (q : DoublyLinkedList) (ls : list loc) (a b : loc).

Lemma fresh_not_linked h ls : linked h ls → fresh (dom h) ∉ ls.
Proof. intros Hl Hin. apply (is_fresh (dom h)). by eapply linked_dom. Qed.

Lemma append_dll d h q ls :
  dll h q ls →
  ∃ h' q', append d h q = Some (h', q')
    ∧ dll h' q' (ls ++ [fresh (dom h)])
    ∧ h !! fresh (dom h) = None
    ∧ get_data h' (fresh (dom h)) = Some d
    ∧ (∀ b, b ≠ fresh (dom h) → get_data h' b = get_data h b)
    ∧ current q' = match ls with [] => Some (fresh (dom h)) | _ => current q end
    ∧ head q' = Some (default (fresh (dom h)) (ls !! 0%nat))
    ∧ tail q' = Some (fresh (dom h)).
Proof.
  intros [Hnd Hh Ht Hl Hs Hcur].
  pose proof (fresh_not_linked _ _ Hl) as Hfr.
  assert (h !! fresh (dom h) = None) as Hnone
    by (apply not_elem_of_dom, is_fresh).
  set (a := fresh (dom h)) in *.
  unfold append, new_Node. fold a.
  destruct ls as [|x ls0 _] using rev_ind.
  - simpl in Hh. rewrite Hh. simpl. eexists _, _. split; [done|].
    split_and!; try done.
    + split; simpl; try done.
      * apply NoDup_singleton.
      * intros [|i] b Hi; simplify_eq/=. exists d. by rewrite lookup_insert_eq.
      * simpl in Hs. lia.
      * intros c ?; simplify_eq. set_solver.
    + unfold get_data. by rewrite lookup_insert_eq.
    + intros b Hb. unfold get_data. by rewrite lookup_insert_ne.
  - assert (is_Some (head q)) as [hd Hhd].
    { rewrite Hh. apply lookup_lt_is_Some. rewrite length_app. simpl. lia. }
    rewrite Hhd. rewrite last_snoc in Ht.
    assert ((ls0 ++ [x]) !! length ls0 = Some x) as Hx
      by (by rewrite list_lookup_middle).
    destruct (Hl _ _ Hx) as [dx Hdx].
    assert (x ≠ a) as Hxa.
    { intros ->. apply Hfr. set_solver. }
    rewrite (lookup_ge_None_2 _ (S (length ls0))) in Hdx
      by (rewrite length_app; simpl; lia).
    unfold set_prev, set_next. rewrite Ht. simpl.
    rewrite lookup_insert_eq. simpl.
    rewrite lookup_insert_ne, lookup_insert_ne, Hdx by done. simpl.
    eexists _, _. split; [done|].
    split_and!; try done.
    + split; simpl; try done.
      * apply NoDup_app. split_and!; [done| |apply NoDup_singleton].
        intros y Hy ->%list_elem_of_singleton. done.
      * rewrite Hh in Hhd. rewrite lookup_app_l; [done|].
        by eapply lookup_lt_Some.
      * by rewrite last_snoc.
      * intros i b Hi.
        destruct (decide (i < length ls0)%nat) as [Hlt|Hge].
        { rewrite lookup_app_l in Hi by (rewrite length_app; simpl; lia).
          destruct (Hl _ _ Hi) as [db Hdb].
          assert (b ≠ x).
          { intros ->. pose proof (NoDup_lookup _ _ _ _ Hnd Hi Hx). lia. }
          assert (b ≠ a).
          { intros ->. apply Hfr. by eapply list_elem_of_lookup_2. }
          exists db. rewrite !lookup_insert_ne by done. rewrite Hdb.
          f_equal. f_equal.
          - rewrite (lookup_app_l (_ ++ _)); [done|].
            rewrite length_app. simpl. lia.
          - destruct i as [|i]; [done|]. simpl.
            rewrite (lookup_app_l (_ ++ _)); [done|].
            rewrite length_app. simpl. lia. }
        destruct (decide (i = length ls0)) as [->|Hne].
        { rewrite lookup_app_l in Hi by (rewrite length_app; simpl; lia).
          rewrite Hx in Hi. simplify_eq.
          exists dx. rewrite lookup_insert_eq. f_equal. f_equal.
          - rewrite lookup_app_r by (rewrite length_app; simpl; lia).
            rewrite length_app. simpl.
            by replace (S (length ls0) - (length ls0 + 1))%nat with 0%nat by lia.
          - destruct (length ls0) as [|n] eqn:Hn; [done|]. simpl.
            rewrite (lookup_app_l (_ ++ _)); [done|].
            rewrite length_app. simpl. lia. }
        assert (i = S (length ls0)) as ->.
        { apply lookup_lt_Some in Hi. rewrite !length_app in Hi. simpl in Hi. lia. }
        rewrite lookup_app_r in Hi by (rewrite length_app; simpl; lia).
        rewrite length_app in Hi. simpl in Hi.
        replace (S (length ls0) - (length ls0 + 1))%nat with 0%nat in Hi by lia.
        simplify_eq/=.
        exists d. rewrite lookup_insert_ne, lookup_insert_eq by done.
        f_equal. f_equal.
        { symmetry. apply lookup_ge_None_2. rewrite !length_app. simpl. lia. }
        { rewrite (lookup_app_l (_ ++ _)) by (rewrite length_app; simpl; lia).
          by rewrite Hx. }
      * rewrite Hs, !length_app. simpl. lia.
      * intros c Hc. apply elem_of_app. left. by apply Hcur.
    + unfold get_data. by rewrite lookup_insert_ne, lookup_insert_eq.
    + intros b Hb. unfold get_data.
      destruct (decide (b = x)) as [->|Hbx].
      * rewrite lookup_insert_eq, Hdx. done.
      * by rewrite !lookup_insert_ne.
    + by destruct ls0.
    + simpl. rewrite Hh in Hhd. by rewrite Hh, Hhd.
Qed.

End append_facts.

Section append_all_facts.
Import DoublyLinkedList.
Implicit Types (h : heap) (q : DoublyLinkedList) (ls : list loc) (a b : loc).

Lemma dll_init h : dll h init [].
Proof.
  split; simpl; try done. apply NoDup_nil_2.
Qed.

Lemma dll_songs_of h q ls ds :
  dll h q ls → holds h ls ds → songs_of h q = Some ds.
Proof.
  intros Hd Hds. unfold songs_of. fold (chain_of h q).
  rewrite (dll_chain_of _ _ _ Hd). simpl. by apply mapM_Some.
Qed.

Lemma holds_ext h h' ls ds :
  (∀ a, a ∈ ls → get_data h' a = get_data h a) → holds h ls ds → holds h' ls ds.
Proof.
  intros Hext Hds. unfold holds in *.
  induction Hds as [|a d ls ds Ha Hds IH]; constructor.
  - rewrite Hext; [done|]. apply list_elem_of_here.
  - apply IH. intros b Hb. apply Hext. by apply list_elem_of_further.
Qed.

Lemma holds_append d h q ls ds h' q' :
  dll h q ls → holds h ls ds → append d h q = Some (h', q') →
  holds h' (ls ++ [fresh (dom h)]) (ds ++ [d]).
Proof.
  intros Hd Hds Happ.
  destruct (append_dll d _ _ _ Hd) as (h1 & q1 & Heq & _ & _ & Hnew & Hold & _).
  rewrite Happ in Heq. simplify_eq.
  apply Forall2_app; [|by repeat constructor].
  eapply holds_ext; [|done]. intros b Hin. apply Hold.
  intros ->. by eapply fresh_not_linked; [apply Hd|].
Qed.

Lemma append_all_dll songs h q ls ds :
  dll h q ls → holds h ls ds →
  ∃ h' q' ls', HarmoniaApp.append_all songs h q = Some (h', q')
    ∧ dll h' q' (ls ++ ls') ∧ holds h' (ls ++ ls') (ds ++ songs).
Proof.
  revert h q ls ds. induction songs as [|s songs IH]; intros h q ls ds Hd Hds.
  - exists h, q, []. rewrite !app_nil_r. done.
  - destruct (append_dll s _ _ _ Hd) as (h1 & q1 & Heq & Hd1 & _).
    pose proof (holds_append _ _ _ _ _ _ _ Hd Hds Heq) as Hds1.
    destruct (IH _ _ _ _ Hd1 Hds1) as (h' & q' & ls' & Heq' & Hd' & Hds').
    exists h', q', (fresh (dom h) :: ls'). simpl. rewrite Heq. simpl.
    rewrite <- !app_assoc in *. simpl in *. done.
Qed.

(** C6: appending a finite sequence of tracks to an empty queue gives a
    queue whose size is the number of appends and whose head-to-tail
    traversal is the sequence, in append order; the first append into an
    empty queue makes the new node head, tail and current. *)
Theorem C6_append_order (h : heap) (songs : list Song) (d : Song) :
  (∃ h' q', HarmoniaApp.append_all songs h init = Some (h', q')
     ∧ size q' = Z.of_nat (length songs)
     ∧ songs_of h' q' = Some songs)
  ∧ (∃ a, h !! a = None
     ∧ append d h init
       = Some (<[a := mkNode d None None]> h, mk (Some a) (Some a) (Some a) 1)).
Proof.
  split.
  - destruct (append_all_dll songs h init [] [] (dll_init h))
      as (h' & q' & ls' & Heq & Hd & Hds); [constructor|].
    simpl in *. exists h', q'. split; [done|]. split.
    + rewrite (dll_size _ _ _ Hd). f_equal. by apply Forall2_length in Hds.
    + by eapply dll_songs_of.
  - exists (fresh (dom h)). split; [apply not_elem_of_dom, is_fresh|done].
Qed.

End append_all_facts.

(** ** Attribute writes *)

Section write_facts.
Implicit Types (h : heap) (ls : list loc) (a b : loc) (n : Node).

Lemma set_next_alter h a v n :
  h !! a = Some n → set_next a v h = Some (alter (with_next v) a h).
Proof.
  intros Ha. unfold set_next. rewrite Ha. simpl. f_equal.
  apply map_eq. intros b. rewrite lookup_alter, lookup_insert.
  case_decide; simplify_eq; [by rewrite Ha|done].
Qed.

Lemma set_prev_alter h a v n :
  h !! a = Some n → set_prev a v h = Some (alter (with_prev v) a h).
Proof.
  intros Ha. unfold set_prev. rewrite Ha. simpl. f_equal.
  apply map_eq. intros b. rewrite lookup_alter, lookup_insert.
  case_decide; simplify_eq; [by rewrite Ha|done].
Qed.

Lemma lookup_alter_at f o h b :
  alter_at f o h !! b = if decide (o = Some b) then f <$> h !! b else h !! b.
Proof.
  destruct o as [p|]; [|done]. simpl.
  rewrite lookup_alter. destruct (decide (p = b)) as [->|Hne].
  - by rewrite decide_True.
  - by rewrite decide_False by congruence.
Qed.

Lemma set_next_alter_at h o v :
  (∀ p, o = Some p → is_Some (h !! p)) →
  match o with Some p => set_next p v h | None => Some h end
  = Some (alter_at (with_next v) o h).
Proof.
  intros Ho. destruct o as [p|]; [|done].
  destruct (Ho p eq_refl) as [n Hn]. by eapply set_next_alter.
Qed.

Lemma set_prev_alter_at h o v :
  (∀ p, o = Some p → is_Some (h !! p)) →
  match o with Some p => set_prev p v h | None => Some h end
  = Some (alter_at (with_prev v) o h).
Proof.
  intros Ho. destruct o as [p|]; [|done].
  destruct (Ho p eq_refl) as [n Hn]. by eapply set_prev_alter.
Qed.

Lemma linked_pred_at h ls i p :
  linked h ls → pred_at ls i = Some p → is_Some (h !! p).
Proof.
  intros Hl Hp. destruct i as [|j]; [done|]. simpl in Hp.
  destruct (Hl _ _ Hp) as [d Hd]. eauto.
Qed.

Lemma linked_succ h ls i p :
  linked h ls → ls !! i = Some p → is_Some (h !! p).
Proof. intros Hl Hp. destruct (Hl _ _ Hp) as [d Hd]. eauto. Qed.

End write_facts.

(** ** [remove_node] *)

Section remove_facts.
Import DoublyLinkedList.
Implicit Types (h : heap) (q : DoublyLinkedList) (ls : list loc) (a b : loc).

Lemma remove_node_eq h q ls i a d :
  dll h q ls → ls !! i = Some a → h !! a = Some (mkNode d (ls !! S i) (pred_at ls i)) →
  remove_node (Some a) h q
  = Some (<[a := mkNode d None None]>
            (alter_at (with_prev (pred_at ls i)) (ls !! S i)
               (alter_at (with_next (ls !! S i)) (pred_at ls i) h)),
          mk (if decide (i = 0%nat) then ls !! S i else head q)
             (if decide (ls !! S i = None) then pred_at ls i else tail q)
             (if decide (current q = Some a) then heir ls i else current q)
             (size q - 1)).
Proof.
  intros [Hnd Hh Ht Hl Hs Hcur] Hi Ha.
  assert (∀ j, ls !! j = Some a → j = i) as Huniq.
  { intros j Hj. by eapply NoDup_lookup. }
  unfold remove_node.
  assert (get_next h a = Some (ls !! S i)) as Hn by (unfold get_next; by rewrite Ha).
  assert (get_prev h a = Some (pred_at ls i)) as Hp by (unfold get_prev; by rewrite Ha).
  assert (pred_at ls i ≠ Some a) as Hpa.
  { destruct i as [|j]; [done|]. simpl. intros Hj. apply Huniq in Hj. lia. }
  assert (ls !! S i ≠ Some a) as Hxa.
  { intros Hj. apply Huniq in Hj. lia. }
  assert (∀ x, ls !! S i = Some x → pred_at ls i ≠ Some x) as Hpx.
  { intros x Hx. destruct i as [|j]; [done|]. simpl. intros Hj.
    pose proof (NoDup_lookup _ _ _ _ Hnd Hx Hj). lia. }
  set (h1 := alter_at (with_next (ls !! S i)) (pred_at ls i) h).
  set (h2 := alter_at (with_prev (pred_at ls i)) (ls !! S i) h1).
  assert (h1 !! a = h !! a) as Ha1.
  { unfold h1. rewrite lookup_alter_at. by rewrite decide_False. }
  assert (h2 !! a = h !! a) as Ha2.
  { unfold h2. rewrite lookup_alter_at. by rewrite decide_False. }
  assert (get_next h1 a = Some (ls !! S i)) as Hn1
    by (unfold get_next; by rewrite Ha1, Ha).
  assert (get_prev h1 a = Some (pred_at ls i)) as Hp1
    by (unfold get_prev; by rewrite Ha1, Ha).
  assert (get_next h2 a = Some (ls !! S i)) as Hn2
    by (unfold get_next; by rewrite Ha2, Ha).
  assert (get_prev h2 a = Some (pred_at ls i)) as Hp2
    by (unfold get_prev; by rewrite Ha2, Ha).
  assert (Some a = head q ↔ i = 0%nat) as F1.
  { rewrite Hh. split; [intros Hj; symmetry in Hj; by apply Huniq in Hj|by intros ->]. }
  assert (Some a = tail q ↔ ls !! S i = None) as F2.
  { rewrite Ht, last_lookup. pose proof (lookup_lt_Some _ _ _ Hi) as Hlt. split.
    - intros Hj. symmetry in Hj. apply Huniq in Hj. apply lookup_ge_None_2. lia.
    - intros Hnone%lookup_ge_None_1.
      replace (Nat.pred (length ls)) with i by lia. done. }
  assert (h2 !! a = Some (mkNode d (ls !! S i) (pred_at ls i))) as Ha2'
    by (by rewrite Ha2).
  assert (alter (with_prev None) a (alter (with_next None) a h2)
          = <[a := mkNode d None None]> h2) as Hfin.
  { apply map_eq. intros b. destruct (decide (a = b)) as [<-|Hne].
    - by rewrite lookup_insert_eq, !lookup_alter_eq, Ha2'.
    - by rewrite lookup_insert_ne, !lookup_alter_ne by done. }
  assert (match ls !! S i with
          | Some x => get_prev h1 a ≫= λ pv, set_prev x pv h1
          | None => Some h1
          end = Some h2) as Hstep2.
  { rewrite Hp1. simpl. unfold h2. apply set_prev_alter_at.
    intros x Hx. unfold h1. rewrite lookup_alter_at.
    rewrite decide_False by (by apply Hpx).
    by eapply linked_succ. }
  destruct (decide (Some a = head q)) as [D1|D1],
           (decide (i = 0%nat)) as [E1|E1]; try (exfalso; tauto);
  rewrite ?Hn; simpl;
  destruct (decide (Some a = tail q)) as [D2|D2],
           (decide (ls !! S i = None)) as [E2|E2]; try (exfalso; tauto);
  rewrite ?Hp; simpl; rewrite ?Hn; simpl;
  rewrite (set_next_alter_at h (pred_at ls i) (ls !! S i))
    by (intros p Hp'; by eapply linked_pred_at);
  simpl; fold h1;
  rewrite Hn1; simpl;
  rewrite Hstep2; simpl;
  (destruct (decide (Some a = current q)) as [D3|D3],
            (decide (current q = Some a)) as [E3|E3]; try (exfalso; congruence));
  simpl; rewrite ?Hn2; simpl; unfold heir;
  (destruct (ls !! S i) as [x|] eqn:Hx; try done); simpl; rewrite ?Hp2; simpl;
  rewrite (set_next_alter h2 a None _ Ha2'); simpl;
  (erewrite set_prev_alter; [|by rewrite lookup_alter_eq, Ha2']); simpl;
  rewrite Hfin; subst; try done.
  all: by destruct q.
Qed.

End remove_facts.

Section remove_dll_facts.
Import DoublyLinkedList.
Implicit Types (h : heap) (q : DoublyLinkedList) (ls : list loc) (a b : loc).

Lemma lookup_delete_shift ls i j :
  delete i ls !! j = ls !! (if decide (j < i)%nat then j else S j).
Proof.
  case_decide.
  - by apply list_lookup_delete_lt.
  - apply list_lookup_delete_ge. lia.
Qed.

Lemma pred_at_delete ls i j :
  pred_at (delete i ls) j
  = if decide (j ≤ i)%nat then pred_at ls j else ls !! j.
Proof.
  destruct j as [|j].
  - destruct (decide (0 ≤ i)%nat); [done|lia].
  - unfold pred_at. rewrite lookup_delete_shift.
    destruct (decide (j < i)%nat), (decide (S j ≤ i)%nat); try lia; done.
Qed.

Lemma elem_of_delete ls i a b :
  ls !! i = Some a → b ∈ ls → b ≠ a → b ∈ delete i ls.
Proof.
  intros Hi Hb Hne. rewrite delete_take_drop.
  rewrite <- (take_drop_middle _ _ _ Hi) in Hb.
  rewrite elem_of_app, elem_of_cons in Hb. rewrite elem_of_app. tauto.
Qed.

Lemma remove_node_dll h q ls i a :
  dll h q ls → ls !! i = Some a →
  ∃ h' q' d, remove_node (Some a) h q = Some (h', q')
    ∧ dll h' q' (delete i ls)
    ∧ current q' = (if decide (current q = Some a) then heir ls i else current q)
    ∧ size q' = size q - 1
    ∧ h' !! a = Some (mkNode d None None)
    ∧ (∀ b, get_data h' b = get_data h b).
Proof.
  intros Hd Hi. pose proof Hd as [Hnd Hh Ht Hl Hs Hcur].
  destruct (Hl _ _ Hi) as [d Ha].
  pose proof (lookup_lt_Some _ _ _ Hi) as Hlt.
  eexists _, _, d. split; [by eapply remove_node_eq|].
  assert (∀ j b, ls !! j = Some b → j ≠ i → b ≠ a) as Hdiff.
  { intros j b Hj Hji ->. by pose proof (NoDup_lookup _ _ _ _ Hnd Hi Hj). }
  split_and!; simpl; try done.
  - split; simpl.
    + eapply sublist_NoDup; [done|apply sublist_delete].
    + rewrite lookup_delete_shift.
      destruct (decide (i = 0%nat)) as [->|Hne]; [done|].
      by rewrite decide_True by lia.
    + rewrite !last_lookup, length_delete by eauto. rewrite lookup_delete_shift.
      destruct (decide (ls !! S i = None)) as [Hnone|Hsome].
      * apply lookup_ge_None_1 in Hnone.
        destruct i as [|j]; simpl.
        { rewrite lookup_ge_None_2; [done|]. simpl. lia. }
        rewrite decide_True by lia. f_equal. lia.
      * assert (S i < length ls)%nat.
        { apply lookup_lt_is_Some. by destruct (ls !! S i). }
        rewrite Ht, last_lookup, decide_False by lia. f_equal. lia.
    + intros j b Hj. rewrite lookup_delete_shift in Hj.
      rewrite lookup_delete_shift, pred_at_delete.
      destruct (decide (j < i)%nat) as [Hji|Hji].
      * (* before the removed node *)
        assert (b ≠ a) by (eapply Hdiff; [done|lia]).
        destruct (Hl _ _ Hj) as [db Hdb].
        rewrite lookup_insert_ne, !lookup_alter_at by done.
        rewrite (decide_True (P := (j ≤ i)%nat)) by lia.
        rewrite (decide_False (P := ls !! S i = Some b)).
        2:{ intros Hj'. pose proof (NoDup_lookup _ _ _ _ Hnd Hj Hj'). lia. }
        destruct (decide (S j = i)) as [<-|Hne].
        { simpl. rewrite (decide_True (P := ls !! j = Some b)) by done.
          rewrite Hdb. simpl.
          rewrite (decide_False (P := (S j < S j)%nat)) by lia. eauto. }
        rewrite (decide_False (P := pred_at ls i = Some b)).
        2:{ destruct i as [|i']; [done|]. simpl. intros Hj'.
            pose proof (NoDup_lookup _ _ _ _ Hnd Hj Hj'). lia. }
        rewrite (decide_True (P := (S j < i)%nat)) by lia. eauto.
      * (* after the removed node *)
        assert (b ≠ a) by (eapply Hdiff; [done|lia]).
        destruct (Hl _ _ Hj) as [db Hdb].
        rewrite lookup_insert_ne, !lookup_alter_at by done.
        rewrite (decide_False (P := (S j < i)%nat)) by lia.
        rewrite (decide_False (P := pred_at ls i = Some b)).
        2:{ destruct i as [|i']; [done|]. simpl. intros Hj'.
            pose proof (NoDup_lookup _ _ _ _ Hnd Hj Hj'). lia. }
        destruct (decide (j = i)) as [->|Hne].
        { rewrite (decide_True (P := ls !! S i = Some b)) by done.
          rewrite Hdb. simpl.
          rewrite (decide_True (P := (i ≤ i)%nat)) by lia. eauto. }
        rewrite (decide_False (P := ls !! S i = Some b)).
        2:{ intros Hj'. pose proof (NoDup_lookup _ _ _ _ Hnd Hj Hj'). lia. }
        rewrite (decide_False (P := (j ≤ i)%nat)) by lia. rewrite Hdb. simpl. eauto.
    + rewrite length_delete by eauto. lia.
    + intros c Hc. apply (elem_of_delete _ _ a); [done| |].
      * case_decide as Hca; [|by apply Hcur].
        unfold heir in Hc. destruct (ls !! S i) as [x|] eqn:Hx; simplify_eq.
        { by eapply list_elem_of_lookup_2. }
        destruct i as [|j]; [done|]. by eapply list_elem_of_lookup_2.
      * case_decide as Hca; [|congruence].
        unfold heir in Hc. destruct (ls !! S i) as [x|] eqn:Hx; simplify_eq.
        { eapply Hdiff; [done|lia]. }
        destruct i as [|j]; [done|]. eapply Hdiff; [done|lia].
  - by rewrite lookup_insert_eq.
  - intros b. unfold get_data. destruct (decide (b = a)) as [->|Hne].
    + by rewrite lookup_insert_eq, Ha.
    + rewrite lookup_insert_ne, !lookup_alter_at by done.
      repeat case_decide; by destruct (h !! b).
Qed.

End remove_dll_facts.

Section remove_props.
Import DoublyLinkedList.
Implicit Types (h : heap) (q : DoublyLinkedList) (ls : list loc) (a b : loc).

Lemma linkedb_sound h ls : linkedb h ls = true → linked h ls.
Proof.
  unfold linkedb. rewrite forallb_forall. intros Hall i a Hi.
  assert (In i (seq 0 (length ls))) as Hin.
  { apply in_seq. apply lookup_lt_Some in Hi. lia. }
  specialize (Hall i Hin). rewrite Hi in Hall.
  destruct (h !! a) as [[d nx pv]|]; [|done].
  exists d. simpl in Hall. apply andb_prop in Hall as [Hn Hp].
  apply bool_decide_eq_true in Hn. apply bool_decide_eq_true in Hp. by subst.
Qed.

Lemma dllb_sound h q ls : dllb h q ls = true → dll h q ls.
Proof.
  unfold dllb. rewrite !andb_true_iff, !bool_decide_eq_true.
  intros [[[[[Hnd Hh] Ht] Hl] Hs] Hc]. split; try done.
  - by apply linkedb_sound.
  - intros c Hcur. rewrite Hcur in Hc. by apply bool_decide_eq_true in Hc.
Qed.

Lemma heir_None ls i a :
  ls !! i = Some a → heir ls i = None ↔ delete i ls = [].
Proof.
  intros Hi. pose proof (lookup_lt_Some _ _ _ Hi) as Hlt. split.
  - unfold heir. intros Hh. destruct (ls !! S i) eqn:Hx; [done|].
    apply lookup_ge_None_1 in Hx. destruct i as [|j].
    + destruct ls as [|x [|y ls]]; simpl in *; (done || lia).
    + simpl in Hh. apply lookup_ge_None_1 in Hh. lia.
  - intros Hnil. apply (f_equal length) in Hnil.
    rewrite length_delete in Hnil by eauto. simpl in Hnil.
    destruct ls as [|x [|y ls]]; simpl in *; try lia.
    destruct i as [|j]; [done|simpl in *; lia].
Qed.

(** C1: [remove_node] on a node of the queue excises it: the chain is the
    old one without the node, whose own links are reset.  If the node was
    [current], [current] becomes the node's former [next], or else its
    former [prev], and it is [None] exactly when the queue has become
    empty; otherwise [current] is kept.  In no case does [current] still
    refer to the removed node. *)
Theorem C1_remove_node h q ls i a :
  dll h q ls → ls !! i = Some a →
  ∃ h' q',
    remove_node (Some a) h q = Some (h', q')
    ∧ dll h' q' (delete i ls)
    ∧ chain_of h' q' = Some (delete i ls)
    ∧ (a ∉ delete i ls)
    ∧ get_next h' a = Some None ∧ get_prev h' a = Some None
    ∧ size q' = size q - 1
    ∧ (current q = Some a →
       ∃ nx pv, get_next h a = Some nx ∧ get_prev h a = Some pv
         ∧ current q' = match nx with Some x => Some x | None => pv end
         ∧ (current q' = None ↔ head q' = None))
    ∧ (current q ≠ Some a → current q' = current q)
    ∧ current q' ≠ Some a.
Proof.
  intros Hd Hi.
  destruct (remove_node_dll _ _ _ _ _ Hd Hi)
    as (h' & q' & d & Heq & Hd' & Hcur & Hsz & Ha & Hdata).
  exists h', q'. split; [done|]. split; [done|].
  assert (a ∉ delete i ls) as Hnotin.
  { intros [j Hj]%list_elem_of_lookup. rewrite lookup_delete_shift in Hj.
    pose proof (NoDup_lookup _ _ _ _ (dll_nodup _ _ _ Hd) Hi Hj) as Hij.
    case_decide; lia. }
  split_and!.
  - by eapply dll_chain_of.
  - done.
  - unfold get_next. by rewrite Ha.
  - unfold get_prev. by rewrite Ha.
  - done.
  - intros Hc. rewrite decide_True in Hcur by done.
    exists (ls !! S i), (pred_at ls i). split_and!.
    + by eapply linked_get_next; [apply Hd|].
    + by eapply linked_get_prev; [apply Hd|].
    + done.
    + rewrite Hcur, (dll_head _ _ _ Hd'), (heir_None _ _ _ Hi).
      split; [by intros ->|]. by destruct (delete i ls).
  - intros Hc. by rewrite decide_False in Hcur.
  - intros Hc. apply Hnotin. by eapply dll_current.
Qed.

Lemma C1_remove_node_witness :
  ∃ h' q',
    remove_node (Some 2%positive) heap_ABC queue_ABC = Some (h', q')
    ∧ dll h' q' [1%positive; 3%positive]
    ∧ current q' = Some 3%positive.
Proof.
  destruct (C1_remove_node heap_ABC queue_ABC
              [1%positive; 2%positive; 3%positive] 1 2%positive)
    as (h' & q' & Heq & Hd & _ & _ & _ & _ & _ & Hcur & _).
  - apply dllb_sound. vm_compute. reflexivity.
  - reflexivity.
  - exists h', q'. split; [exact Heq|]. split; [exact Hd|].
    destruct (Hcur eq_refl) as (nx & pv & Hn & Hp & Hc & _).
    vm_compute in Hn. injection Hn as <-. exact Hc.
Defined.

End remove_props.

(** ** [swap_nodes] *)

Section swap_facts.
Import DoublyLinkedList.
Implicit Types (h : heap) (q : DoublyLinkedList) (ls : list loc) (a b : loc).

Lemma swap_nodes_eq h q ls i a b da db :
  dll h q ls → ls !! i = Some a → ls !! S i = Some b →
  h !! a = Some (mkNode da (Some b) (pred_at ls i)) →
  h !! b = Some (mkNode db (ls !! S (S i)) (Some a)) →
  swap_nodes (Some a) (Some b) h q
  = Some (<[a := mkNode da (ls !! S (S i)) (Some b)]>
            (<[b := mkNode db (Some a) (pred_at ls i)]>
               (alter_at (with_prev (Some a)) (ls !! S (S i))
                  (alter_at (with_next (Some b)) (pred_at ls i) h))),
          mk (if decide (pred_at ls i = None) then Some b else head q)
             (if decide (ls !! S (S i) = None) then Some a else tail q)
             (current q) (size q)).
Proof.
  intros [Hnd Hh Ht Hl Hs Hcur] Hi Hj Ha Hb.
  assert (a ≠ b) as Hab.
  { intros ->. pose proof (NoDup_lookup _ _ _ _ Hnd Hi Hj). lia. }
  assert (∀ p, pred_at ls i = Some p → p ≠ a ∧ p ≠ b) as Hp.
  { intros p Hp. destruct i as [|k]; [done|]. simpl in Hp. split; intros ->.
    - pose proof (NoDup_lookup _ _ _ _ Hnd Hi Hp). lia.
    - pose proof (NoDup_lookup _ _ _ _ Hnd Hj Hp). lia. }
  assert (∀ x, ls !! S (S i) = Some x → x ≠ a ∧ x ≠ b) as Hx.
  { intros x Hx. split; intros ->.
    - pose proof (NoDup_lookup _ _ _ _ Hnd Hi Hx). lia.
    - pose proof (NoDup_lookup _ _ _ _ Hnd Hj Hx). lia. }
  assert (∀ p x, pred_at ls i = Some p → ls !! S (S i) = Some x → p ≠ x) as Hpx.
  { intros p x Hp' Hx' ->. destruct i as [|k]; [done|]. simpl in Hp'.
    pose proof (NoDup_lookup _ _ _ _ Hnd Hp' Hx'). lia. }
  set (h1 := alter_at (with_next (Some b)) (pred_at ls i) h).
  set (h2 := alter_at (with_prev (Some a)) (ls !! S (S i)) h1).
  assert (h2 !! a = h !! a ∧ h2 !! b = h !! b) as [Ha2 Hb2].
  { unfold h2, h1. rewrite !lookup_alter_at.
    split; rewrite !decide_False; try done; intros Heq.
    - by apply Hp in Heq as [? ?]. - by apply Hx in Heq as [? ?].
    - by apply Hp in Heq as [? ?]. - by apply Hx in Heq as [? ?]. }
  assert (match pred_at ls i with
          | Some p => set_next p (Some b) h ≫= λ h, Some (h, q)
          | None => Some (h, set_head (Some b) q)
          end
          = Some (h1, set_head (if decide (pred_at ls i = None) then Some b
                                else head q) q)) as Hstep1.
  { unfold h1. destruct (pred_at ls i) as [p|] eqn:Hpi; simpl; [|done].
    destruct (linked_pred_at _ _ _ _ Hl Hpi) as [np Hnp].
    rewrite (set_next_alter _ _ _ _ Hnp). simpl. by destruct q. }
  assert (∀ q0, match ls !! S (S i) with
          | Some x => set_prev x (Some a) h1 ≫= λ h, Some (h, q0)
          | None => Some (h1, set_tail (Some a) q0)
          end
          = Some (h2, set_tail (if decide (ls !! S (S i) = None) then Some a
                                else tail q0) q0)) as Hstep2.
  { intros q0. unfold h2. destruct (ls !! S (S i)) as [x|] eqn:Hxi; simpl; [|done].
    assert (is_Some (h1 !! x)) as [nx Hnx].
    { unfold h1. rewrite lookup_alter_at.
      destruct (decide (pred_at ls i = Some x)) as [Hc|Hc].
      - exfalso. by eapply (Hpx _ _ Hc eq_refl).
      - by eapply (linked_succ _ _ _ _ Hl Hxi). }
    rewrite (set_prev_alter _ _ _ _ Hnx). simpl. by destruct q0. }
  unfold swap_nodes, get_next, get_prev. rewrite Ha, Hb. simpl.
  rewrite decide_False by (intros Hne; by apply Hne). simpl.
  rewrite Hstep1. simpl. rewrite Hstep2. simpl.
  unfold set_prev, set_next. rewrite Hb2, Hb. simpl.
  rewrite lookup_insert_eq. simpl.
  rewrite lookup_insert_ne, lookup_insert_ne, Ha2, Ha by done. simpl.
  rewrite lookup_insert_eq. simpl.
  f_equal. f_equal.
  apply map_eq. intros c.
  destruct (decide (c = a)) as [->|Hca].
  - by rewrite !lookup_insert_eq.
  - rewrite !(lookup_insert_ne _ a) by done.
    destruct (decide (c = b)) as [->|Hcb].
    + by rewrite !lookup_insert_eq.
    + by rewrite !(lookup_insert_ne _ b) by done.
Qed.

End swap_facts.

Section swap_dll_facts.
Import DoublyLinkedList.
Implicit Types (h : heap) (q : DoublyLinkedList) (ls : list loc) (a b : loc).

Lemma lookup_swapped ls i a b j :
  ls !! i = Some a → ls !! S i = Some b →
  (<[i := b]> (<[S i := a]> ls)) !! j
  = if decide (j = i) then Some b
    else if decide (j = S i) then Some a else ls !! j.
Proof.
  intros Hi Hj. pose proof (lookup_lt_Some _ _ _ Hj) as Hlt.
  destruct (decide (j = i)) as [->|Hne].
  - rewrite list_lookup_insert_eq; [done|]. rewrite length_insert. lia.
  - rewrite list_lookup_insert_ne by done.
    destruct (decide (j = S i)) as [->|Hne'].
    + by rewrite list_lookup_insert_eq.
    + by rewrite list_lookup_insert_ne.
Qed.

Lemma pred_at_swapped ls i a b j :
  ls !! i = Some a → ls !! S i = Some b →
  pred_at (<[i := b]> (<[S i := a]> ls)) j
  = if decide (j = S i) then Some b
    else if decide (j = S (S i)) then Some a else pred_at ls j.
Proof.
  intros Hi Hj. destruct j as [|k].
  - destruct (decide (0%nat = S i)); [lia|].
    destruct (decide (0%nat = S (S i))); [lia|done].
  - unfold pred_at. rewrite (lookup_swapped _ _ _ _ _ Hi Hj).
    destruct (decide (k = i)) as [->|?].
    + by rewrite decide_True.
    + rewrite (decide_False (P := S k = S i)) by lia.
      destruct (decide (k = S i)) as [->|?].
      * by rewrite decide_True.
      * by rewrite decide_False by lia.
Qed.

Lemma swapped_Permutation ls i a b :
  ls !! i = Some a → ls !! S i = Some b →
  <[i := b]> (<[S i := a]> ls) ≡ₚ ls.
Proof. intros Hi Hj. by apply Permutation_insert_swap. Qed.

Lemma swap_adjacent_dll h q ls i a b :
  dll h q ls → ls !! i = Some a → ls !! S i = Some b →
  ∃ h' q', swap_nodes (Some a) (Some b) h q = Some (h', q')
    ∧ dll h' q' (<[i := b]> (<[S i := a]> ls))
    ∧ current q' = current q ∧ size q' = size q
    ∧ (∀ c, get_data h' c = get_data h c).
Proof.
  intros Hd Hi Hj. pose proof Hd as [Hnd Hh Ht Hl Hs Hcur].
  destruct (Hl _ _ Hi) as [da Ha]. destruct (Hl _ _ Hj) as [db Hb].
  rewrite Hj in Ha. simpl in Hb. rewrite Hi in Hb.
  eexists _, _. split; [by eapply swap_nodes_eq|].
  pose proof (lookup_lt_Some _ _ _ Hj) as Hlt.
  assert (∀ k c, ls !! k = Some c → k ≠ i → c ≠ a) as Hna.
  { intros k c Hk Hne ->. by pose proof (NoDup_lookup _ _ _ _ Hnd Hi Hk). }
  assert (∀ k c, ls !! k = Some c → k ≠ S i → c ≠ b) as Hnb.
  { intros k c Hk Hne ->. by pose proof (NoDup_lookup _ _ _ _ Hnd Hj Hk). }
  assert (a ≠ b) as Hab by (eapply Hnb; [done|lia]).
  split_and!; simpl; try done.
  - split; simpl.
    + by rewrite (swapped_Permutation _ _ _ _ Hi Hj).
    + rewrite (lookup_swapped _ _ _ _ _ Hi Hj).
      destruct (decide (i = 0%nat)) as [->|Hne].
      * rewrite (decide_True (P := pred_at ls 0 = None)) by done.
        by rewrite decide_True.
      * rewrite (decide_False (P := pred_at ls i = None)).
        2:{ destruct i as [|k]; [done|]. simpl.
            intros Hnone%lookup_ge_None_1. lia. }
        rewrite Hh. rewrite (decide_False (P := 0%nat = i)) by lia.
        by rewrite (decide_False (P := 0%nat = S i)) by lia.
    + rewrite last_lookup, !length_insert, (lookup_swapped _ _ _ _ _ Hi Hj).
      destruct (decide (ls !! S (S i) = None)) as [Hnone|Hsome].
      * apply lookup_ge_None_1 in Hnone.
        rewrite (decide_False (P := Nat.pred (length ls) = i)) by lia.
        by rewrite (decide_True (P := Nat.pred (length ls) = S i)) by lia.
      * assert (S (S i) < length ls)%nat.
        { apply lookup_lt_is_Some. by destruct (ls !! S (S i)). }
        rewrite (decide_False (P := Nat.pred (length ls) = i)) by lia.
        rewrite (decide_False (P := Nat.pred (length ls) = S i)) by lia.
        by rewrite Ht, last_lookup.
    + intros k c Hk. rewrite (lookup_swapped _ _ _ _ _ Hi Hj) in Hk.
      rewrite (lookup_swapped _ _ _ _ _ Hi Hj), (pred_at_swapped _ _ _ _ _ Hi Hj).
      destruct (decide (k = i)) as [->|Hki].
      { simplify_eq. exists db.
        rewrite lookup_insert_ne, lookup_insert_eq by done. by decide_arith. }
      destruct (decide (k = S i)) as [->|Hksi].
      { simplify_eq. exists da. rewrite lookup_insert_eq. by decide_arith. }
      destruct (Hl _ _ Hk) as [dc Hc].
      assert (c ≠ a) by (by eapply Hna).
      assert (c ≠ b) by (by eapply Hnb).
      rewrite !lookup_insert_ne, !lookup_alter_at by done.
      exists dc.
      destruct (decide (S k = i)) as [<-|Hpred].
      { (* the node before the pair *)
        rewrite (decide_False (P := ls !! S (S (S k)) = Some c)).
        2:{ intros Hc'. pose proof (NoDup_lookup _ _ _ _ Hnd Hk Hc'). lia. }
        simpl. rewrite (decide_True (P := ls !! k = Some c)) by done.
        rewrite Hc. simpl. by decide_arith. }
      rewrite (decide_False (P := pred_at ls i = Some c)).
      2:{ destruct i as [|i']; [done|]. simpl. intros Hc'.
          pose proof (NoDup_lookup _ _ _ _ Hnd Hk Hc'). lia. }
      destruct (decide (k = S (S i))) as [->|Hsucc].
      { (* the node after the pair *)
        rewrite (decide_True (P := ls !! S (S i) = Some c)) by done.
        rewrite Hc. simpl. by decide_arith. }
      rewrite (decide_False (P := ls !! S (S i) = Some c)).
      2:{ intros Hc'. pose proof (NoDup_lookup _ _ _ _ Hnd Hk Hc'). lia. }
      rewrite Hc. by decide_arith.
    + by rewrite !length_insert.
    + intros c Hc. apply Hcur in Hc.
      by rewrite (swapped_Permutation _ _ _ _ Hi Hj).
  - intros c. unfold get_data.
    destruct (decide (c = a)) as [->|Hca]; [by rewrite lookup_insert_eq, Ha|].
    rewrite lookup_insert_ne by done.
    destruct (decide (c = b)) as [->|Hcb]; [by rewrite lookup_insert_eq, Hb|].
    rewrite lookup_insert_ne, !lookup_alter_at by done.
    repeat case_decide; by destruct (h !! c).
Qed.

End swap_dll_facts.

(** ** [shuffle] *)

Section shuffle_facts.
Import DoublyLinkedList.
Implicit Types (h : heap) (q : DoublyLinkedList) (ls : list loc) (a b : loc).

Lemma swap_items_perm i j ls :
  (i < length ls)%nat → (j ≤ i)%nat →
  ∃ ls', swap_items i j ls = Some ls' ∧ ls' ≡ₚ ls ∧ length ls' = length ls.
Proof.
  intros Hi Hj. unfold swap_items.
  destruct (lookup_lt_is_Some_2 ls j) as [x Hx]; [lia|].
  destruct (lookup_lt_is_Some_2 ls i) as [y Hy]; [lia|].
  rewrite Hx, Hy. simpl. eexists. split; [done|]. split.
  - by apply Permutation_insert_swap.
  - by rewrite !length_insert.
Qed.

Lemma fisher_yates_perm rand i ls :
  randint_ok rand → (i < length ls ∨ i = 0)%nat →
  ∃ ls', fisher_yates rand i ls = Some ls' ∧ ls' ≡ₚ ls.
Proof.
  intros Hr. revert ls. induction i as [|i IH]; intros ls Hi.
  - by exists ls.
  - destruct (swap_items_perm (S i) (rand (S i)) ls) as (ls1 & Heq & Hp & Hlen);
      [lia|apply Hr|].
    destruct (IH ls1) as (ls' & Heq' & Hp'); [lia|].
    exists ls'. simpl. rewrite Heq. simpl. split; [done|]. by rewrite Hp'.
Qed.

Lemma relink_step_eq ls h k c n :
  ls !! k = Some c → h !! c = Some n →
  relink_step ls h k = Some (<[c := relinked ls k n]> h).
Proof.
  intros Hk Hc. pose proof (lookup_lt_Some _ _ _ Hk) as Hlt.
  unfold relink_step, relinked. rewrite Nat.add_1_r, Hk. simpl.
  destruct (decide (0 < k)%nat) as [Hpos|Hpos].
  - destruct k as [|k']; [lia|]. simpl. rewrite Nat.sub_0_r.
    destruct (lookup_lt_is_Some_2 ls k') as [p Hp]; [lia|].
    rewrite Hp. simpl. unfold set_prev. rewrite Hc. simpl.
    destruct (decide (S k' < length ls - 1)%nat) as [Hnl|Hnl].
    + destruct (lookup_lt_is_Some_2 ls (S (S k'))) as [x Hx]; [lia|].
      rewrite Hx. simpl. unfold set_next. rewrite lookup_insert_eq. simpl.
      by rewrite insert_insert_eq.
    + done.
  - simpl. destruct (decide (k < length ls - 1)%nat) as [Hnl|Hnl].
    + destruct (lookup_lt_is_Some_2 ls (S k)) as [x Hx]; [lia|].
      rewrite Hx. simpl. unfold set_next. by rewrite Hc.
    + f_equal. destruct n. simpl. by rewrite insert_id.
Qed.

Lemma relink_prefix ls h0 k :
  NoDup ls → (∀ j c, ls !! j = Some c → is_Some (h0 !! c)) →
  (k ≤ length ls)%nat →
  ∃ hk, foldl (λ acc k, h ← acc; relink_step ls h k) (Some h0) (seq 0 k) = Some hk
    ∧ (∀ c, c ∉ ls → hk !! c = h0 !! c)
    ∧ (∀ j c, ls !! j = Some c →
         ∃ n0, h0 !! c = Some n0
           ∧ hk !! c = Some (if decide (j < k)%nat then relinked ls j n0 else n0)).
Proof.
  intros Hnd Hdom. induction k as [|k IH]; intros Hk.
  - exists h0. split; [done|]. split; [done|].
    intros j c Hj. destruct (Hdom _ _ Hj) as [n0 Hn0]. exists n0.
    split; [done|]. by rewrite decide_False by lia.
  - destruct IH as (hk & Heq & Hout & Hin); [lia|].
    destruct (lookup_lt_is_Some_2 ls k) as [c Hc]; [lia|].
    destruct (Hin _ _ Hc) as (n0 & Hn0 & Hkc).
    rewrite decide_False in Hkc by lia.
    exists (<[c := relinked ls k n0]> hk).
    rewrite seq_S, foldl_app. simpl. rewrite Heq. simpl.
    split; [by apply relink_step_eq|]. split.
    + intros c' Hc'. rewrite lookup_insert_ne; [by apply Hout|].
      intros ->. apply Hc'. by eapply list_elem_of_lookup_2.
    + intros j c' Hj. destruct (Hin _ _ Hj) as (n0' & Hn0' & Hjc).
      exists n0'. split; [done|].
      destruct (decide (j = k)) as [->|Hne].
      * simplify_eq. rewrite lookup_insert_eq. by rewrite decide_True by lia.
      * rewrite lookup_insert_ne.
        2:{ intros ->. by pose proof (NoDup_lookup _ _ _ _ Hnd Hj Hc). }
        rewrite Hjc. destruct (decide (j < k)%nat), (decide (j < S k)%nat); (done || lia).
Qed.


Lemma shuffle_dll rand h q ls :
  randint_ok rand → dll h q ls →
  ∃ h' q' ls', shuffle rand h q = Some (h', q')
    ∧ dll h' q' ls' ∧ ls' ≡ₚ ls
    ∧ current q' = current q ∧ size q' = size q
    ∧ (∀ c, get_data h' c = get_data h c).
Proof.
  intros Hr Hd. pose proof Hd as [Hnd Hh Ht Hl Hs Hcur].
  unfold shuffle. destruct (decide (size q < 2)) as [Hsmall|Hbig].
  { by exists h, q, ls. }
  pose proof (dll_chain_of _ _ _ Hd) as Hc. unfold chain_of in Hc.
  rewrite Hc. simpl.
  destruct (fisher_yates_perm rand (length ls - 1) ls Hr) as (ls' & Hfy & Hp);
    [lia|].
  rewrite Hfy. simpl.
  pose proof (Permutation_length Hp) as Hlen.
  assert (NoDup ls') as Hnd' by (by rewrite Hp).
  assert (∀ j c, ls' !! j = Some c → is_Some (h !! c)) as Hdom.
  { intros j c Hj. apply list_elem_of_lookup_2 in Hj. rewrite Hp in Hj.
    apply list_elem_of_lookup in Hj as [k Hk]. by eapply linked_succ. }
  destruct (lookup_lt_is_Some_2 ls' 0) as [hd Hhd]; [lia|].
  destruct (lookup_lt_is_Some_2 ls' (Nat.pred (length ls'))) as [tl Htl]; [lia|].
  rewrite Hhd, last_lookup, Htl. simpl.
  destruct (Hdom _ _ Hhd) as [nh Hnh].
  rewrite (set_prev_alter _ _ _ _ Hnh). simpl.
  set (h1 := alter (with_prev None) hd h).
  assert (∀ c, is_Some (h !! c) → is_Some (h1 !! c)) as Hdom1.
  { intros c [n Hn]. unfold h1. rewrite lookup_alter, Hn.
    destruct (decide (hd = c)) as [->|]; [rewrite Hn|]; by eexists. }
  destruct (Hdom1 tl (Hdom _ _ Htl)) as [nt Hnt].
  rewrite (set_next_alter _ _ _ _ Hnt). simpl.
  set (h0 := alter (with_next None) tl h1).
  assert (∀ c, is_Some (h !! c) → is_Some (h0 !! c)) as Hdom0.
  { intros c Hsome. destruct (Hdom1 c Hsome) as [n Hn].
    unfold h0. rewrite lookup_alter.
    destruct (decide (tl = c)) as [->|]; rewrite Hn; by eexists. }
  assert (∀ c, get_data h0 c = get_data h c) as Hdata0.
  { intros c. unfold get_data, h0, h1. rewrite !lookup_alter.
    repeat case_decide; subst;
      match goal with |- context [h !! ?x] => by destruct (h !! x) end. }
  destruct (relink_prefix ls' h0 (length ls') Hnd') as (h' & Hrel & Hout & Hin);
    [eauto|lia|].
  unfold relink. rewrite Hrel. simpl.
  exists h', (set_tail (Some tl) (set_head (Some hd) q)), ls'.
  split; [done|]. split_and!; try done.
  - split; simpl; try done.
    + by rewrite last_lookup.
    + intros j c Hj. destruct (Hin _ _ Hj) as (n0 & Hn0 & Hjc).
      pose proof (lookup_lt_Some _ _ _ Hj) as Hlt.
      rewrite decide_True in Hjc by done. exists (data n0).
      rewrite Hjc. unfold relinked. f_equal. f_equal.
      * case_decide as Hj1; [done|].
        assert (j = Nat.pred (length ls')) as -> by lia.
        assert (c = tl) as -> by congruence.
        rewrite (lookup_ge_None_2 ls') by lia.
        unfold h0 in Hn0. rewrite lookup_alter_eq, Hnt in Hn0.
        by simplify_eq/=.
      * case_decide as Hj0; [done|].
        assert (j = 0%nat) as -> by lia.
        assert (c = hd) as -> by congruence. simpl.
        assert (tl ≠ hd) as Hne.
        { intros ->. pose proof (NoDup_lookup _ _ _ _ Hnd' Hhd Htl). lia. }
        unfold h0, h1 in Hn0.
        rewrite lookup_alter_ne, lookup_alter_eq, Hnh in Hn0 by done.
        by simplify_eq/=.
    + lia.
    + intros c Hcin. rewrite Hp. by apply Hcur.
  - intros c. rewrite <- Hdata0. unfold get_data.
    destruct (decide (c ∈ ls')) as [[j Hj]%list_elem_of_lookup|Hnin].
    + destruct (Hin _ _ Hj) as (n0 & Hn0 & Hjc).
      pose proof (lookup_lt_Some _ _ _ Hj) as Hlt.
      rewrite decide_True in Hjc by done. by rewrite Hjc, Hn0.
    + by rewrite Hout.
Qed.

Lemma shuffle_small rand h q : size q < 2 → shuffle rand h q = Some (h, q).
Proof. intros Hs. unfold shuffle. by rewrite decide_True. Qed.

End shuffle_facts.

(** ** The queue operations and the invariants *)

Section queue_props.
Import DoublyLinkedList.
Implicit Types (h : heap) (q : DoublyLinkedList) (ls : list loc) (a b : loc).

Lemma dll_holds h q ls : dll h q ls → ∃ ds, holds h ls ds.
Proof.
  intros Hd. apply Forall_exists_Forall2_l, Forall_forall.
  intros a [i Hi]%list_elem_of_lookup.
  destruct (dll_linked _ _ _ Hd _ _ Hi) as [d Ha]. exists d.
  unfold get_data. by rewrite Ha.
Qed.

Lemma dll_clear h q : dll h (clear q) [].
Proof. apply dll_init. Qed.

Lemma swap_nodes_dll h q ls (node1 node2 : option loc) :
  dll h q ls → (∀ a, node1 = Some a → a ∈ ls) →
  ∃ h' q' ls', swap_nodes node1 node2 h q = Some (h', q')
    ∧ dll h' q' ls' ∧ ls' ≡ₚ ls
    ∧ current q' = current q ∧ size q' = size q
    ∧ (∀ c, get_data h' c = get_data h c).
Proof.
  intros Hd Hin. destruct node1 as [a|]; [|by exists h, q, ls].
  destruct node2 as [b|]; [|by exists h, q, ls].
  pose proof (Hin a eq_refl) as Ha. apply list_elem_of_lookup in Ha as [i Hi].
  destruct (decide (ls !! S i = Some b)) as [Hj|Hj].
  - destruct (swap_adjacent_dll _ _ _ _ _ _ Hd Hi Hj)
      as (h' & q' & Heq & Hd' & Hc & Hs & Hdata).
    exists h', q', (<[i := b]> (<[S i := a]> ls)).
    split_and!; try done. by apply swapped_Permutation.
  - exists h, q, ls. split_and!; try done.
    unfold swap_nodes.
    rewrite (linked_get_next _ _ _ _ (dll_linked _ _ _ Hd) Hi). simpl.
    by rewrite decide_True.
Qed.

(** C4: every mutating operation of the queue keeps the structure a valid
    doubly linked chain: [append], [clear], [remove_node] of a node of the
    queue, [swap_nodes] (whether or not the two nodes are adjacent) and
    [shuffle] all return, and the resulting queue again satisfies the
    invariant [dll], hence the listed ones: [head.prev] and [tail.next] are
    [None], [next] and [prev] mirror each other along the chain, [size] is
    the number of nodes reached from [head], and [current] is [None] or one
    of them. *)
Theorem C4_invariants_preserved h q ls :
  dll h q ls →
  structural_invariants h q
  ∧ (∀ d, ∃ h' q' ls', append d h q = Some (h', q')
       ∧ dll h' q' ls' ∧ structural_invariants h' q')
  ∧ (dll h (clear q) [] ∧ structural_invariants h (clear q))
  ∧ (∀ a, a ∈ ls → ∃ h' q' ls', remove_node (Some a) h q = Some (h', q')
       ∧ dll h' q' ls' ∧ structural_invariants h' q')
  ∧ (∀ node1 node2, (∀ a, node1 = Some a → a ∈ ls) →
       ∃ h' q' ls', swap_nodes node1 node2 h q = Some (h', q')
       ∧ dll h' q' ls' ∧ structural_invariants h' q')
  ∧ (∀ rand, randint_ok rand →
       ∃ h' q' ls', shuffle rand h q = Some (h', q')
       ∧ dll h' q' ls' ∧ structural_invariants h' q').
Proof.
  intros Hd. split_and!.
  - by eapply dll_structural.
  - intros d. destruct (append_dll d _ _ _ Hd) as (h' & q' & Heq & Hd' & _).
    exists h', q', (ls ++ [fresh (dom h)]).
    do 2 (split; [done|]). by eapply dll_structural.
  - apply dll_clear.
  - eapply dll_structural, dll_clear.
  - intros a [i Hi]%list_elem_of_lookup.
    destruct (remove_node_dll _ _ _ _ _ Hd Hi) as (h' & q' & d & Heq & Hd' & _).
    exists h', q', (delete i ls).
    do 2 (split; [done|]). by eapply dll_structural.
  - intros node1 node2 Hin.
    destruct (swap_nodes_dll _ _ _ node1 node2 Hd Hin)
      as (h' & q' & ls' & Heq & Hd' & _).
    exists h', q', ls'. do 2 (split; [done|]). by eapply dll_structural.
  - intros rand Hr.
    destruct (shuffle_dll rand _ _ _ Hr Hd) as (h' & q' & ls' & Heq & Hd' & _).
    exists h', q', ls'. do 2 (split; [done|]). by eapply dll_structural.
Qed.

Lemma C4_invariants_preserved_witness :
  structural_invariants heap_ABC queue_ABC
  ∧ ∃ h' q' ls',
      swap_nodes (Some 1%positive) (Some 2%positive) heap_ABC queue_ABC
      = Some (h', q')
      ∧ dll h' q' ls' ∧ structural_invariants h' q'.
Proof.
  destruct (C4_invariants_preserved heap_ABC queue_ABC
              [1%positive; 2%positive; 3%positive])
    as (Hinv & _ & _ & _ & Hswap & _).
  - apply dllb_sound. vm_compute. reflexivity.
  - split; [exact Hinv|].
    apply Hswap. intros a Ha. injection Ha as <-.
    apply list_elem_of_here.
Defined.

(** C3: [shuffle] permutes the nodes of the queue: the chain after it is a
    permutation of the chain before and is again a valid doubly linked
    list, the songs met from head to tail are a permutation of those met
    before, [size] and [current] are unchanged and the node [current]
    refers to still holds the same song; when [size < 2] nothing
    changes. *)
Theorem C3_shuffle_permutes rand h q ls :
  randint_ok rand → dll h q ls →
  ∃ h' q' ls' ds ds',
    shuffle rand h q = Some (h', q')
    ∧ dll h' q' ls' ∧ structural_invariants h' q'
    ∧ ls' ≡ₚ ls
    ∧ songs_of h q = Some ds ∧ songs_of h' q' = Some ds' ∧ ds' ≡ₚ ds
    ∧ size q' = size q
    ∧ current q' = current q
    ∧ (∀ c, get_data h' c = get_data h c)
    ∧ (size q < 2 → h' = h ∧ q' = q).
Proof.
  intros Hr Hd.
  destruct (shuffle_dll rand _ _ _ Hr Hd)
    as (h' & q' & ls' & Heq & Hd' & Hp & Hc & Hs & Hdata).
  destruct (dll_holds _ _ _ Hd) as [ds Hds].
  assert (ls ≡ₚ ls') as Hp0 by done.
  destruct (Permutation_Forall2 Hp0 Hds) as (ds' & Hp' & Hds').
  exists h', q', ls', ds, ds'. split_and!; try done.
  - by eapply dll_structural.
  - by eapply dll_songs_of.
  - eapply dll_songs_of; [done|]. eapply holds_ext; [|done].
    intros a _. apply Hdata.
  - intros Hsmall. rewrite (shuffle_small _ _ _ Hsmall) in Heq. by simplify_eq.
Qed.

Lemma C3_shuffle_permutes_witness :
  ∃ h' q' ls' ds',
    shuffle (λ _, 0%nat) heap_ABC queue_ABC = Some (h', q')
    ∧ dll h' q' ls'
    ∧ songs_of h' q' = Some ds' ∧ ds' ≡ₚ [song_A; song_B; song_C]
    ∧ current q' = Some 2%positive.
Proof.
  destruct (C3_shuffle_permutes (λ _, 0%nat) heap_ABC queue_ABC
              [1%positive; 2%positive; 3%positive])
    as (h' & q' & ls' & ds & ds' & Heq & Hd & _ & _ & Hs & Hs' & Hp & _ & Hc & _).
  - intros i. lia.
  - apply dllb_sound. vm_compute. reflexivity.
  - exists h', q', ls', ds'. split; [exact Heq|]. split; [exact Hd|].
    split; [exact Hs'|]. vm_compute in Hs. injection Hs as <-.
    split; [exact Hp|exact Hc].
Defined.

End queue_props.

(** ** The playback controller *)

Section controller_props.
Import DoublyLinkedList HarmoniaApp.
Context {M : Type} `{AudioBackend M}.
Implicit Types (a : HarmoniaApp M) (ls : list loc).

(** C10: with no current node, [play_next] changes nothing at all (no
    push, no change of [current] or of the playing flag); and with an
    empty history, [play_prev] changes nothing when there is no current
    node or the current node has no node before it. *)
Theorem C10_no_current_no_effect a b depth :
  current (queue a) = None →
  Stack.is_empty (history b) = true →
  (current (queue b) = None
   ∨ ∃ c, current (queue b) = Some c ∧ get_prev (nodes b) c = Some None) →
  play_next depth a = Some a ∧ play_prev depth b = Some b.
Proof.
  intros Ha Hb Hc. split.
  - destruct depth; simpl; unfold play_next_body; by rewrite Ha.
  - unfold play_prev. rewrite Hb. simpl.
    destruct Hc as [Hc|(c & Hc & Hp)]; rewrite Hc; [done|].
    by rewrite Hp.
Qed.

End controller_props.

Lemma C10_no_current_no_effect_witness :
  HarmoniaApp.play_next 0 (app_fresh [song_A]) = Some (app_fresh [song_A])
  ∧ HarmoniaApp.play_prev 0 (app_ABC (Some 1%positive) true false mixer_playing)
    = Some (app_ABC (Some 1%positive) true false mixer_playing).
Proof.
  apply (C10_no_current_no_effect (app_fresh [song_A])
           (app_ABC (Some 1%positive) true false mixer_playing) 0).
  - reflexivity.
  - reflexivity.
  - right. exists 1%positive. split; reflexivity.
Defined.

Section toggle_play_props.
Import DoublyLinkedList HarmoniaApp.
Context {M : Type} `{AudioBackend M}.
Implicit Types (a : HarmoniaApp M) (ls : list loc).

Lemma dll_nil_current h q : dll h q [] → current q = None.
Proof.
  intros Hd. destruct (current q) as [c|] eqn:Hc; [|done].
  by apply (dll_current _ _ _ Hd), elem_of_nil in Hc.
Qed.

(** C8, as the code has it: when the queue is empty, the controller is
    Stopped and there is nothing to start from (the current view is empty,
    or the audio backend is missing), [toggle_play] returns without
    raising and changes nothing: the controller remains Stopped and
    [current] stays [None].  (With a non-empty view it starts the first
    song of the view instead.) *)
Theorem C8_toggle_play_empty a rand depth sel :
  dll (nodes a) (queue a) [] → controller_state a = Stopped →
  (current_view_songs a = [] ∨ HAS_DEPS a = false) →
  ∃ a', toggle_play rand depth sel a = Some a'
    ∧ a' = a
    ∧ controller_state a' = Stopped
    ∧ current (queue a') = None.
Proof.
  intros Hd Hs Hv. pose proof (dll_nil_current _ _ Hd) as Hc.
  exists a. split_and!; try done.
  unfold toggle_play. destruct (HAS_DEPS a) eqn:Hdeps; [|done]. simpl.
  destruct Hv as [Hv|Hv]; [|done].
  rewrite Hv, Hc. simpl.
  assert (is_playing a = false) as Hp.
  { unfold controller_state in Hs. by destruct (is_playing a). }
  rewrite Hp. by destruct sel.
Qed.

End toggle_play_props.

Lemma C8_toggle_play_empty_witness :
  ∃ a', HarmoniaApp.toggle_play (λ _, 0%nat) 0 None (app_fresh []) = Some a'
    ∧ a' = app_fresh []
    ∧ HarmoniaApp.controller_state a' = HarmoniaApp.Stopped
    ∧ DoublyLinkedList.current (HarmoniaApp.queue a') = None.
Proof.
  apply (C8_toggle_play_empty (app_fresh []) (λ _, 0%nat) 0 None).
  - apply dllb_sound. vm_compute. reflexivity.
  - reflexivity.
  - left. reflexivity.
Defined.

(** C8 as stated fails: right after start-up the queue is empty and the
    controller Stopped, and with a song in the view [toggle_play] builds the
    queue from the view and plays its first song. *)
Lemma C8_counterexample :
  dll (HarmoniaApp.nodes (app_fresh [song_A]))
      (HarmoniaApp.queue (app_fresh [song_A])) []
  ∧ HarmoniaApp.controller_state (app_fresh [song_A]) = HarmoniaApp.Stopped
  ∧ ∃ a', HarmoniaApp.toggle_play (λ _, 0%nat) 0 None (app_fresh [song_A])
          = Some a'
      ∧ HarmoniaApp.controller_state a' = HarmoniaApp.Playing
      ∧ DoublyLinkedList.current (HarmoniaApp.queue a') = Some 1%positive.
Proof.
  split; [apply dllb_sound; vm_compute; reflexivity|].
  split; [reflexivity|].
  eexists. split; [vm_compute; reflexivity|]. split; reflexivity.
Qed.

Section remove_ui_props.
Import DoublyLinkedList HarmoniaApp.
Context {M : Type} `{AudioBackend M}.
Implicit Types (a : HarmoniaApp M) (ls : list loc).

Lemma walk_linked h ls j k :
  linked h ls → (j + k ≤ length ls)%nat →
  walk k h (ls !! j) = Some (ls !! (j + k)%nat).
Proof.
  intros Hl. revert j. induction k as [|k IH]; intros j Hjk.
  - simpl. by rewrite Nat.add_0_r.
  - destruct (lookup_lt_is_Some_2 ls j) as [c Hc]; [lia|].
    simpl. rewrite Hc. simpl. rewrite (linked_get_next _ _ _ _ Hl Hc). simpl.
    rewrite IH by lia. f_equal. f_equal. lia.
Qed.

Lemma get_node_at_index_dll h q ls i c :
  dll h q ls → ls !! i = Some c →
  get_node_at_index (Z.of_nat i) h q = Some (Some c).
Proof.
  intros Hd Hi. pose proof (lookup_lt_Some _ _ _ Hi) as Hlt.
  unfold get_node_at_index. rewrite (dll_size _ _ _ Hd).
  rewrite decide_False by lia. rewrite Nat2Z.id, (dll_head _ _ _ Hd).
  rewrite (walk_linked _ _ 0 i (dll_linked _ _ _ Hd)) by lia. simpl.
  by rewrite Hi.
Qed.

Local Arguments remove_node : simpl never.
Local Arguments songs_of : simpl never.

(** C9, as the code has it: removing the current node through
    [remove_from_queue_ui] reassigns the queue's [current] by the rule of
    [remove_node] (the former [next], or else the former [prev]).  When
    the controller is Playing (which it only is with the audio library
    present) it also calls [stop()] on the backend, resets the now-playing
    labels and clears the playing flag; the program tells Stopped from
    Paused by the backend's playback position only, so the controller is
    then Stopped when the backend reports no position after [stop()] and
    Paused when it still reports one.  When the controller is not Playing
    (the code does the above under [if self.is_playing]), the backend, the
    labels and the controller state are left as they are. *)
Theorem C9_remove_current a ls i c :
  dll (nodes a) (queue a) ls → ls !! i = Some c →
  current (queue a) = Some c →
  (is_playing a = true → HAS_DEPS a = true) →
  ∃ a', remove_from_queue_ui (Z.of_nat i) a = Some a'
    ∧ dll (nodes a') (queue a') (delete i ls)
    ∧ (∃ nx pv, get_next (nodes a) c = Some nx
         ∧ get_prev (nodes a) c = Some pv
         ∧ current (queue a') = match nx with Some x => Some x | None => pv end)
    ∧ current (queue a') ≠ Some c
    ∧ (is_playing a = true →
       mixer a' = music_stop (mixer a)
       ∧ lbl_now_title a' = "Not Playing"
       ∧ lbl_now_artist a' = ""
       ∧ lbl_total_time a' = "0:00"
       ∧ is_playing a' = false
       ∧ btn_play a' = glyph_play
       ∧ controller_state a'
         = (if is_paused (music_stop (mixer a)) then Paused else Stopped)
       ∧ (music_get_pos (music_stop (mixer a)) = Some (-1) →
          controller_state a' = Stopped))
    ∧ (is_playing a = false →
       mixer a' = mixer a
       ∧ lbl_now_title a' = lbl_now_title a
       ∧ lbl_now_artist a' = lbl_now_artist a
       ∧ lbl_total_time a' = lbl_total_time a
       ∧ controller_state a' = controller_state a).
Proof.
  intros Hd Hi Hc Hdeps.
  destruct (remove_node_dll _ _ _ _ _ Hd Hi)
    as (h' & q' & d & Heq & Hd' & Hcur & Hsz & Ha & Hdata).
  rewrite decide_True in Hcur by done.
  destruct (dll_holds _ _ _ Hd') as [ds Hds].
  pose proof (dll_songs_of _ _ _ _ Hd' Hds) as Hsongs.
  assert (c ∉ delete i ls) as Hnotin.
  { intros [j Hj]%list_elem_of_lookup. rewrite lookup_delete_shift in Hj.
    pose proof (NoDup_lookup _ _ _ _ (dll_nodup _ _ _ Hd) Hi Hj) as Hij.
    case_decide; lia. }
  assert (current q' ≠ Some c) as Hne.
  { intros Hc'. apply Hnotin. by eapply dll_current. }
  unfold remove_from_queue_ui.
  rewrite (get_node_at_index_dll _ _ _ _ _ Hd Hi). simpl.
  rewrite Heq. simpl. rewrite Hc, bool_decide_eq_true_2 by done. simpl.
  destruct (is_playing a) eqn:Hp; unfold pygame; simpl;
    rewrite ?(Hdeps eq_refl); simpl;
    unfold show_queue; simpl; rewrite Hsongs; simpl;
    (eexists; split; [reflexivity|]); simpl.
  - split; [done|]. split.
    { exists (ls !! S i), (pred_at ls i). split_and!; [| |done].
      - by eapply linked_get_next; [apply Hd|].
      - by eapply linked_get_prev; [apply Hd|]. }
    split; [done|]. split; [|intros ?; discriminate].
    intros _. split_and!; try done.
    intros Hpos. unfold controller_state, is_paused. simpl. by rewrite Hpos.
  - split; [done|]. split.
    { exists (ls !! S i), (pred_at ls i). split_and!; [| |done].
      - by eapply linked_get_next; [apply Hd|].
      - by eapply linked_get_prev; [apply Hd|]. }
    split; [done|]. split; [intros ?; discriminate|].
    intros _. by split_and!.
Qed.

End remove_ui_props.

Lemma C9_remove_current_witness :
  ∃ a', HarmoniaApp.remove_from_queue_ui 1
          (app_ABC (Some 2%positive) true false mixer_playing) = Some a'
    ∧ DoublyLinkedList.current (HarmoniaApp.queue a') = Some 3%positive
    ∧ HarmoniaApp.mixer a' = music_stop mixer_playing
    ∧ HarmoniaApp.lbl_now_title a' = "Not Playing"
    ∧ HarmoniaApp.is_playing a' = false
    ∧ HarmoniaApp.controller_state a' = HarmoniaApp.Stopped.
Proof.
  destruct (C9_remove_current (app_ABC (Some 2%positive) true false mixer_playing)
              [1%positive; 2%positive; 3%positive] 1 2%positive)
    as (a' & Heq & _ & (nx & pv & Hnx & _ & Hcur) & _ & Hplay & _).
  - apply dllb_sound. vm_compute. reflexivity.
  - reflexivity.
  - reflexivity.
  - reflexivity.
  - destruct (Hplay eq_refl) as (Hm & Ht & _ & _ & Hp & _ & _ & Hs).
    vm_compute in Hnx. injection Hnx as <-.
    exists a'. split; [exact Heq|]. split; [exact Hcur|].
    split; [exact Hm|]. split; [exact Ht|]. split; [exact Hp|].
    apply Hs. reflexivity.
Defined.

(** C9 as stated fails for a paused controller: the current node is
    removed, but the backend is not stopped, the now-playing labels keep the
    removed song, and the controller stays Paused. *)
Lemma C9_counterexample :
  HarmoniaApp.controller_state (app_ABC (Some 2%positive) false false mixer_paused)
  = HarmoniaApp.Paused
  ∧ ∃ a', HarmoniaApp.remove_from_queue_ui 1
            (app_ABC (Some 2%positive) false false mixer_paused) = Some a'
      ∧ HarmoniaApp.mixer a' = mixer_paused
      ∧ HarmoniaApp.lbl_now_title a' = "B"
      ∧ HarmoniaApp.controller_state a' = HarmoniaApp.Paused.
Proof.
  split; [reflexivity|].
  eexists. split; [vm_compute; reflexivity|]. split_and!; reflexivity.
Qed.

Section shuffle_round_trip.
Import DoublyLinkedList HarmoniaApp.
Context {M : Type} `{AudioBackend M}.
Implicit Types (a : HarmoniaApp M) (ls : list loc) (h : heap)
  (q : DoublyLinkedList).

Lemma dll_set_current h q ls (v : option loc) :
  dll h q ls → (∀ c, v = Some c → c ∈ ls) → dll h (set_current v q) ls.
Proof. intros [? ? ? ? ? ?] Hv. by split. Qed.

Lemma holds_elem h ls ds c d :
  holds h ls ds → c ∈ ls → get_data h c = Some d → d ∈ ds.
Proof.
  intros Hds [i Hi]%list_elem_of_lookup Hd.
  destruct (Forall2_lookup_l _ _ _ _ _ Hds Hi) as (d' & Hi' & Hd').
  simpl in Hd'. rewrite Hd in Hd'. simplify_eq.
  by eapply list_elem_of_lookup_2.
Qed.

Lemma load_context_dll wanted view h q ls ds node :
  dll h q ls → holds h ls ds →
  (∀ c, node = Some c →
     c ∈ ls ∧ ∃ d, get_data h c = Some d ∧ wanted d = true) →
  (node = None → ∀ d, d ∈ ds → wanted d = false) →
  ∃ h' q' ls' node',
    load_context wanted view h q node = Some (h', q', node')
    ∧ dll h' q' (ls ++ ls') ∧ holds h' (ls ++ ls') (ds ++ view)
    ∧ current q' = match ls with
                   | [] => (ls ++ ls') !! 0%nat
                   | _ => current q
                   end
    ∧ (∀ c, node' = Some c →
         c ∈ ls ++ ls' ∧ ∃ d, get_data h' c = Some d ∧ wanted d = true)
    ∧ (node' = None → ∀ d, d ∈ ds ++ view → wanted d = false).
Proof.
  revert h q ls ds node.
  induction view as [|s view IH]; intros h q ls ds node Hd Hds Hsome Hnone.
  - exists h, q, [], node. rewrite !app_nil_r. split_and!; try done.
    destruct ls; [|done]. simpl. by apply dll_nil_current in Hd.
  - destruct (append_dll s _ _ _ Hd)
      as (h1 & q1 & Heq & Hd1 & Hfr & Hnew & Hold & Hcur1 & _ & Htl).
    pose proof (holds_append _ _ _ _ _ _ _ Hd Hds Heq) as Hds1.
    set (a := fresh (dom h)) in *.
    assert (a ∉ ls) as Hnotin
      by (apply fresh_not_linked, (dll_linked _ _ _ Hd)).
    destruct (IH h1 q1 (ls ++ [a]) (ds ++ [s])
                (if wanted s then tail q1 else node) Hd1 Hds1)
      as (h' & q' & ls' & node' & Heq' & Hd' & Hds' & Hcur' & Hsome' & Hnone').
    { intros c Hc. destruct (wanted s) eqn:Hw.
      - rewrite Htl in Hc. simplify_eq. split; [|by eauto].
        apply elem_of_app. right. apply list_elem_of_here.
      - destruct (Hsome c Hc) as (Hin & d & Hdc & Hwd). split.
        + apply elem_of_app. by left.
        + exists d. split; [|done]. rewrite Hold; [done|]. by intros ->. }
    { destruct (wanted s) eqn:Hw; [by rewrite Htl|].
      intros Hn d [Hin|Hin]%elem_of_app; [by apply Hnone|].
      apply list_elem_of_singleton in Hin. by subst. }
    exists h', q', (a :: ls'), node'. simpl. rewrite Heq. simpl.
    rewrite <- !app_assoc in *. simpl in *. split_and!; try done.
    rewrite Hcur', Hcur1. destruct ls as [|x ls0]; [|done]. done.
Qed.

(** C5: take any state in which shuffle is on and the queue is valid and
    holds the songs of the current view in some order (what a queue built
    from the view is after [shuffle], whatever numbers were drawn).
    Switching shuffle off rebuilds the queue from the view: its
    head-to-tail songs are the songs of the view in the view's order, and
    if [current] referred to a node, it afterwards refers to a node that
    holds the same song (which is a song of the view); with no current
    node, [current] is [None] afterwards.  In particular, if the state came
    from switching shuffle on for a queue that held the view in order, the
    songs are again those of that queue, in its order.  (The nodes are new
    objects: the order is restored as a sequence of songs.) *)
Theorem C5_unshuffle_restores a ls ds rand' :
  is_shuffled a = true →
  dll (nodes a) (queue a) ls →
  holds (nodes a) ls ds →
  ds ≡ₚ current_view_songs a →
  ∃ a2 ls2,
    toggle_shuffle rand' a = Some a2 ∧ is_shuffled a2 = false
    ∧ current_view_songs a2 = current_view_songs a
    ∧ dll (nodes a2) (queue a2) ls2
    ∧ songs_of (nodes a2) (queue a2) = Some (current_view_songs a)
    ∧ (∀ c d, current (queue a) = Some c → get_data (nodes a) c = Some d →
         d ∈ current_view_songs a
         ∧ ∃ c', current (queue a2) = Some c'
             ∧ get_data (nodes a2) c' = Some d)
    ∧ (current (queue a) = None → current (queue a2) = None)
    ∧ (∀ a0 ls0 rand,
         is_shuffled a0 = false →
         dll (nodes a0) (queue a0) ls0 →
         holds (nodes a0) ls0 (current_view_songs a0) →
         randint_ok rand →
         toggle_shuffle rand a0 = Some a →
         songs_of (nodes a2) (queue a2) = songs_of (nodes a0) (queue a0)
         ∧ ∀ c d, current (queue a0) = Some c →
             get_data (nodes a0) c = Some d →
             ∃ c', current (queue a2) = Some c'
               ∧ get_data (nodes a2) c' = Some d).
Proof.
  intros Hsh Hd Hds Hperm.
  (* the song under the cursor *)
  assert (∃ current_data,
            match current (queue a) with
            | Some c => get_data (nodes a) c ≫= λ d, Some (Some d)
            | None => Some None
            end = Some current_data
            ∧ (∀ c, current (queue a) = Some c →
                 get_data (nodes a) c = current_data)
            ∧ (current (queue a) = None → current_data = None))
    as (current_data & Hcd & Hcd_some & Hcd_none).
  { destruct (current (queue a)) as [c|] eqn:Hc; [|by exists None].
    assert (c ∈ ls) as [i Hi]%list_elem_of_lookup by (by eapply dll_current).
    destruct (linked_get_data _ _ _ _ (dll_linked _ _ _ Hd) Hi) as [d Hdc].
    exists (Some d). rewrite Hdc. split; [done|]. split; [|done].
    intros c' ?. by simplify_eq. }
  destruct (load_context_dll (λ s, bool_decide (Some s = current_data))
              (current_view_songs a) (nodes a) (clear (queue a)) [] [] None
              (dll_clear _ _))
    as (h2 & q2 & ls2 & target & Heq2 & Hd2 & Hds2 & _ & Hsome & Hnone).
  { unfold holds. constructor. }
  { done. }
  { by intros _ d ?%elem_of_nil. }
  simpl in Hd2, Hds2, Hsome, Hnone.
  set (a2 := set_queue (set_current target q2)
               (set_nodes h2 (set_is_shuffled false a))).
  assert (toggle_shuffle rand' a = Some a2) as Hoff.
  { unfold toggle_shuffle. rewrite Hsh. simpl. rewrite Hcd. simpl.
    by rewrite Heq2. }
  assert (dll h2 (set_current target q2) ls2) as Hd2'.
  { apply dll_set_current; [done|]. intros c Hc. by apply Hsome. }
  assert (songs_of (nodes a2) (queue a2) = Some (current_view_songs a))
    as Hsongs by (by eapply (dll_songs_of h2 (set_current target q2))).
  assert (∀ c d, current (queue a) = Some c → get_data (nodes a) c = Some d →
            d ∈ current_view_songs a
            ∧ ∃ c', current (queue a2) = Some c'
                ∧ get_data (nodes a2) c' = Some d) as Hcur.
  { intros c d Hc Hdc.
    assert (c ∈ ls) as Hin by (by eapply dll_current).
    assert (d ∈ current_view_songs a) as Hview.
    { rewrite <- Hperm. by eapply holds_elem. }
    split; [done|]. simpl.
    assert (current_data = Some d) as -> by (by rewrite <- (Hcd_some c)).
    destruct target as [c'|].
    + destruct (Hsome c' eq_refl) as (_ & d' & Hd' & Hw).
      apply bool_decide_eq_true in Hw. simplify_eq. eauto.
    + specialize (Hnone eq_refl d Hview).
      by rewrite bool_decide_eq_true_2 in Hnone. }
  exists a2, ls2. split_and!; try done.
  - intros Hc. simpl. rewrite (Hcd_none Hc) in Hsome.
    destruct target as [c'|]; [|done].
    destruct (Hsome c' eq_refl) as (_ & d' & _ & Hw).
    by apply bool_decide_eq_true in Hw.
  - intros a0 ls0 rand Hsh0 Hd0 Hds0 Hr Hon.
    destruct (shuffle_dll rand _ _ _ Hr Hd0)
      as (h1 & q1 & ls1 & Heq1 & _ & _ & Hc1 & _ & Hdata1).
    unfold toggle_shuffle in Hon. rewrite Hsh0 in Hon. simpl in Hon.
    rewrite Heq1 in Hon. simpl in Hon. injection Hon as Ha.
    assert (current_view_songs a = current_view_songs a0) as Hview
      by (by rewrite <- Ha).
    split.
    { rewrite Hsongs, Hview. symmetry. by eapply dll_songs_of. }
    intros c d Hc Hdc.
    destruct (Hcur c d) as [_ ?]; [| |done]; rewrite <- Ha; simpl.
    + by rewrite Hc1.
    + by rewrite Hdata1.
Qed.

End shuffle_round_trip.

Lemma C5_unshuffle_restores_witness :
  HarmoniaApp.toggle_shuffle (λ _, 0%nat)
    (app_ABC (Some 2%positive) false false mixer_idle)
  = Some (app_BCA (Some 2%positive))
  ∧ DoublyLinkedList.songs_of (HarmoniaApp.nodes (app_BCA (Some 2%positive)))
      (HarmoniaApp.queue (app_BCA (Some 2%positive)))
    = Some [song_B; song_C; song_A]
  ∧ ∃ a2,
      HarmoniaApp.toggle_shuffle (λ _, 0%nat) (app_BCA (Some 2%positive))
      = Some a2
      ∧ DoublyLinkedList.songs_of (HarmoniaApp.nodes a2) (HarmoniaApp.queue a2)
        = Some [song_A; song_B; song_C]
      ∧ ∃ c', DoublyLinkedList.current (HarmoniaApp.queue a2) = Some c'
          ∧ get_data (HarmoniaApp.nodes a2) c' = Some song_B.
Proof.
  split; [vm_compute; reflexivity|]. split; [vm_compute; reflexivity|].
  destruct (C5_unshuffle_restores (app_BCA (Some 2%positive))
              [2%positive; 3%positive; 1%positive]
              [song_B; song_C; song_A] (λ _, 0%nat))
    as (a2 & ls2 & Hoff & _ & _ & _ & Hsongs & Hcur & _).
  - reflexivity.
  - apply dllb_sound. vm_compute. reflexivity.
  - unfold holds. repeat constructor.
  - apply (bool_decide_unpack _). vm_compute. exact I.
  - exists a2. split; [exact Hoff|]. split; [exact Hsongs|].
    apply (Hcur 2%positive song_B); reflexivity.
Defined.

(** ** A run of the controller *)

(** The queue [A, B, C] with A playing: two calls of [play_next] lead to C
    with A and B on the history (B on top); [play_prev] then returns to B
    and leaves A on the history. *)
Example next_next_prev :
  ∃ a2 a3,
    (HarmoniaApp.play_next 0 (app_ABC (Some 1%positive) true false mixer_playing)
       ≫= HarmoniaApp.play_next 0) = Some a2
    ∧ DoublyLinkedList.current (HarmoniaApp.queue a2) = Some 3%positive
    ∧ Stack.items (HarmoniaApp.history a2) = [1%positive; 2%positive]
    ∧ HarmoniaApp.play_prev 0 a2 = Some a3
    ∧ DoublyLinkedList.current (HarmoniaApp.queue a3) = Some 2%positive
    ∧ Stack.items (HarmoniaApp.history a3) = [1%positive]
    ∧ HarmoniaApp.lbl_now_title a3 = "B"
    ∧ HarmoniaApp.lbl_total_time a3 = "3:00".
Proof.
  eexists _, _. split; [vm_compute; reflexivity|].
  split; [reflexivity|]. split; [reflexivity|].
  split; [vm_compute; reflexivity|].
  split_and!; reflexivity.
Qed.

(** * Further properties of the code *)

(** ** More on the history stack *)

Section stack_more.
Context {A : Type}.
Implicit Types (s : Stack.Stack A) (l : list A).

Lemma pushes_items l s : Stack.items (pushes l s) = Stack.items s ++ l.
Proof.
  revert s. induction l as [|x l IH]; intros s; simpl.
  - by rewrite app_nil_r.
  - unfold pushes in *. simpl. rewrite IH. simpl. by rewrite <- app_assoc.
Qed.

Lemma pushes_snoc l x s : pushes (l ++ [x]) s = Stack.push x (pushes l s).
Proof. unfold pushes. by rewrite foldl_app. Qed.

Lemma pops_empty n : pops n (@Stack.init A) = (replicate n None, Stack.init).
Proof. induction n as [|n IH]; [done|]. simpl. by rewrite IH. Qed.

Lemma pops_pushes l s : pops (length l) (pushes l s) = (Some <$> reverse l, s).
Proof.
  revert s. induction l as [|x l IH] using rev_ind; intros s; [done|].
  rewrite length_app, Nat.add_1_r, pushes_snoc. simpl.
  by rewrite pop_push, IH, reverse_snoc.
Qed.

(** X1: items pushed one after the other come back in reverse order:
    after pushing the items of [l], as many calls of [pop] return them last
    pushed first and leave the stack as it was before; further calls on the
    then empty stack return [None] and change nothing. *)
Theorem stack_pops_reverse l s (k : nat) :
  pops (length l) (pushes l s) = (Some <$> reverse l, s)
  ∧ pops (length l + k) (pushes l Stack.init)
    = ((Some <$> reverse l) ++ replicate k None, Stack.init).
Proof.
  split; [apply pops_pushes|].
  induction l as [|x l IH] using rev_ind.
  - simpl. apply pops_empty.
  - rewrite length_app, pushes_snoc. simpl.
    replace (length l + 1 + k)%nat with (S (length l + k)) by lia. simpl.
    rewrite pop_push, IH, reverse_snoc. done.
Qed.

End stack_more.

(** ** Positional access and search in the queue *)

Section access_props.
Import DoublyLinkedList.
Implicit Types (h : heap) (q : DoublyLinkedList) (ls : list loc).

(** What [get_node_at_index] returns for every index; used again for the
    queue view below. *)
Lemma get_node_at_index_spec h q ls (index : Z) :
  dll h q ls →
  get_node_at_index index h q
  = Some (if decide (0 ≤ index) then ls !! Z.to_nat index else None)
  ∧ (index < 0 ∨ size q ≤ index → get_node_at_index index h q = Some None).
Proof.
  intros Hd. pose proof (dll_size _ _ _ Hd) as Hs.
  assert (get_node_at_index index h q
          = Some (if decide (0 ≤ index) then ls !! Z.to_nat index else None))
    as Heq.
  { unfold get_node_at_index.
    destruct (decide (index < 0 ∨ index >= size q)) as [Hout|Hin].
    - f_equal. case_decide; [|done].
      symmetry. apply lookup_ge_None_2. lia.
    - rewrite decide_True by lia. rewrite (dll_head _ _ _ Hd).
      rewrite (walk_linked _ _ 0 (Z.to_nat index) (dll_linked _ _ _ Hd)) by lia.
      done. }
  split; [done|]. intros Hout. rewrite Heq. f_equal.
  case_decide; [|done]. apply lookup_ge_None_2. lia.
Qed.

(** X2: on a valid queue [get_node_at_index] never raises: it returns the
    node at position [index] of the chain when [0 <= index < size], and
    [None] for a negative index or one at or beyond [size]. *)
Theorem get_node_at_index_bounds h q ls (index : Z) :
  dll h q ls →
  get_node_at_index index h q
  = Some (if decide (0 ≤ index) then ls !! Z.to_nat index else None)
  ∧ (index < 0 ∨ size q ≤ index → get_node_at_index index h q = Some None).
Proof. apply get_node_at_index_spec. Qed.

Lemma get_node_at_index_bounds_witness :
  get_node_at_index 2 heap_ABC queue_ABC = Some (Some 3%positive)
  ∧ get_node_at_index 3 heap_ABC queue_ABC = Some None
  ∧ get_node_at_index (-1) heap_ABC queue_ABC = Some None.
Proof.
  assert (dll heap_ABC queue_ABC [1%positive; 2%positive; 3%positive]) as Hd.
  { apply dllb_sound. vm_compute. reflexivity. }
  split; [|split].
  - exact (proj1 (get_node_at_index_bounds _ _ _ 2 Hd)).
  - exact (proj1 (get_node_at_index_bounds _ _ _ 3 Hd)).
  - exact (proj1 (get_node_at_index_bounds _ _ _ (-1) Hd)).
Defined.

Lemma find_from_linked lower query h ls fuel k :
  linked h ls → (length ls - k ≤ fuel)%nat →
  find_from lower query fuel h (ls !! k)
  = Some (List.filter (node_matches lower (lower query) h) (drop k ls)).
Proof.
  intros Hl. revert k. induction fuel as [|fuel IH]; intros k Hk.
  - rewrite (lookup_ge_None_2 ls k) by lia. simpl. by rewrite drop_ge by lia.
  - destruct (ls !! k) as [a|] eqn:Hi.
    + destruct (Hl _ _ Hi) as [d Ha]. simpl.
      unfold get_data, get_next. rewrite Ha. simpl.
      rewrite IH by lia. simpl. rewrite (drop_S _ _ _ Hi). simpl.
      assert (node_matches lower (lower query) h a
              = matches lower (lower query) d) as ->; [|done].
      unfold node_matches, get_data. by rewrite Ha.
    + simpl. apply lookup_ge_None_1 in Hi. by rewrite drop_ge by lia.
Qed.

Lemma holds_filter lower query h ls ds :
  holds h ls ds →
  holds h (List.filter (node_matches lower query h) ls)
          (List.filter (matches lower query) ds).
Proof.
  unfold holds. induction 1 as [|a d ls ds Ha Hds IH]; [constructor|].
  simpl. unfold node_matches at 1. rewrite Ha.
  destruct (matches lower query d); [by constructor|done].
Qed.

(** What [find] returns on a valid queue. *)
Lemma find_spec lower query h q ls ds :
  dll h q ls → holds h ls ds →
  ∃ found,
    find lower query h q = Some found
    ∧ found `sublist_of` ls
    ∧ (∀ a, a ∈ found ↔
         a ∈ ls ∧ ∃ d, get_data h a = Some d
                   ∧ matches lower (lower query) d = true)
    ∧ holds h found (List.filter (matches lower (lower query)) ds).
Proof.
  intros Hd Hds.
  exists (List.filter (node_matches lower (lower query) h) ls).
  split_and!.
  - unfold find. rewrite (dll_head _ _ _ Hd).
    rewrite (find_from_linked _ _ _ ls) by
      (apply (dll_linked _ _ _ Hd) ||
       (pose proof (linked_length _ _ (dll_nodup _ _ _ Hd) (dll_linked _ _ _ Hd));
        lia)).
    done.
  - clear. induction ls as [|a ls IH]; simpl; [constructor|].
    destruct (node_matches _ _ _ a); by constructor.
  - intros a. rewrite list_elem_of_In, filter_In, <- list_elem_of_In.
    unfold node_matches. split.
    + intros [Hin Hm]. split; [done|].
      destruct (get_data h a) as [d|]; [eauto|done].
    + intros [Hin (d & Hda & Hm)]. by rewrite Hda.
  - by apply holds_filter.
Qed.

(** X3: on a valid queue [find] returns, in head-to-tail order, exactly
    the nodes whose song matches the query (case folded by [lower]) in its
    title or its artist: the result is a sublist of the chain, a node is in
    it if and only if it is a node of the queue whose song matches, and the
    songs of the result are the matching songs of the queue in order. *)
Theorem find_exact lower query h q ls ds :
  dll h q ls → holds h ls ds →
  ∃ found,
    find lower query h q = Some found
    ∧ found `sublist_of` ls
    ∧ (∀ a, a ∈ found ↔
         a ∈ ls ∧ ∃ d, get_data h a = Some d
                   ∧ matches lower (lower query) d = true)
    ∧ holds h found (List.filter (matches lower (lower query)) ds).
Proof. apply find_spec. Qed.

Lemma find_exact_witness :
  ∃ found, find lower_ascii "b" heap_ABC queue_ABC = Some found
    ∧ holds heap_ABC found [song_B].
Proof.
  destruct (find_exact lower_ascii "b" heap_ABC queue_ABC
              [1%positive; 2%positive; 3%positive]
              [song_A; song_B; song_C])
    as (found & Heq & _ & _ & Hds).
  - apply dllb_sound. vm_compute. reflexivity.
  - unfold holds. repeat constructor.
  - exists found. split; [exact Heq|exact Hds].
Defined.

Lemma contains_empty s : contains "" s = true.
Proof. by destruct s. Qed.

Lemma filter_matches_empty lower (src : list Song) :
  List.filter (matches lower "") src = src.
Proof.
  induction src as [|s src IH]; [done|]. simpl.
  unfold matches at 1. rewrite contains_empty. simpl. by rewrite IH.
Qed.

Lemma filter_node_matches_empty lower h ls ds :
  holds h ls ds → List.filter (node_matches lower "" h) ls = ls.
Proof.
  unfold holds. induction 1 as [|a d ls ds Ha _ IH]; [done|]. simpl.
  unfold node_matches at 1. rewrite Ha. unfold matches at 1.
  rewrite contains_empty. simpl. by rewrite IH.
Qed.

(** What [filter_songs] computes from its source. *)
Lemma filter_songs_spec lower search active library
    (playlists : gmap string (list Song)) :
  (Library.source_of active library playlists = None →
     Library.filter_songs lower search active library playlists = None)
  ∧ (∀ src, Library.source_of active library playlists = Some src →
       ∃ view,
         Library.filter_songs lower search active library playlists = Some view
         ∧ view `sublist_of` src
         ∧ view = List.filter (matches lower (lower search)) src
         ∧ (∀ s, s ∈ view ↔ s ∈ src ∧ matches lower (lower search) s = true)
         ∧ (lower search = "" → view = src)).
Proof.
  unfold Library.filter_songs. split.
  - intros ->. by case_bool_decide.
  - intros src ->. simpl.
    exists (List.filter (matches lower (lower search)) src).
    assert (∀ l, List.filter (matches lower (lower search)) l `sublist_of` l)
      as Hsub.
    { induction l as [|s l IH]; simpl; [constructor|].
      destruct (matches _ _ s); by constructor. }
    split_and!; try done.
    + case_bool_decide as Hq; [|done]. by rewrite Hq, filter_matches_empty.
    + intros s. by rewrite list_elem_of_In, filter_In, <- list_elem_of_In.
    + intros ->. apply filter_matches_empty.
Qed.

(** X4: [filter_songs] computes the view from the library (for the name
    "Library") or from the named playlist: a name that is no playlist
    raises; otherwise the view is a sublist of that source, and it holds
    exactly the songs of the source whose title or artist contains the
    case-folded search text (all of them when that text is empty). *)
Theorem filter_songs_exact lower search active library
    (playlists : gmap string (list Song)) :
  (Library.source_of active library playlists = None →
     Library.filter_songs lower search active library playlists = None)
  ∧ (∀ src, Library.source_of active library playlists = Some src →
       ∃ view,
         Library.filter_songs lower search active library playlists = Some view
         ∧ view `sublist_of` src
         ∧ view = List.filter (matches lower (lower search)) src
         ∧ (∀ s, s ∈ view ↔ s ∈ src ∧ matches lower (lower search) s = true)
         ∧ (lower search = "" → view = src)).
Proof. apply filter_songs_spec. Qed.

Lemma filter_songs_exact_witness :
  Library.filter_songs lower_ascii "x" "Queue" [song_A; song_B] ∅ = None
  ∧ ∃ view, Library.filter_songs lower_ascii "X" "Library" [song_A; song_B] ∅
            = Some view
      ∧ view = [song_A].
Proof.
  split.
  - apply (proj1 (filter_songs_exact lower_ascii "x" "Queue"
                    [song_A; song_B] ∅)). reflexivity.
  - destruct (proj2 (filter_songs_exact lower_ascii "X" "Library"
                       [song_A; song_B] ∅) [song_A; song_B] eq_refl)
      as (view & Hv & _ & Heq & _).
    exists view. split; [exact Hv|exact Heq].
Defined.

(** X5: searching the queue agrees with filtering the view: when the
    queue holds the songs of the view's source in order, the nodes that
    [find] returns for a text hold exactly the songs that [filter_songs]
    puts in the view for the same text, in the same order; with an empty
    text these are all nodes and all songs. *)
Theorem find_agrees_with_filter lower search active library
    (playlists : gmap string (list Song)) h q ls src :
  dll h q ls → holds h ls src →
  Library.source_of active library playlists = Some src →
  ∃ found view,
    find lower search h q = Some found
    ∧ Library.filter_songs lower search active library playlists = Some view
    ∧ holds h found view
    ∧ (lower search = "" → found = ls ∧ view = src).
Proof.
  intros Hd Hds Hsrc.
  destruct (find_spec lower search _ _ _ _ Hd Hds) as (found & Hf & _ & Hin & Hfd).
  destruct (proj2 (filter_songs_spec lower search active library playlists)
              src Hsrc) as (view & Hv & _ & Hveq & _ & Hall).
  exists found, view. split_and!; try done.
  - by rewrite Hveq.
  - intros Hq. split; [|by apply Hall].
    unfold find in Hf. rewrite (dll_head _ _ _ Hd) in Hf.
    rewrite (find_from_linked _ _ _ ls) in Hf by
      (apply (dll_linked _ _ _ Hd) ||
       (pose proof (linked_length _ _ (dll_nodup _ _ _ Hd) (dll_linked _ _ _ Hd));
        lia)).
    simplify_eq. rewrite Hq. simpl. by eapply filter_node_matches_empty.
Qed.

Lemma find_agrees_with_filter_witness :
  ∃ found view,
    find lower_ascii "B" heap_ABC queue_ABC = Some found
    ∧ Library.filter_songs lower_ascii "B" "Library"
        [song_A; song_B; song_C] ∅ = Some view
    ∧ holds heap_ABC found view.
Proof.
  destruct (find_agrees_with_filter lower_ascii "B" "Library"
              [song_A; song_B; song_C] ∅ heap_ABC queue_ABC
              [1%positive; 2%positive; 3%positive] [song_A; song_B; song_C])
    as (found & view & Hf & Hv & Hh & _).
  - apply dllb_sound. vm_compute. reflexivity.
  - unfold holds. repeat constructor.
  - reflexivity.
  - exists found, view. split; [exact Hf|]. split; [exact Hv|exact Hh].
Defined.

End access_props.

(** ** More on [swap_nodes], [remove_node] and [append] *)

Section queue_more.
Import DoublyLinkedList.
Implicit Types (h : heap) (q : DoublyLinkedList) (ls : list loc) (a b : loc).

Lemma swap_adjacent_frame h q ls i a b h' q' :
  dll h q ls → ls !! i = Some a → ls !! S i = Some b →
  swap_nodes (Some a) (Some b) h q = Some (h', q') →
  ∀ c, c ∉ ls → h' !! c = h !! c.
Proof.
  intros Hd Hi Hj Heq c Hc.
  destruct (dll_linked _ _ _ Hd _ _ Hi) as [da Ha].
  destruct (dll_linked _ _ _ Hd _ _ Hj) as [db Hb].
  rewrite Hj in Ha. simpl in Hb. rewrite Hi in Hb.
  rewrite (swap_nodes_eq _ _ _ _ _ _ _ _ Hd Hi Hj Ha Hb) in Heq.
  injection Heq as <- _.
  assert (∀ k, ls !! k ≠ Some c) as Hno.
  { intros k Hk. apply Hc. by eapply list_elem_of_lookup_2. }
  rewrite !lookup_insert_ne, !lookup_alter_at.
  - rewrite !decide_False; [done| |]; [|apply Hno].
    destruct i; [done|apply Hno].
  - intros ->. by eapply Hno.
  - intros ->. by eapply Hno.
Qed.

Lemma dll_heap_eq h h' q q' ls :
  dll h q ls → dll h' q' ls →
  (∀ c, get_data h' c = get_data h c) →
  (∀ c, c ∉ ls → h' !! c = h !! c) →
  current q' = current q →
  h' = h ∧ q' = q.
Proof.
  intros Hd Hd' Hdata Hframe Hcur. split.
  - apply map_eq. intros c.
    destruct (decide (c ∈ ls)) as [Hin|Hout]; [|by apply Hframe].
    apply list_elem_of_lookup in Hin as [j Hj].
    destruct (dll_linked _ _ _ Hd _ _ Hj) as [d Hc].
    destruct (dll_linked _ _ _ Hd' _ _ Hj) as [d' Hc'].
    specialize (Hdata c). unfold get_data in Hdata.
    rewrite Hc, Hc' in Hdata. simpl in Hdata. rewrite Hc, Hc'. congruence.
  - destruct Hd as [_ Hh Ht _ Hs _], Hd' as [_ Hh' Ht' _ Hs' _].
    destruct q, q'. simpl in *. congruence.
Qed.

(** X6: [swap_nodes(a, b)] on two adjacent nodes of a valid queue
    exchanges their positions in the chain and keeps it valid; calling it
    again with the arguments exchanged restores the heap and the queue
    exactly.  Called with the nodes in the wrong order (on the original
    queue) it changes nothing. *)
Theorem swap_nodes_involutive h q ls i a b :
  dll h q ls → ls !! i = Some a → ls !! S i = Some b →
  ∃ h' q',
    swap_nodes (Some a) (Some b) h q = Some (h', q')
    ∧ dll h' q' (<[i := b]> (<[S i := a]> ls))
    ∧ swap_nodes (Some b) (Some a) h' q' = Some (h, q)
    ∧ swap_nodes (Some b) (Some a) h q = Some (h, q).
Proof.
  intros Hd Hi Hj.
  destruct (swap_adjacent_dll _ _ _ _ _ _ Hd Hi Hj)
    as (h' & q' & Heq & Hd' & Hc & Hs & Hdata).
  exists h', q'. split; [done|]. split; [done|].
  pose proof (lookup_lt_Some _ _ _ Hj) as Hlt.
  set (ls' := <[i := b]> (<[S i := a]> ls)) in *.
  assert (ls' !! i = Some b) as Hi'.
  { unfold ls'. rewrite (lookup_swapped _ _ _ _ _ Hi Hj). by rewrite decide_True. }
  assert (ls' !! S i = Some a) as Hj'.
  { unfold ls'. rewrite (lookup_swapped _ _ _ _ _ Hi Hj).
    rewrite decide_False by lia. by rewrite decide_True. }
  assert (<[i := a]> (<[S i := b]> ls') = ls) as Hback.
  { apply list_eq. intros k. rewrite (lookup_swapped _ _ _ _ _ Hi' Hj').
    unfold ls'. rewrite (lookup_swapped _ _ _ _ _ Hi Hj).
    destruct (decide (k = i)) as [->|?]; [done|].
    destruct (decide (k = S i)) as [->|?]; done. }
  split.
  - destruct (swap_adjacent_dll _ _ _ _ _ _ Hd' Hi' Hj')
      as (h2 & q2 & Heq2 & Hd2 & Hc2 & Hs2 & Hdata2).
    rewrite Hback in Hd2. rewrite Heq2. f_equal.
    destruct (dll_heap_eq h h2 q q2 ls) as [-> ->]; try done.
    + intros c. by rewrite Hdata2.
    + intros c Hout.
      rewrite (swap_adjacent_frame _ _ _ _ _ _ _ _ Hd' Hi' Hj' Heq2).
      * by apply (swap_adjacent_frame _ _ _ _ _ _ _ _ Hd Hi Hj Heq).
      * unfold ls'. by rewrite (swapped_Permutation _ _ _ _ Hi Hj).
    + congruence.
  - unfold swap_nodes.
    rewrite (linked_get_next _ _ _ _ (dll_linked _ _ _ Hd) Hj). simpl.
    rewrite decide_True; [done|]. intros Hk.
    pose proof (NoDup_lookup _ _ _ _ (dll_nodup _ _ _ Hd) Hi Hk). lia.
Qed.

Lemma swap_nodes_involutive_witness :
  ∃ h' q',
    swap_nodes (Some 1%positive) (Some 2%positive) heap_ABC queue_ABC
    = Some (h', q')
    ∧ songs_of h' q' = Some [song_B; song_A; song_C]
    ∧ swap_nodes (Some 2%positive) (Some 1%positive) h' q'
      = Some (heap_ABC, queue_ABC).
Proof.
  destruct (swap_nodes_involutive heap_ABC queue_ABC
              [1%positive; 2%positive; 3%positive] 0 1%positive 2%positive)
    as (h' & q' & Heq & Hd & Hback & _).
  - apply dllb_sound. vm_compute. reflexivity.
  - reflexivity.
  - reflexivity.
  - exists h', q'. split; [exact Heq|]. split; [|exact Hback].
    vm_compute in Heq. injection Heq as <- <-. vm_compute. reflexivity.
Defined.

(** X7: removing a node of a valid queue removes exactly its song from
    the head-to-tail sequence and keeps the others in their order; the
    removed node keeps its song (the history may still refer to it). *)
Theorem remove_node_keeps_order h q ls ds i a :
  dll h q ls → holds h ls ds → ls !! i = Some a →
  ∃ h' q',
    remove_node (Some a) h q = Some (h', q')
    ∧ songs_of h q = Some ds
    ∧ songs_of h' q' = Some (delete i ds)
    ∧ get_data h' a = get_data h a.
Proof.
  intros Hd Hds Hi.
  destruct (remove_node_dll _ _ _ _ _ Hd Hi)
    as (h' & q' & d & Heq & Hd' & _ & _ & _ & Hdata).
  exists h', q'. split_and!; try done.
  - by eapply dll_songs_of.
  - eapply dll_songs_of; [done|].
    eapply holds_ext; [intros c _; apply Hdata|].
    by apply Forall2_delete.
Qed.

Lemma remove_node_keeps_order_witness :
  ∃ h' q',
    remove_node (Some 2%positive) heap_ABC queue_ABC = Some (h', q')
    ∧ songs_of h' q' = Some [song_A; song_C].
Proof.
  destruct (remove_node_keeps_order heap_ABC queue_ABC
              [1%positive; 2%positive; 3%positive]
              [song_A; song_B; song_C] 1 2%positive)
    as (h' & q' & Heq & _ & Hs & _).
  - apply dllb_sound. vm_compute. reflexivity.
  - unfold holds. repeat constructor.
  - reflexivity.
  - exists h', q'. split; [exact Heq|exact Hs].
Defined.

(** X8: [remove_node] does not check that the node belongs to the queue:
    called a second time on a node it has just removed, it leaves the heap
    and the links of the queue as they are but decrements [size] again, so
    that [size] no longer is the number of nodes reached from [head]. *)
Theorem remove_node_twice h q ls i a :
  dll h q ls → ls !! i = Some a →
  ∃ h' q',
    remove_node (Some a) h q = Some (h', q')
    ∧ remove_node (Some a) h' q' = Some (h', set_size (size q - 2) q')
    ∧ chain_of h' (set_size (size q - 2) q') = Some (delete i ls)
    ∧ size (set_size (size q - 2) q') ≠ Z.of_nat (length (delete i ls))
    ∧ ¬ structural_invariants h' (set_size (size q - 2) q').
Proof.
  intros Hd Hi.
  destruct (remove_node_dll _ _ _ _ _ Hd Hi)
    as (h' & q' & d & Heq & Hd' & _ & Hsz & Ha & _).
  exists h', q'. split; [done|].
  assert (a ∉ delete i ls) as Hout.
  { intros [j Hj]%list_elem_of_lookup. rewrite lookup_delete_shift in Hj.
    pose proof (NoDup_lookup _ _ _ _ (dll_nodup _ _ _ Hd) Hi Hj) as Hij.
    case_decide; lia. }
  assert (∀ o, o = (delete i ls) !! 0%nat ∨ o = last (delete i ls)
               ∨ (∀ c, o = Some c → c ∈ delete i ls) → Some a ≠ o) as Hne.
  { intros o Ho <-. apply Hout. destruct Ho as [Ho|[Ho|Ho]].
    - by eapply list_elem_of_lookup_2.
    - rewrite last_lookup in Ho. by eapply list_elem_of_lookup_2.
    - by apply Ho. }
  assert (chain_of h' (set_size (size q - 2) q') = Some (delete i ls)) as Hch.
  { rewrite <- (dll_chain_of _ _ _ Hd'). done. }
  split_and!.
  - unfold remove_node.
    destruct (decide (Some a = head q')) as [E|_];
      [exfalso; revert E; apply Hne; left; apply (dll_head _ _ _ Hd')|].
    cbn [mbind option_bind].
    destruct (decide (Some a = tail q')) as [E|_];
      [exfalso; revert E; apply Hne; right; left; apply (dll_tail _ _ _ Hd')|].
    cbn [mbind option_bind].
    unfold get_prev, get_next. rewrite !Ha.
    cbn [fmap option_fmap option_map mbind option_bind prev next].
    rewrite Ha. cbn [fmap option_fmap option_map mbind option_bind prev next].
    destruct (decide (Some a = current q')) as [E|_];
      [exfalso; revert E; apply Hne; right; right;
       apply (dll_current _ _ _ Hd')|].
    cbn [mbind option_bind].
    unfold set_next, set_prev. rewrite Ha. simpl.
    rewrite lookup_insert_eq. simpl. rewrite insert_insert_eq.
    rewrite insert_id by done. rewrite Hsz. do 3 f_equal. lia.
  - done.
  - simpl. rewrite length_delete by eauto.
    pose proof (lookup_lt_Some _ _ _ Hi). pose proof (dll_size _ _ _ Hd). lia.
  - intros [_ _ _ _ (ls' & Hls' & Hsize) _].
    rewrite Hch in Hls'. simplify_eq. simpl in Hsize.
    rewrite length_delete in Hsize by eauto.
    pose proof (lookup_lt_Some _ _ _ Hi). pose proof (dll_size _ _ _ Hd). lia.
Qed.

Lemma remove_node_twice_witness :
  ∃ h' q',
    remove_node (Some 2%positive) heap_ABC queue_ABC = Some (h', q')
    ∧ remove_node (Some 2%positive) h' q' = Some (h', set_size 1 q')
    ∧ chain_of h' (set_size 1 q') = Some [1%positive; 3%positive].
Proof.
  destruct (remove_node_twice heap_ABC queue_ABC
              [1%positive; 2%positive; 3%positive] 1 2%positive)
    as (h' & q' & Heq & Heq2 & Hch & _).
  - apply dllb_sound. vm_compute. reflexivity.
  - reflexivity.
  - exists h', q'. split; [exact Heq|]. split; [exact Heq2|exact Hch].
Defined.

Lemma append_all_cursor songs h q ls h' q' :
  dll h q ls → HarmoniaApp.append_all songs h q = Some (h', q') →
  (ls ≠ [] → current q' = current q ∧ head q' = head q)
  ∧ (ls = [] → current q' = head q').
Proof.
  revert h q ls. induction songs as [|s songs IH]; intros h q ls Hd Heq.
  - simpl in Heq. simplify_eq. split; [done|]. intros ->.
    by rewrite (dll_nil_current _ _ Hd), (dll_head _ _ _ Hd).
  - destruct (append_dll s _ _ _ Hd)
      as (h1 & q1 & Heq1 & Hd1 & _ & _ & _ & Hc1 & Hh1 & _).
    simpl in Heq. rewrite Heq1 in Heq. simpl in Heq.
    destruct (IH _ _ _ Hd1 Heq) as [Hne _].
    destruct Hne as [Hc Hh]; [by destruct ls|].
    split.
    + intros Hls. rewrite Hc, Hh, Hc1, Hh1, (dll_head _ _ _ Hd).
      destruct ls as [|x ls0]; [done|]. done.
    + intros ->. rewrite Hc, Hh, Hc1, Hh1. done.
Qed.

(** X9: [add_playlist_to_queue] (a run of [append]) on a valid queue adds
    the songs at the tail in their order: the head-to-tail sequence is the
    old one followed by the new songs, [size] grows by their number, and
    [current] is kept; only when the queue was empty does [current] become
    the new head. *)
Theorem add_to_queue_appends h q ls ds songs :
  dll h q ls → holds h ls ds →
  ∃ h' q' ls',
    HarmoniaApp.append_all songs h q = Some (h', q')
    ∧ dll h' q' (ls ++ ls')
    ∧ songs_of h' q' = Some (ds ++ songs)
    ∧ size q' = size q + Z.of_nat (length songs)
    ∧ (ls ≠ [] → current q' = current q)
    ∧ (ls = [] → current q' = head q').
Proof.
  intros Hd Hds.
  destruct (append_all_dll songs _ _ _ _ Hd Hds) as (h' & q' & ls' & Heq & Hd' & Hds').
  destruct (append_all_cursor _ _ _ _ _ _ Hd Heq) as [Hne Hnil].
  exists h', q', ls'. split_and!; try done.
  - by eapply dll_songs_of.
  - rewrite (dll_size _ _ _ Hd'), (dll_size _ _ _ Hd).
    apply Forall2_length in Hds, Hds'. rewrite !length_app in *. lia.
  - intros Hls. by apply Hne.
Qed.

Lemma add_to_queue_appends_witness :
  ∃ h' q',
    HarmoniaApp.append_all [song_A; song_B] heap_ABC queue_ABC = Some (h', q')
    ∧ songs_of h' q' = Some [song_A; song_B; song_C; song_A; song_B]
    ∧ current q' = Some 2%positive.
Proof.
  destruct (add_to_queue_appends heap_ABC queue_ABC
              [1%positive; 2%positive; 3%positive]
              [song_A; song_B; song_C] [song_A; song_B])
    as (h' & q' & ls' & Heq & _ & Hs & _ & Hc & _).
  - apply dllb_sound. vm_compute. reflexivity.
  - unfold holds. repeat constructor.
  - exists h', q'. split; [exact Heq|]. split; [exact Hs|].
    apply Hc. discriminate.
Defined.

End queue_more.

(** ** Navigation *)

Section navigation_props.
Import DoublyLinkedList HarmoniaApp.
Context {M : Type} `{AudioBackend M}.
Implicit Types (a : HarmoniaApp M) (ls : list loc).

(** With a backend that is busy right after [play()], [play_current]
    touches neither the queue nor the heap nor the history. *)
Lemma play_current_frame (k : HarmoniaApp M → option (HarmoniaApp M)) a :
  busy_after_play M →
  (∀ c, current (queue a) = Some c → is_Some (nodes a !! c)) →
  ∃ a', play_current k a = Some a'
    ∧ queue a' = queue a ∧ nodes a' = nodes a ∧ history a' = history a
    ∧ current_view_songs a' = current_view_songs a
    ∧ is_looping a' = is_looping a ∧ is_shuffled a' = is_shuffled a
    ∧ HAS_DEPS a' = HAS_DEPS a
    ∧ (current (queue a) = None →
       is_playing a' = is_playing a ∧ mixer a' = mixer a).
Proof.
  intros Hbusy Hlive. unfold play_current.
  destruct (current (queue a)) as [c|] eqn:Hc; [|by exists a].
  destruct (HAS_DEPS a) eqn:Hdeps; [|by exists a]. simpl.
  destruct (Hlive c eq_refl) as [n Hn]. unfold get_data. rewrite Hn. simpl.
  destruct (Sound_get_length (mixer a) (path (data n))); simpl;
    (destruct (music_load _ _) as [m1|]; [|by eexists]);
    (destruct (music_play m1) as [m2|] eqn:Hplay; [|by eexists]);
    unfold check_music_end, pygame; simpl; rewrite Hdeps; simpl;
    rewrite (Hbusy _ _ Hplay); simpl; by eexists.
Qed.

(** The effect of [play_next] when the backend is busy after [play()]. *)
Lemma play_next_spec a ls i c depth :
  busy_after_play M →
  dll (nodes a) (queue a) ls → ls !! i = Some c →
  current (queue a) = Some c →
  ∃ a', play_next depth a = Some a'
    ∧ history a' = Stack.push c (history a)
    ∧ nodes a' = nodes a
    ∧ queue a'
      = set_current (match ls !! S i with
                     | Some x => Some x
                     | None => if is_looping a then ls !! 0%nat else Some c
                     end) (queue a)
    ∧ dll (nodes a') (queue a') ls
    ∧ HAS_DEPS a' = HAS_DEPS a.
Proof.
  intros Hbusy Hd Hi Hc.
  pose proof (linked_get_next _ _ _ _ (dll_linked _ _ _ Hd) Hi) as Hn.
  set (k := play_current match depth with
                         | O => λ _, None
                         | S d => play_next d
                         end).
  assert (play_next depth a = play_next_body k a) as -> by (by destruct depth).
  unfold play_next_body. rewrite Hc. simpl. rewrite Hn. simpl.
  assert (∀ v, (∀ x, v = Some x → x ∈ ls) →
            ∃ a', k (set_queue_current v
                       (set_history (Stack.push c (history a)) a)) = Some a'
              ∧ history a' = Stack.push c (history a)
              ∧ nodes a' = nodes a
              ∧ queue a' = set_current v (queue a)
              ∧ dll (nodes a') (queue a') ls
              ∧ HAS_DEPS a' = HAS_DEPS a) as Hk.
  { intros v Hv.
    destruct (play_current_frame
                match depth with O => λ _, None | S d => play_next d end
                (set_queue_current v
                   (set_history (Stack.push c (history a)) a)) Hbusy)
      as (a' & Heq & Hq & Hnodes & Hh & _ & _ & _ & Hdeps & _).
    { simpl. intros x Hx. apply Hv in Hx.
      apply list_elem_of_lookup in Hx as [j Hj].
      by eapply linked_succ; [apply (dll_linked _ _ _ Hd)|]. }
    exists a'. split; [done|]. rewrite Hq, Hnodes, Hh, Hdeps. simpl.
    split_and!; try done. by apply dll_set_current. }
  destruct (ls !! S i) as [x|] eqn:Hx.
  - apply Hk. intros ? ?; simplify_eq. by eapply list_elem_of_lookup_2.
  - destruct (is_looping a) eqn:Hloop.
    + simpl. rewrite (dll_head _ _ _ Hd). apply Hk.
      intros x Hx0. by eapply list_elem_of_lookup_2.
    + eexists. split; [done|]. simpl. split_and!; try done.
      destruct (queue a). simpl in *. by subst.
Qed.

(** X10: with a backend that is busy right after [play()], [play_next] on
    a valid queue with a current node pushes that node onto the history
    and moves [current] along the chain: to the next node if there is one,
    else to the head when looping, else it stays.  The chain itself is
    untouched and the queue stays valid. *)
Theorem play_next_moves a ls i c depth :
  busy_after_play M →
  dll (nodes a) (queue a) ls → ls !! i = Some c →
  current (queue a) = Some c →
  ∃ a', play_next depth a = Some a'
    ∧ history a' = Stack.push c (history a)
    ∧ nodes a' = nodes a
    ∧ queue a'
      = set_current (match ls !! S i with
                     | Some x => Some x
                     | None => if is_looping a then ls !! 0%nat else Some c
                     end) (queue a)
    ∧ dll (nodes a') (queue a') ls
    ∧ HAS_DEPS a' = HAS_DEPS a.
Proof. apply play_next_spec. Qed.

(** The effect of [play_prev] when the backend is busy after [play()]. *)
Lemma play_prev_spec a ls depth :
  busy_after_play M →
  dll (nodes a) (queue a) ls →
  (∀ n, last (Stack.items (history a)) = Some n → is_Some (nodes a !! n)) →
  ∃ a', play_prev depth a = Some a'
    ∧ history a' = (Stack.pop (history a)).2
    ∧ nodes a' = nodes a
    ∧ queue a'
      = set_current
          (match (Stack.pop (history a)).1 with
           | Some n => Some n
           | None =>
               match current (queue a) ≫= get_prev (nodes a) with
               | Some (Some p) => Some p
               | _ => current (queue a)
               end
           end) (queue a).
Proof.
  intros Hbusy Hd Hlive. unfold play_prev.
  destruct (Stack.is_empty (history a)) eqn:Hemp; simpl.
  - unfold Stack.pop. rewrite Hemp. simpl.
    destruct (current (queue a)) as [c|] eqn:Hc; simpl.
    2:{ exists a. split_and!; try done. destruct (queue a); simpl in *; by subst. }
    pose proof (dll_current _ _ _ Hd _ Hc) as Hin.
    apply list_elem_of_lookup in Hin as [i Hi].
    rewrite (linked_get_prev _ _ _ _ (dll_linked _ _ _ Hd) Hi). simpl.
    destruct (pred_at ls i) as [p|] eqn:Hp.
    2:{ exists a. split_and!; try done. destruct (queue a); simpl in *; by subst. }
    destruct (play_current_frame (play_next depth)
                (set_queue_current (Some p) a) Hbusy)
      as (a' & Heq & Hq & Hnodes & Hh & _).
    { simpl. intros x ?; simplify_eq.
      by eapply linked_pred_at; [apply (dll_linked _ _ _ Hd)|]. }
    exists a'. unfold play_current_at. rewrite Heq, Hq, Hnodes, Hh. done.
  - unfold Stack.pop. rewrite Hemp. simpl.
    destruct (last (Stack.items (history a))) as [n|] eqn:Hlast.
    2:{ apply last_None in Hlast. unfold Stack.is_empty in Hemp.
        by rewrite Hlast in Hemp. }
    destruct (play_current_frame (play_next depth)
                (set_queue_current (Some n)
                   (set_history (Stack.mk (removelast (Stack.items (history a))))
                      a)) Hbusy)
      as (a' & Heq & Hq & Hnodes & Hh & _).
    { simpl. intros x ?; simplify_eq. by apply Hlive. }
    exists a'. unfold play_current_at. rewrite Heq, Hq, Hnodes, Hh. done.
Qed.

(** X11: with a backend that is busy right after [play()], [play_prev]
    never pushes: the history afterwards is the history with its top
    popped (or still empty).  [current] becomes the popped node, whether or
    not that node is still in the queue; with an empty history it becomes
    the node before the current one, if there is one.  The heap and the
    other fields of the queue are untouched. *)
Theorem play_prev_pops a ls depth :
  busy_after_play M →
  dll (nodes a) (queue a) ls →
  (∀ n, last (Stack.items (history a)) = Some n → is_Some (nodes a !! n)) →
  ∃ a', play_prev depth a = Some a'
    ∧ history a' = (Stack.pop (history a)).2
    ∧ nodes a' = nodes a
    ∧ queue a'
      = set_current
          (match (Stack.pop (history a)).1 with
           | Some n => Some n
           | None =>
               match current (queue a) ≫= get_prev (nodes a) with
               | Some (Some p) => Some p
               | _ => current (queue a)
               end
           end) (queue a).
Proof. apply play_prev_spec. Qed.

(** X12: "previous" undoes "next": with a backend that is busy right
    after [play()], on a valid queue with a current node, [play_next]
    followed by [play_prev] leaves the queue (with [current] on the node it
    was on), the history and the heap exactly as they were, whichever way
    [play_next] went (forward, wrapped to the head, or stopped at the
    tail). *)
Theorem next_then_prev_restores a ls c depth depth' :
  busy_after_play M →
  dll (nodes a) (queue a) ls → current (queue a) = Some c →
  ∃ a1 a2,
    play_next depth a = Some a1
    ∧ play_prev depth' a1 = Some a2
    ∧ queue a2 = queue a ∧ history a2 = history a ∧ nodes a2 = nodes a.
Proof.
  intros Hbusy Hd Hc.
  pose proof (dll_current _ _ _ Hd _ Hc) as Hin.
  apply list_elem_of_lookup in Hin as [i Hi].
  destruct (play_next_spec a ls i c depth Hbusy Hd Hi Hc)
    as (a1 & Heq1 & Hh1 & Hn1 & Hq1 & Hd1 & _).
  destruct (play_prev_spec a1 ls depth' Hbusy Hd1)
    as (a2 & Heq2 & Hh2 & Hn2 & Hq2).
  { rewrite Hh1. simpl. rewrite last_snoc. intros n ?; simplify_eq.
    rewrite Hn1. by eapply linked_succ; [apply (dll_linked _ _ _ Hd)|]. }
  exists a1, a2. split; [done|]. split; [done|].
  rewrite Hh1, pop_push in Hh2, Hq2. simpl in Hh2, Hq2.
  split_and!; [|done|congruence].
  rewrite Hq2, Hq1. destruct (queue a). simpl in *. by subst.
Qed.

End navigation_props.

Lemma play_next_moves_witness :
  ∃ a', HarmoniaApp.play_next 0
          (app_ABC (Some 1%positive) true false mixer_playing) = Some a'
    ∧ HarmoniaApp.history a' = Stack.push 1%positive Stack.init
    ∧ DoublyLinkedList.current (HarmoniaApp.queue a') = Some 2%positive.
Proof.
  destruct (play_next_moves (app_ABC (Some 1%positive) true false mixer_playing)
              [1%positive; 2%positive; 3%positive] 0 1%positive 0)
    as (a' & Heq & Hh & _ & Hq & _).
  - intros [l s p] m'. simpl. destruct l; intros ?; by simplify_eq.
  - apply dllb_sound. vm_compute. reflexivity.
  - reflexivity.
  - reflexivity.
  - exists a'. split; [exact Heq|]. split; [exact Hh|]. by rewrite Hq.
Defined.

Lemma play_prev_pops_witness :
  ∃ a', HarmoniaApp.play_prev 0
          (app_ABC (Some 2%positive) true false mixer_playing) = Some a'
    ∧ HarmoniaApp.history a' = Stack.init
    ∧ DoublyLinkedList.current (HarmoniaApp.queue a') = Some 1%positive.
Proof.
  destruct (play_prev_pops (app_ABC (Some 2%positive) true false mixer_playing)
              [1%positive; 2%positive; 3%positive] 0)
    as (a' & Heq & Hh & _ & Hq).
  - intros [l s p] m'. simpl. destruct l; intros ?; by simplify_eq.
  - apply dllb_sound. vm_compute. reflexivity.
  - intros n Hn. discriminate Hn.
  - exists a'. split; [exact Heq|]. split; [exact Hh|]. by rewrite Hq.
Defined.

Lemma next_then_prev_restores_witness :
  ∃ a1 a2,
    HarmoniaApp.play_next 0
      (app_ABC (Some 3%positive) true true mixer_playing) = Some a1
    ∧ HarmoniaApp.play_prev 0 a1 = Some a2
    ∧ HarmoniaApp.queue a2
      = HarmoniaApp.queue (app_ABC (Some 3%positive) true true mixer_playing)
    ∧ HarmoniaApp.history a2 = Stack.init.
Proof.
  destruct (next_then_prev_restores
              (app_ABC (Some 3%positive) true true mixer_playing)
              [1%positive; 2%positive; 3%positive] 3%positive 0 0)
    as (a1 & a2 & Heq1 & Heq2 & Hq & Hh & _).
  - intros [l s p] m'. simpl. destruct l; intros ?; by simplify_eq.
  - apply dllb_sound. vm_compute. reflexivity.
  - reflexivity.
  - exists a1, a2. split; [exact Heq1|]. split; [exact Heq2|].
    split; [exact Hq|exact Hh].
Defined.

(** ** Removing from the queue view *)

Section remove_ui_more.
Import DoublyLinkedList HarmoniaApp.
Context {M : Type} `{AudioBackend M}.
Implicit Types (a : HarmoniaApp M) (ls : list loc).

Local Arguments remove_node : simpl never.
Local Arguments songs_of : simpl never.
Local Arguments get_node_at_index : simpl never.

(** The effect of [remove_from_queue_ui] for every index. *)
Lemma remove_from_queue_ui_spec a ls ds (index : Z) :
  dll (nodes a) (queue a) ls → holds (nodes a) ls ds →
  (is_playing a = true → HAS_DEPS a = true) →
  (index < 0 ∨ Z.of_nat (length ls) ≤ index →
     remove_from_queue_ui index a = Some a)
  ∧ (∀ i n, index = Z.of_nat i → ls !! i = Some n →
       ∃ a', remove_from_queue_ui index a = Some a'
         ∧ dll (nodes a') (queue a') (delete i ls)
         ∧ current_view_songs a' = delete i ds
         ∧ active_playlist_name a' = "Queue"
         ∧ history a' = history a
         ∧ (∀ b, get_data (nodes a') b = get_data (nodes a) b)
         ∧ (current (queue a) ≠ Some n →
            current (queue a') = current (queue a)
            ∧ is_playing a' = is_playing a
            ∧ mixer a' = mixer a
            ∧ lbl_now_title a' = lbl_now_title a
            ∧ lbl_now_artist a' = lbl_now_artist a)).
Proof.
  intros Hd Hds Hdeps. split.
  - intros Hout. unfold remove_from_queue_ui.
    rewrite (proj1 (get_node_at_index_spec _ _ _ index Hd)). simpl.
    case_decide; [|done].
    rewrite (lookup_ge_None_2 ls) by lia. done.
  - intros i n -> Hi.
    destruct (remove_node_dll _ _ _ _ _ Hd Hi)
      as (h' & q' & d & Heq & Hd' & Hcur & _ & _ & Hdata).
    assert (songs_of h' q' = Some (delete i ds)) as Hsongs.
    { eapply dll_songs_of; [done|].
      eapply holds_ext; [intros c _; apply Hdata|]. by apply Forall2_delete. }
    unfold remove_from_queue_ui.
    rewrite (get_node_at_index_dll _ _ _ _ _ Hd Hi). simpl.
    rewrite Heq. simpl.
    destruct (decide (current (queue a) = Some n)) as [Hc|Hc].
    + rewrite bool_decide_eq_true_2 by done. simpl.
      destruct (is_playing a) eqn:Hp; simpl.
      * unfold pygame. simpl. rewrite (Hdeps eq_refl). simpl.
        unfold show_queue. simpl. rewrite Hsongs. simpl.
        eexists. split; [done|]. simpl. by split_and!.
      * unfold show_queue. simpl. rewrite Hsongs. simpl.
        eexists. split; [done|]. simpl. by split_and!.
    + rewrite bool_decide_eq_false_2 by congruence. simpl.
      unfold show_queue. simpl. rewrite Hsongs. simpl.
      eexists. split; [done|]. simpl. by split_and!.
Qed.

(** X13: [remove_from_queue_ui] for any index, on a valid queue: an index
    outside [0 .. size-1] changes nothing at all; an index inside removes
    the node at that position, keeps the queue valid and the history as it
    is, and sets the view to the remaining songs of the queue in order.
    When the removed node is not the current one, [current] and the
    playback state are untouched. *)
Theorem remove_from_queue_ui_any_index a ls ds (index : Z) :
  dll (nodes a) (queue a) ls → holds (nodes a) ls ds →
  (is_playing a = true → HAS_DEPS a = true) →
  (index < 0 ∨ Z.of_nat (length ls) ≤ index →
     remove_from_queue_ui index a = Some a)
  ∧ (∀ i n, index = Z.of_nat i → ls !! i = Some n →
       ∃ a', remove_from_queue_ui index a = Some a'
         ∧ dll (nodes a') (queue a') (delete i ls)
         ∧ current_view_songs a' = delete i ds
         ∧ active_playlist_name a' = "Queue"
         ∧ history a' = history a
         ∧ (∀ b, get_data (nodes a') b = get_data (nodes a) b)
         ∧ (current (queue a) ≠ Some n →
            current (queue a') = current (queue a)
            ∧ is_playing a' = is_playing a
            ∧ mixer a' = mixer a
            ∧ lbl_now_title a' = lbl_now_title a
            ∧ lbl_now_artist a' = lbl_now_artist a)).
Proof. apply remove_from_queue_ui_spec. Qed.

End remove_ui_more.

Lemma remove_from_queue_ui_any_index_witness :
  HarmoniaApp.remove_from_queue_ui 7
    (app_ABC (Some 2%positive) true false mixer_playing)
  = Some (app_ABC (Some 2%positive) true false mixer_playing)
  ∧ ∃ a', HarmoniaApp.remove_from_queue_ui 0
            (app_ABC (Some 2%positive) true false mixer_playing) = Some a'
      ∧ HarmoniaApp.current_view_songs a' = [song_B; song_C]
      ∧ DoublyLinkedList.current (HarmoniaApp.queue a') = Some 2%positive
      ∧ HarmoniaApp.is_playing a' = true.
Proof.
  assert (dll heap_ABC (DoublyLinkedList.mk (Some 1%positive) (Some 3%positive)
                          (Some 2%positive) 3)
              [1%positive; 2%positive; 3%positive]) as Hd.
  { apply dllb_sound. vm_compute. reflexivity. }
  assert (holds heap_ABC [1%positive; 2%positive; 3%positive]
            [song_A; song_B; song_C]) as Hds.
  { unfold holds. repeat constructor. }
  split.
  - apply (proj1 (remove_from_queue_ui_any_index
                    (app_ABC (Some 2%positive) true false mixer_playing)
                    _ _ 7 Hd Hds (λ _, eq_refl))).
    right. simpl. lia.
  - destruct (proj2 (remove_from_queue_ui_any_index
                       (app_ABC (Some 2%positive) true false mixer_playing)
                       _ _ 0 Hd Hds (λ _, eq_refl)) 0%nat 1%positive
                eq_refl eq_refl)
      as (a' & Heq & _ & Hv & _ & _ & _ & Hrest).
    destruct Hrest as (Hc & Hp & _); [discriminate|].
    exists a'. split; [exact Heq|]. split; [exact Hv|].
    split; [exact Hc|exact Hp].
Defined.

(** ** The history outlives the queue's nodes *)

Section stale_history.
Import DoublyLinkedList HarmoniaApp.
Context {M : Type} `{AudioBackend M}.
Implicit Types (a : HarmoniaApp M) (ls : list loc).

(** X14: the history holds node references that removal from the queue
    does not retract.  On a valid queue whose current node has a next one:
    after [play_next], removing the node just left (through the queue
    view) and then calling [play_prev] makes [current] refer to the removed
    node, which is not reached from [head] any more; the invariant
    "current is a node of the queue" is then violated. *)
Theorem prev_returns_to_removed_node a ls ds i c x depth :
  busy_after_play M → HAS_DEPS a = true →
  dll (nodes a) (queue a) ls → holds (nodes a) ls ds →
  ls !! i = Some c → ls !! S i = Some x →
  current (queue a) = Some c →
  ∃ a1 a2 a3,
    play_next depth a = Some a1
    ∧ remove_from_queue_ui (Z.of_nat i) a1 = Some a2
    ∧ play_prev depth a2 = Some a3
    ∧ current (queue a3) = Some c
    ∧ chain_of (nodes a3) (queue a3) = Some (delete i ls)
    ∧ (c ∉ delete i ls)
    ∧ ¬ structural_invariants (nodes a3) (queue a3).
Proof.
  intros Hbusy Hdeps Hd Hds Hi Hx Hc.
  destruct (play_next_spec a ls i c depth Hbusy Hd Hi Hc)
    as (a1 & Heq1 & Hh1 & Hn1 & Hq1 & Hd1 & Hdeps1).
  rewrite Hx in Hq1.
  assert (c ≠ x) as Hcx.
  { intros ->. pose proof (NoDup_lookup _ _ _ _ (dll_nodup _ _ _ Hd) Hi Hx). lia. }
  destruct (proj2 (remove_from_queue_ui_spec a1 ls ds (Z.of_nat i) Hd1
                     ltac:(by rewrite Hn1)
                     ltac:(intros _; by rewrite Hdeps1)) i c eq_refl Hi)
    as (a2 & Heq2 & Hd2 & _ & _ & Hh2 & Hdata2 & _).
  destruct (play_prev_spec a2 (delete i ls) depth Hbusy Hd2)
    as (a3 & Heq3 & Hh3 & Hn3 & Hq3).
  { rewrite Hh2, Hh1. simpl. rewrite last_snoc. intros n ?; simplify_eq.
    destruct (dll_linked _ _ _ Hd _ _ Hi) as [d Hdc].
    specialize (Hdata2 n). rewrite Hn1 in Hdata2. unfold get_data in Hdata2.
    rewrite Hdc in Hdata2. simpl in Hdata2.
    destruct (nodes a2 !! n); [eauto|done]. }
  rewrite Hh2, Hh1, pop_push in Hq3. simpl in Hq3.
  assert (c ∉ delete i ls) as Hout.
  { intros [j Hj]%list_elem_of_lookup. rewrite lookup_delete_shift in Hj.
    pose proof (NoDup_lookup _ _ _ _ (dll_nodup _ _ _ Hd) Hi Hj) as Hij.
    case_decide; lia. }
  assert (chain_of (nodes a3) (queue a3) = Some (delete i ls)) as Hch.
  { rewrite <- (dll_chain_of _ _ _ Hd2). unfold chain_of. by rewrite Hn3, Hq3. }
  exists a1, a2, a3. split_and!; try done.
  - by rewrite Hq3.
  - intros [_ _ _ _ _ Hcur]. destruct (Hcur c) as (ls' & Hls' & Hin).
    + by rewrite Hq3.
    + rewrite Hch in Hls'. by simplify_eq.
Qed.

End stale_history.

Lemma prev_returns_to_removed_node_witness :
  ∃ a1 a2 a3,
    HarmoniaApp.play_next 0
      (app_ABC (Some 1%positive) true false mixer_playing) = Some a1
    ∧ HarmoniaApp.remove_from_queue_ui 0 a1 = Some a2
    ∧ HarmoniaApp.play_prev 0 a2 = Some a3
    ∧ DoublyLinkedList.current (HarmoniaApp.queue a3) = Some 1%positive
    ∧ chain_of (HarmoniaApp.nodes a3) (HarmoniaApp.queue a3)
      = Some [2%positive; 3%positive].
Proof.
  destruct (prev_returns_to_removed_node
              (app_ABC (Some 1%positive) true false mixer_playing)
              [1%positive; 2%positive; 3%positive] [song_A; song_B; song_C]
              0 1%positive 2%positive 0)
    as (a1 & a2 & a3 & Heq1 & Heq2 & Heq3 & Hc & Hch & _).
  - intros [l s p] m'. simpl. destruct l; intros ?; by simplify_eq.
  - reflexivity.
  - apply dllb_sound. vm_compute. reflexivity.
  - unfold holds. repeat constructor.
  - reflexivity.
  - reflexivity.
  - reflexivity.
  - exists a1, a2, a3. split; [exact Heq1|]. split; [exact Heq2|].
    split; [exact Heq3|]. split; [exact Hc|exact Hch].
Defined.

(** ** Rebuilding the queue from the view *)

Section rebuild_props.
Import DoublyLinkedList HarmoniaApp.
Context {M : Type} `{AudioBackend M}.
Implicit Types (a : HarmoniaApp M) (ls : list loc).

(** X15: switching shuffle off rebuilds the queue from the current view,
    whatever the queue held before: afterwards the queue is valid and its
    songs are those of the view in order.  [current] refers to a node
    holding the song that was current if that song is in the view, and is
    [None] otherwise; the history is not touched. *)
Theorem unshuffle_rebuilds_from_view a ls rand :
  is_shuffled a = true → dll (nodes a) (queue a) ls →
  ∃ a' ls',
    toggle_shuffle rand a = Some a'
    ∧ is_shuffled a' = false
    ∧ dll (nodes a') (queue a') ls'
    ∧ songs_of (nodes a') (queue a') = Some (current_view_songs a)
    ∧ history a' = history a
    ∧ (∀ c d, current (queue a) = Some c → get_data (nodes a) c = Some d →
         (d ∈ current_view_songs a →
            ∃ c', current (queue a') = Some c'
              ∧ get_data (nodes a') c' = Some d)
         ∧ (d ∉ current_view_songs a → current (queue a') = None))
    ∧ (current (queue a) = None → current (queue a') = None).
Proof.
  intros Hsh Hd.
  assert (∃ current_data,
            match current (queue a) with
            | Some c => get_data (nodes a) c ≫= λ d, Some (Some d)
            | None => Some None
            end = Some current_data
            ∧ (∀ c, current (queue a) = Some c →
                 get_data (nodes a) c = current_data)
            ∧ (current (queue a) = None → current_data = None))
    as (current_data & Hcd & Hcd_some & Hcd_none).
  { destruct (current (queue a)) as [c|] eqn:Hc; [|by exists None].
    pose proof (dll_current _ _ _ Hd _ Hc) as Hin.
    apply list_elem_of_lookup in Hin as [i Hi].
    destruct (linked_get_data _ _ _ _ (dll_linked _ _ _ Hd) Hi) as [d Hdc].
    exists (Some d). rewrite Hdc. split; [done|]. split; [|done].
    intros c' ?. by simplify_eq. }
  destruct (load_context_dll (λ s, bool_decide (Some s = current_data))
              (current_view_songs a) (nodes a) (clear (queue a)) [] [] None
              (dll_clear _ _))
    as (h2 & q2 & ls2 & target & Heq2 & Hd2 & Hds2 & _ & Hsome & Hnone).
  { unfold holds. constructor. }
  { done. }
  { by intros _ d ?%elem_of_nil. }
  simpl in Hd2, Hds2, Hsome, Hnone.
  assert (dll h2 (set_current target q2) ls2) as Hd2'.
  { apply dll_set_current; [done|]. intros c Hc. by apply Hsome. }
  eexists _, ls2. split.
  { unfold toggle_shuffle. rewrite Hsh. simpl. rewrite Hcd. simpl.
    by rewrite Heq2. }
  simpl. split_and!; try done.
  - by eapply (dll_songs_of h2 (set_current target q2)).
  - intros c d Hc Hdc.
    assert (current_data = Some d) as -> by (by rewrite <- (Hcd_some c)).
    split.
    + intros Hview. destruct target as [c'|].
      * destruct (Hsome c' eq_refl) as (_ & d' & Hd' & Hw).
        apply bool_decide_eq_true in Hw. simplify_eq. eauto.
      * specialize (Hnone eq_refl d Hview).
        by rewrite bool_decide_eq_true_2 in Hnone.
    + intros Hview. destruct target as [c'|]; [|done].
      destruct (Hsome c' eq_refl) as (Hin & d' & Hd' & Hw).
      apply bool_decide_eq_true in Hw. simplify_eq.
      exfalso. apply Hview. by eapply holds_elem.
  - intros Hc. rewrite (Hcd_none Hc) in Hsome.
    destruct target as [c'|]; [|done].
    destruct (Hsome c' eq_refl) as (_ & d' & _ & Hw).
    by apply bool_decide_eq_true in Hw.
Qed.


End rebuild_props.

Lemma unshuffle_rebuilds_from_view_witness :
  ∃ a', HarmoniaApp.toggle_shuffle (λ _, 0%nat)
          (HarmoniaApp.set_is_shuffled true
             (app_ABC (Some 3%positive) false false mixer_idle)) = Some a'
    ∧ DoublyLinkedList.songs_of (HarmoniaApp.nodes a') (HarmoniaApp.queue a')
      = Some [song_A; song_B; song_C]
    ∧ ∃ c', DoublyLinkedList.current (HarmoniaApp.queue a') = Some c'
        ∧ get_data (HarmoniaApp.nodes a') c' = Some song_C.
Proof.
  destruct (unshuffle_rebuilds_from_view
              (HarmoniaApp.set_is_shuffled true
                 (app_ABC (Some 3%positive) false false mixer_idle))
              [1%positive; 2%positive; 3%positive] (λ _, 0%nat))
    as (a' & ls' & Heq & _ & _ & Hs & _ & Hc & _).
  - reflexivity.
  - apply dllb_sound. vm_compute. reflexivity.
  - exists a'. split; [exact Heq|]. split; [exact Hs|].
    apply (proj1 (Hc 3%positive song_C eq_refl eq_refl)).
    apply list_elem_of_In. simpl. tauto.
Defined.


(** ** File names, playlists and their file *)

Section name_props.
Implicit Types (p s x y sep : string).

Lemma append_nil s : "" +:+ s = s.
Proof. reflexivity. Qed.

Lemma append_cons c x y : String c x +:+ y = String c (x +:+ y).
Proof. reflexivity. Qed.

Lemma append_assoc x y z : (x +:+ y) +:+ z = x +:+ y +:+ z.
Proof.
  induction x as [|c x IH]; [done|]. rewrite !append_cons. by f_equal.
Qed.

Lemma strip_prefix_app p r : strip_prefix p (p +:+ r) = Some r.
Proof.
  induction p as [|a p IH]; [done|]. rewrite append_cons. simpl.
  by rewrite bool_decide_eq_true_2.
Qed.

Lemma strip_prefix_Some p s r : strip_prefix p s = Some r → s = p +:+ r.
Proof.
  revert s. induction p as [|a p IH]; intros s Hs; simpl in *.
  { rewrite append_nil. congruence. }
  destruct s as [|b s]; [done|]. case_bool_decide; [|done].
  subst. rewrite append_cons. f_equal. by apply IH.
Qed.

Lemma strip_prefix_extend p x y r :
  strip_prefix p x = Some r → strip_prefix p (x +:+ y) = Some (r +:+ y).
Proof.
  intros ->%strip_prefix_Some. rewrite append_assoc.
  apply strip_prefix_app.
Qed.

Lemma strip_prefix_long p x y :
  (String.length p ≤ String.length x)%nat →
  strip_prefix p x = None → strip_prefix p (x +:+ y) = None.
Proof.
  revert x. induction p as [|a p IH]; intros x Hlen Hx; [done|].
  destruct x as [|b x]; simpl in *; [lia|]. rewrite ?append_cons. simpl.
  case_bool_decide; [|done]. apply IH; [lia|done].
Qed.

Lemma contains_app_r sep x y : contains sep y = true → contains sep (x +:+ y) = true.
Proof.
  intros Hy. induction x as [|c x IH]; [done|]. rewrite append_cons.
  simpl. rewrite IH. apply orb_true_r.
Qed.

Lemma contains_sep_app sep x y : contains sep (x +:+ sep +:+ y) = true.
Proof.
  apply contains_app_r. destruct (sep +:+ y) eqn:Hs; simpl;
    rewrite <- ?Hs, strip_prefix_app; done.
Qed.

Lemma split_once_Some sep s before after :
  sep ≠ EmptyString →
  Library.split_once sep s = Some (before, after) →
  s = before +:+ sep +:+ after ∧ contains sep before = false.
Proof.
  intros Hsep. revert before after.
  induction s as [|c s IH]; intros before after Hs; simpl in Hs.
  - destruct (strip_prefix sep EmptyString) as [r|] eqn:Hp; [|done].
    simplify_eq. apply strip_prefix_Some in Hp.
    destruct sep; [done|discriminate].
  - destruct (strip_prefix sep (String c s)) as [r|] eqn:Hp.
    + simplify_eq. split; [by apply strip_prefix_Some in Hp|].
      simpl. destruct sep; [done|]. simpl. done.
    + destruct (Library.split_once sep s) as [[b r]|] eqn:Hrec; [|done].
      simpl in Hs. injection Hs as <- <-.
      destruct (IH _ _ eq_refl) as [-> Hb]. split; [done|].
      change (contains sep (String c b)) with
        (bool_decide (is_Some (strip_prefix sep (String c b))) || contains sep b).
      rewrite Hb, orb_false_r.
      apply bool_decide_eq_false_2. intros [r' Hr'].
      apply (strip_prefix_extend _ _ (sep +:+ r)) in Hr'.
      rewrite append_cons in Hr'. congruence.
Qed.

Lemma split_once_None sep s :
  Library.split_once sep s = None → contains sep s = false.
Proof.
  induction s as [|c s IH]; simpl.
  - destruct (strip_prefix sep EmptyString) eqn:Hp; [done|]. intros _.
    rewrite orb_false_r. apply bool_decide_eq_false_2. by intros [? ?].
  - destruct (strip_prefix sep (String c s)) eqn:Hp; [done|].
    destruct (Library.split_once sep s) as [[b r]|]; [done|]. intros _.
    rewrite IH by done. rewrite orb_false_r.
    apply bool_decide_eq_false_2. by intros [? ?].
Qed.

Lemma split_once_least sep s before after :
  Library.split_once sep s = Some (before, after) →
  ∀ x y, s = x +:+ sep +:+ y → (String.length before ≤ String.length x)%nat.
Proof.
  revert before after.
  induction s as [|c s IH]; intros before after Hs x y Hxy; simpl in Hs.
  - destruct (strip_prefix sep EmptyString); [|done]. simplify_eq. simpl. lia.
  - destruct (strip_prefix sep (String c s)) as [r|] eqn:Hp.
    { simplify_eq. simpl. lia. }
    destruct (Library.split_once sep s) as [[b r]|] eqn:Hrec; [|done].
    simpl in Hs. injection Hs as <- <-.
    destruct x as [|c' x].
    { rewrite append_nil in Hxy. rewrite Hxy, strip_prefix_app in Hp. done. }
    rewrite append_cons in Hxy. injection Hxy as -> ->.
    specialize (IH _ _ eq_refl x y eq_refl). simpl. lia.
Qed.

Lemma length_append x y :
  String.length (x +:+ y) = (String.length x + String.length y)%nat.
Proof.
  induction x as [|c x IH]; [done|]. rewrite append_cons. simpl. by rewrite IH.
Qed.

Lemma split_once_first p l x y :
  contains (p +:+ String l "") (x +:+ p) = false →
  Library.split_once (p +:+ String l "") (x +:+ (p +:+ String l "") +:+ y)
  = Some (x, y).
Proof.
  set (sep := p +:+ String l ""). induction x as [|c x IH]; intros Hx.
  - rewrite append_nil. destruct (sep +:+ y) eqn:E; simpl;
      rewrite <- ?E, strip_prefix_app; done.
  - rewrite append_cons in Hx.
    change (contains sep (String c (x +:+ p))) with
      (bool_decide (is_Some (strip_prefix sep (String c (x +:+ p))))
       || contains sep (x +:+ p)) in Hx.
    apply orb_false_iff in Hx as [Hhere Hrest].
    apply bool_decide_eq_false_1 in Hhere.
    assert (strip_prefix sep (String c (x +:+ p)) = None) as Hnone.
    { destruct (strip_prefix sep (String c (x +:+ p))); [|done].
      by destruct Hhere. }
    apply (strip_prefix_long _ _ (String l "" +:+ y)) in Hnone.
    2:{ unfold sep. simpl. rewrite !length_append. simpl. lia. }
    rewrite append_cons, append_assoc in Hnone.
    rewrite <- (append_assoc p) in Hnone. fold sep in Hnone.
    rewrite append_cons. simpl. simpl in Hnone. rewrite Hnone.
    rewrite (IH Hrest). done.
Qed.

(** X17: the name parsing of [refresh_library].  A file name without the
    text [" - "] gets the artist ["Unknown Artist"] and is its own title.
    Otherwise the name is cut at the FIRST [" - "]: the name is
    artist, [" - "], title put together, and no other way of cutting the
    name at a [" - "] has a shorter first part. *)
Theorem parse_name_first_separator name :
  (contains " - " name = false ∧
   Library.parse_name name = ("Unknown Artist", name)) ∨
  (∃ artist title,
     contains " - " name = true ∧
     Library.parse_name name = (artist, title) ∧
     name = artist +:+ " - " +:+ title ∧
     contains " - " artist = false ∧
     ∀ x y, name = x +:+ " - " +:+ y →
            (String.length artist ≤ String.length x)%nat).
Proof.
  unfold Library.parse_name.
  destruct (contains " - " name) eqn:Hc; [right|by left].
  destruct (Library.split_once " - " name) as [[artist title]|] eqn:Hs.
  - exists artist, title. apply split_once_Some in Hs as Hs'; [|done].
    destruct Hs' as [-> Hno]. do 4 (split; [done|]).
    by apply (split_once_least _ _ _ _ Hs).
  - apply split_once_None in Hs. congruence.
Qed.

(** X18: a file named artist, [" - "], title is parsed back into that artist
    and that title, provided the artist followed by [" -"] does not contain
    [" - "] (so that the first [" - "] of the name is the intended one). *)
Theorem parse_name_round_trip artist title :
  contains " - " (artist +:+ " -") = false →
  Library.parse_name (artist +:+ " - " +:+ title) = (artist, title).
Proof.
  intros Hartist. unfold Library.parse_name.
  rewrite contains_sep_app.
  pose proof (split_once_first " -" (Ascii.ascii_of_nat 32) artist title Hartist)
    as Hsplit.
  change (" -" +:+ String (Ascii.ascii_of_nat 32) "") with " - " in Hsplit.
  by rewrite Hsplit.
Qed.

End name_props.

Lemma parse_name_round_trip_witness :
  contains " - " ("Daft Punk" +:+ " -") = false ∧
  Library.parse_name "Daft Punk - One More Time" = ("Daft Punk", "One More Time").
Proof.
  split; [vm_compute; reflexivity|].
  apply (parse_name_round_trip "Daft Punk" "One More Time").
  vm_compute. reflexivity.
Defined.

Section playlist_props.
Implicit Types (playlists : gmap string (list Song)) (song s : Song).

Lemma add_missing_spec source target count :
  ∃ added,
    Library.add_missing source target count
    = (target ++ added, (count + length added)%nat) ∧
    NoDup added ∧ sublist added source ∧
    ∀ s, s ∈ added ↔ s ∈ source ∧ s ∉ target.
Proof.
  revert target count.
  induction source as [|song rest IH]; intros target count; simpl.
  { exists []. rewrite app_nil_r, Nat.add_0_r. split_and!; try done.
    - constructor.
    - intros s. split; [by intros ?%elem_of_nil|]. by intros [?%elem_of_nil _]. }
  case_bool_decide as Hin.
  - destruct (IH (target ++ [song]) (S count)) as (added & -> & Hnd & Hsub & Hmem).
    exists (song :: added). split_and!.
    + rewrite <- app_assoc. simpl. do 2 f_equal. lia.
    + constructor; [|done]. rewrite Hmem. intros [_ Hn]. apply Hn.
      apply elem_of_app. right. apply list_elem_of_singleton. done.
    + by constructor.
    + intros s. rewrite elem_of_cons, Hmem, elem_of_cons.
      rewrite elem_of_app, list_elem_of_singleton.
      destruct (decide (s = song)) as [->|]; [tauto|]. tauto.
  - try apply dec_stable in Hin.
    destruct (IH target count) as (added & -> & Hnd & Hsub & Hmem).
    exists added. split_and!; try done.
    + by constructor.
    + intros s. rewrite Hmem, elem_of_cons.
      destruct (decide (s = song)) as [->|]; [tauto|]. tauto.
Qed.

Lemma add_missing_all_in source target count :
  (∀ s, s ∈ source → s ∈ target) →
  Library.add_missing source target count = (target, count).
Proof.
  induction source as [|song rest IH]; intros Hall; simpl; [done|].
  rewrite bool_decide_eq_false_2.
  - apply IH. intros s Hs. apply Hall. by right.
  - intros Hn. apply Hn, Hall. by left.
Qed.

(** X19: [add_playlist_to_playlist] keeps the target's songs in place and
    puts after them the songs of the source that the target lacked: each
    once, in the order of the source.  No other playlist changes, and the
    count reported is the number of songs added. *)
Theorem add_playlist_to_playlist_merges source_name target_name playlists
    source_songs target_songs :
  playlists !! source_name = Some source_songs →
  playlists !! target_name = Some target_songs →
  ∃ added,
    Library.add_playlist_to_playlist source_name target_name playlists
    = Some (<[target_name := target_songs ++ added]> playlists, length added) ∧
    NoDup added ∧ sublist added source_songs ∧
    (∀ s, s ∈ added ↔ s ∈ source_songs ∧ s ∉ target_songs) ∧
    (NoDup target_songs → NoDup (target_songs ++ added)).
Proof.
  intros Hsrc Htgt. unfold Library.add_playlist_to_playlist.
  rewrite Hsrc, Htgt. cbn [mbind option_bind].
  destruct (add_missing_spec source_songs target_songs 0)
    as (added & -> & Hnd & Hsub & Hmem).
  exists added. split_and!; try done.
  intros Hnd'. apply NoDup_app. split_and!; try done.
  intros s Hs Hs'. apply Hmem in Hs'. tauto.
Qed.

(** X20: adding a playlist to another a second time changes nothing and
    reports a count of zero, also when source and target are the same
    playlist. *)
Theorem add_playlist_to_playlist_again source_name target_name playlists
    playlists' count :
  Library.add_playlist_to_playlist source_name target_name playlists
  = Some (playlists', count) →
  Library.add_playlist_to_playlist source_name target_name playlists'
  = Some (playlists', O).
Proof.
  unfold Library.add_playlist_to_playlist. intros Hfirst.
  destruct (playlists !! source_name) as [src|] eqn:Hsrc; [|done].
  destruct (playlists !! target_name) as [tgt|] eqn:Htgt; [|done].
  cbn [mbind option_bind] in Hfirst.
  destruct (add_missing_spec src tgt 0) as (added & Hadd & Hnd & Hsub & Hmem).
  rewrite Hadd in Hfirst. injection Hfirst as <- <-.
  rewrite lookup_insert_eq.
  assert (∃ src', <[target_name := tgt ++ added]> playlists !! source_name
                  = Some src' ∧ ∀ s, s ∈ src' → s ∈ tgt ++ added)
    as (src' & -> & Hall).
  { destruct (decide (target_name = source_name)) as [->|Hne].
    - rewrite lookup_insert_eq. eauto.
    - rewrite lookup_insert_ne by done. exists src. split; [done|].
      intros s Hs. apply elem_of_app.
      destruct (decide (s ∈ tgt)); [by left|]. right. by apply Hmem. }
  cbn [mbind option_bind]. rewrite (add_missing_all_in _ _ _ Hall).
  by rewrite insert_insert_eq.
Qed.

(** X21: [add_to_playlist] keeps a playlist free of duplicates: the song is
    put at the end when it is missing and nothing changes when it is
    there, so that adding the same song again has no effect. *)
Theorem add_to_playlist_once pl_name song playlists target :
  playlists !! pl_name = Some target →
  NoDup target →
  ∃ playlists' target',
    Library.add_to_playlist pl_name song playlists = Some playlists' ∧
    playlists' !! pl_name = Some target' ∧
    NoDup target' ∧ target `prefix_of` target' ∧
    (∀ s, s ∈ target' ↔ s ∈ target ∨ s = song) ∧
    (∀ other, other ≠ pl_name → playlists' !! other = playlists !! other) ∧
    Library.add_to_playlist pl_name song playlists' = Some playlists'.
Proof.
  intros Htgt Hnd. unfold Library.add_to_playlist. rewrite Htgt.
  cbn [mbind option_bind]. case_bool_decide as Hin.
  - exists (<[pl_name := target ++ [song]]> playlists), (target ++ [song]).
    rewrite lookup_insert_eq. cbn [mbind option_bind].
    rewrite bool_decide_eq_false_2.
    2:{ intros Hn. apply Hn, elem_of_app. right. by apply list_elem_of_singleton. }
    split_and!; try done.
    + apply NoDup_app. split_and!; [done| |apply NoDup_singleton].
      intros s Hs ->%list_elem_of_singleton. done.
    + by exists [song].
    + intros s. by rewrite elem_of_app, list_elem_of_singleton.
    + intros other Hne. by rewrite lookup_insert_ne.
  - try apply dec_stable in Hin. exists playlists, target.
    rewrite Htgt. cbn [mbind option_bind].
    rewrite bool_decide_eq_false_2 by (intros Hn; by apply Hn).
    split_and!; try done.
    intros s. split; [by left|]. by intros [?| ->].
Qed.

Lemma song_at_Some library p s :
  Library.song_at library p = Some s → s ∈ library ∧ path s = p.
Proof.
  unfold Library.song_at. intros Hf. apply find_some in Hf as [Hin Hp].
  split; [by apply list_elem_of_In|]. by apply bool_decide_eq_true_1 in Hp.
Qed.

Lemma song_at_None library p :
  Library.song_at library p = None → p ∉ path <$> library.
Proof.
  unfold Library.song_at. intros Hf Hin.
  apply list_elem_of_fmap in Hin as (s & -> & Hs).
  apply list_elem_of_In in Hs.
  pose proof (find_none _ _ Hf s Hs) as Hno. simpl in Hno.
  by rewrite bool_decide_eq_true_2 in Hno.
Qed.

Lemma song_at_path library s :
  NoDup (path <$> library) → s ∈ library →
  Library.song_at library (path s) = Some s.
Proof.
  unfold Library.song_at.
  induction library as [|s' library IH]; intros Hnd Hs; simpl.
  { by apply elem_of_nil in Hs. }
  rewrite fmap_cons in Hnd. apply NoDup_cons in Hnd as [Hfresh Hnd].
  case_bool_decide as Hp.
  - apply elem_of_cons in Hs as [->|Hs]; [done|].
    destruct Hfresh. rewrite Hp. apply list_elem_of_fmap. eauto.
  - apply elem_of_cons in Hs as [->|Hs]; [done|]. by apply IH.
Qed.

Lemma omap_song_at library paths :
  ∃ songs,
    omap (Library.song_at library) paths = songs ∧
    path <$> songs = List.filter (λ p, bool_decide (p ∈ path <$> library)) paths ∧
    Forall (λ s, s ∈ library) songs.
Proof.
  eexists. split; [done|].
  induction paths as [|p paths [IHp IHf]]; simpl; [by split|].
  destruct (Library.song_at library p) as [s|] eqn:Hs.
  - apply song_at_Some in Hs as [Hin <-].
    rewrite bool_decide_eq_true_2 by (apply list_elem_of_fmap; eauto).
    split; [|by constructor]. rewrite fmap_cons. f_equal. exact IHp.
  - apply song_at_None in Hs. by rewrite bool_decide_eq_false_2.
Qed.

(** X22: what [load_playlists] builds from the playlists file.  Every name
    of the file is bound to songs of the library only; their paths are the
    paths listed in the file that some library song has, in the order of
    the file, so that paths unknown to the library are left out.  A
    playlist whose name is not in the file is kept as it was. *)
Theorem load_playlists_known_paths library data playlists name :
  match data !! name with
  | Some paths =>
      ∃ songs,
        Library.load_playlists library data playlists !! name = Some songs ∧
        path <$> songs
        = List.filter (λ p, bool_decide (p ∈ path <$> library)) paths ∧
        Forall (λ s, s ∈ library) songs
  | None =>
      Library.load_playlists library data playlists !! name
      = playlists !! name
  end.
Proof.
  unfold Library.load_playlists. rewrite lookup_union, lookup_fmap.
  destruct (data !! name) as [paths|]; simpl.
  - destruct (omap_song_at library paths) as (songs & <- & Hp & Hall).
    eexists. split; [|by split].
    by destruct (playlists !! name).
  - by destruct (playlists !! name).
Qed.

(** X23: saving the playlists and loading the file again gives the same
    playlists back, provided no two songs of the library share a path and
    every song of a playlist is a song of the library.  Playlists present
    before loading are replaced when the file has their name and kept
    otherwise. *)
Theorem save_load_round_trip library playlists playlists0 :
  NoDup (path <$> library) →
  (∀ name songs, playlists !! name = Some songs → Forall (λ s, s ∈ library) songs) →
  Library.load_playlists library (Library.save_playlists playlists) playlists0
  = playlists ∪ playlists0.
Proof.
  intros Hnd Hin. unfold Library.load_playlists, Library.save_playlists.
  f_equal. rewrite <- map_fmap_compose. apply map_eq. intros name.
  rewrite lookup_fmap. destruct (playlists !! name) as [songs|] eqn:Hs; [|done].
  simpl. f_equal. specialize (Hin _ _ Hs). clear Hs.
  induction Hin as [|s songs Hs' _ IH]; [done|]. rewrite fmap_cons.
  change (omap (Library.song_at library) (path s :: (path <$> songs)))
    with (match Library.song_at library (path s) with
          | Some y => y :: omap (Library.song_at library) (path <$> songs)
          | None => omap (Library.song_at library) (path <$> songs)
          end).
  rewrite (song_at_path _ _ Hnd Hs'). f_equal. exact IH.
Qed.

End playlist_props.

Lemma add_playlist_to_playlist_merges_witness :
  playlists_RC !! "Rock" = Some [song_A; song_B] ∧
  playlists_RC !! "Chill" = Some [song_B; song_C] ∧
  ∃ added,
    Library.add_playlist_to_playlist "Rock" "Chill" playlists_RC
    = Some (<["Chill" := [song_B; song_C] ++ added]> playlists_RC, length added) ∧
    (∀ s, s ∈ added ↔ s ∈ [song_A; song_B] ∧ s ∉ [song_B; song_C]).
Proof.
  split; [vm_compute; reflexivity|]. split; [vm_compute; reflexivity|].
  destruct (add_playlist_to_playlist_merges "Rock" "Chill" playlists_RC
              [song_A; song_B] [song_B; song_C])
    as (added & Hadd & _ & _ & Hmem & _);
    [vm_compute; reflexivity|vm_compute; reflexivity|].
  exists added. split; [exact Hadd|exact Hmem].
Defined.

Lemma add_playlist_to_playlist_again_witness :
  Library.add_playlist_to_playlist "Rock" "Chill" playlists_RC
  = Some (<["Chill" := [song_B; song_C; song_A]]> playlists_RC, 1%nat) ∧
  Library.add_playlist_to_playlist "Rock" "Chill"
    (<["Chill" := [song_B; song_C; song_A]]> playlists_RC)
  = Some (<["Chill" := [song_B; song_C; song_A]]> playlists_RC, O).
Proof.
  split; [vm_compute; reflexivity|].
  apply (add_playlist_to_playlist_again "Rock" "Chill" playlists_RC _ 1%nat).
  vm_compute. reflexivity.
Defined.

Lemma add_to_playlist_once_witness :
  playlists_RC !! "Rock" = Some [song_A; song_B] ∧
  NoDup [song_A; song_B] ∧
  ∃ playlists' target',
    Library.add_to_playlist "Rock" song_C playlists_RC = Some playlists' ∧
    playlists' !! "Rock" = Some target' ∧
    NoDup target' ∧
    Library.add_to_playlist "Rock" song_C playlists' = Some playlists'.
Proof.
  assert (NoDup [song_A; song_B]) as Hnd.
  { apply (bool_decide_unpack _). vm_compute. exact I. }
  split; [vm_compute; reflexivity|]. split; [exact Hnd|].
  destruct (add_to_playlist_once "Rock" song_C playlists_RC [song_A; song_B])
    as (playlists' & target' & Hadd & Hlook & Hnd' & _ & _ & _ & Hagain);
    [vm_compute; reflexivity|exact Hnd|].
  exists playlists', target'. split_and!; assumption.
Defined.

Lemma save_load_round_trip_witness :
  NoDup (path <$> [song_A; song_B; song_C]) ∧
  Library.load_playlists [song_A; song_B; song_C]
    (Library.save_playlists playlists_RC) ∅
  = playlists_RC ∪ ∅.
Proof.
  assert (NoDup (path <$> [song_A; song_B; song_C])) as Hnd.
  { apply (bool_decide_unpack _). vm_compute. exact I. }
  split; [exact Hnd|].
  apply (save_load_round_trip [song_A; song_B; song_C] playlists_RC ∅ Hnd).
  intros name songs Hlook.
  assert (songs = [song_A; song_B] ∨ songs = [song_B; song_C]) as [->| ->].
  { unfold playlists_RC in Hlook.
    apply lookup_insert_Some in Hlook as [[_ <-]|[_ Hlook]]; [by left|].
    apply lookup_insert_Some in Hlook as [[_ <-]|[_ Hlook]]; [by right|].
    by rewrite lookup_empty in Hlook. }
  - apply (bool_decide_unpack _). vm_compute. exact I.
  - apply (bool_decide_unpack _). vm_compute. exact I.
Defined.

(** ** Pausing, resuming and tracks that end at once *)

Section playback_props.
Import DoublyLinkedList HarmoniaApp.
Context {M : Type} `{AudioBackend M}.
Implicit Types (a : HarmoniaApp M) (ls : list loc).

(** X24: pause and resume.  While Playing, with no other song selected,
    [toggle_play] pauses; a second [toggle_play] resumes with [unpause()]
    and without a new [play()], provided the backend keeps a playback
    position while paused and is busy again once unpaused.  Queue, heap and
    history are the same after the two calls, and one more poll of
    [check_music_end] is scheduled. *)
Theorem toggle_play_pause_resume a rand depth depth' c :
  HAS_DEPS a = true → is_playing a = true → current (queue a) = Some c →
  is_paused (music_pause (mixer a)) = true →
  music_get_busy (music_unpause (music_pause (mixer a))) = true →
  ∃ a1 a2,
    toggle_play rand depth None a = Some a1 ∧
    controller_state a1 = Paused ∧ mixer a1 = music_pause (mixer a) ∧
    toggle_play rand depth' None a1 = Some a2 ∧
    controller_state a2 = Playing ∧
    mixer a2 = music_unpause (music_pause (mixer a)) ∧
    queue a2 = queue a ∧ nodes a2 = nodes a ∧ history a2 = history a ∧
    polls a2 = S (polls a).
Proof.
  intros Hdeps Hplaying Hc Hpos Hbusy.
  eexists _, _. split.
  { unfold toggle_play. rewrite Hdeps, Hplaying. simpl. reflexivity. }
  split. { unfold controller_state. simpl. by rewrite Hpos. }
  split; [done|]. split.
  { unfold toggle_play. simpl. rewrite Hdeps, Hc, Hpos. simpl.
    rewrite Hbusy. simpl. unfold check_music_end, pygame. simpl.
    rewrite Hdeps. simpl. rewrite Hbusy. simpl. reflexivity. }
  by split_and!.
Qed.

(** X25: the row of the current song selected.  While Playing,
    [toggle_play] with the row of the current song selected pauses, and a
    second call resumes with [unpause()] (for a backend that keeps a
    playback position while paused and is busy again once unpaused): the
    selection only counts when it differs from the current song, so the
    song is not started again and queue, heap and history are the same
    after each of the two calls. *)
Theorem toggle_play_selected_current a rand depth depth' vals c s :
  HAS_DEPS a = true → is_playing a = true →
  current (queue a) = Some c → get_data (nodes a) c = Some s →
  song_of_row (current_view_songs a) vals = Some s →
  is_paused (music_pause (mixer a)) = true →
  music_get_busy (music_unpause (music_pause (mixer a))) = true →
  ∃ a1 a2,
    toggle_play rand depth (Some vals) a = Some a1 ∧
    controller_state a1 = Paused ∧ mixer a1 = music_pause (mixer a) ∧
    queue a1 = queue a ∧ nodes a1 = nodes a ∧ history a1 = history a ∧
    toggle_play rand depth' (Some vals) a1 = Some a2 ∧
    controller_state a2 = Playing ∧
    mixer a2 = music_unpause (music_pause (mixer a)) ∧
    queue a2 = queue a ∧ nodes a2 = nodes a ∧ history a2 = history a.
Proof.
  intros Hdeps Hplaying Hc Hd Hrow Hpos Hbusy.
  assert (bool_decide (s ≠ s) = false) as Hsame
    by (apply bool_decide_eq_false_2; intros Hne; by apply Hne).
  eexists _, _. split.
  { unfold toggle_play. rewrite Hdeps, Hrow, Hc, Hd. cbn [mbind option_bind negb].
    rewrite Hsame, Hplaying. reflexivity. }
  split. { unfold controller_state. simpl. by rewrite Hpos. }
  do 4 (split; [done|]). split.
  { unfold toggle_play. simpl. rewrite Hdeps, Hrow, Hc, Hd.
    cbn [mbind option_bind negb]. rewrite Hsame, Hpos. simpl.
    rewrite Hbusy. simpl. unfold check_music_end, pygame. simpl.
    rewrite Hdeps. simpl. rewrite Hbusy. simpl. reflexivity. }
  by split_and!.
Qed.

(** With a backend that is never busy, [play_current] on a live current
    node starts the song and hands over to [play_next] at once; if that
    call fails, the state it was given is the result. *)
Lemma play_current_not_busy (k : HarmoniaApp M → option (HarmoniaApp M)) a c :
  never_busy M →
  HAS_DEPS a = true → current (queue a) = Some c → is_Some (nodes a !! c) →
  ∃ a1, play_current k a = Some (default a1 (k a1))
    ∧ queue a1 = queue a ∧ nodes a1 = nodes a ∧ history a1 = history a
    ∧ HAS_DEPS a1 = true ∧ is_looping a1 = is_looping a
    ∧ is_playing a1 = true.
Proof.
  intros (Hload & Hplay & Hbusy) Hdeps Hc [n Hn]. unfold play_current.
  rewrite Hc, Hdeps. simpl. unfold get_data. rewrite Hn. simpl.
  destruct (Sound_get_length (mixer a) (path (data n))); simpl;
    (destruct (Hload (path (data n)) (mixer a)) as [m1 ->]);
    (destruct (Hplay m1) as [m2 ->]);
    unfold check_music_end, pygame; simpl; rewrite Hdeps; simpl;
    rewrite Hbusy; simpl;
    match goal with
    | |- context [k ?b] =>
        exists b; split; [by destruct (k b)|by split_and!]
    end.
Qed.

Lemma drop_last_singleton ls i c :
  ls !! i = Some c → length ls = S i → drop i ls = [c] ∧ last ls = Some c.
Proof.
  intros Hi Hl.
  assert (drop i ls = [c]) as Hdrop.
  { apply list_eq. intros [|j]; rewrite lookup_drop.
    - by rewrite Nat.add_0_r.
    - simpl. apply lookup_ge_None. lia. }
  split; [done|].
  rewrite <- (take_drop i ls), Hdrop. apply last_snoc.
Qed.

Lemma play_next_runs_to_end ls depth : ∀ a i c,
  never_busy M →
  dll (nodes a) (queue a) ls → ls !! i = Some c →
  current (queue a) = Some c →
  HAS_DEPS a = true → is_looping a = false →
  (length ls ≤ S i + depth)%nat →
  ∃ a', play_next depth a = Some a'
    ∧ current (queue a') = last ls
    ∧ Stack.items (history a') = Stack.items (history a) ++ drop i ls
    ∧ is_playing a' = false
    ∧ nodes a' = nodes a.
Proof.
  induction depth as [|d IH]; intros a i c Hmute Hd Hi Hc Hdeps Hloop Hlen;
    pose proof (linked_get_next _ _ _ _ (dll_linked _ _ _ Hd) Hi) as Hn;
    simpl; unfold play_next_body; rewrite Hc; simpl; rewrite Hn; simpl.
  - assert (ls !! S i = None) as Hend by (apply lookup_ge_None; lia).
    rewrite Hend, Hloop. eexists. split; [done|]. simpl.
    assert (length ls = S i) as Hl
      by (apply lookup_lt_Some in Hi; lia).
    by destruct (drop_last_singleton ls i c Hi Hl) as [-> ->].
  - destruct (ls !! S i) as [x|] eqn:Hx.
    + set (a0 := set_queue_current (Some x)
                   (set_history (Stack.push c (history a)) a)).
      destruct (play_current_not_busy (play_next d) a0 x Hmute)
        as (a1 & -> & Hq1 & Hn1 & Hh1 & Hd1 & Hl1 & _); [done|done| |].
      { simpl. by eapply linked_succ; [apply (dll_linked _ _ _ Hd)|]. }
      destruct (IH a1 (S i) x Hmute) as (a' & -> & Hcur & Hhist & Hp & Hnodes).
      * rewrite Hq1, Hn1. simpl. apply dll_set_current; [done|].
        intros ? ?; simplify_eq. by eapply list_elem_of_lookup_2.
      * done.
      * by rewrite Hq1.
      * done.
      * by rewrite Hl1.
      * lia.
      * exists a'. split; [done|]. split; [done|].
        rewrite Hhist, Hh1, Hnodes, Hn1. simpl. split_and!; try done.
        rewrite <- app_assoc. f_equal.
        by rewrite (drop_S _ _ _ Hi).
    + rewrite Hloop. eexists. split; [done|]. simpl.
      assert (length ls = S i) as Hl.
      { apply lookup_lt_Some in Hi. apply lookup_ge_None in Hx. lia. }
      by destruct (drop_last_singleton ls i c Hi Hl) as [-> ->].
Qed.

(** X26: tracks that end at once.  With a backend that is never busy and
    loop off, [play_current] does not stay on the current song: each song
    from the current one on is started and left again, every node from the
    current one to the tail is pushed onto the history in queue order, and
    the run ends with [current] on the tail and [is_playing] false. *)
Theorem play_current_runs_to_end a ls i c depth :
  never_busy M →
  dll (nodes a) (queue a) ls → ls !! i = Some c →
  current (queue a) = Some c →
  HAS_DEPS a = true → is_looping a = false →
  (length ls ≤ S i + depth)%nat →
  ∃ a', play_current_at depth a = Some a'
    ∧ current (queue a') = last ls
    ∧ Stack.items (history a') = Stack.items (history a) ++ drop i ls
    ∧ is_playing a' = false
    ∧ nodes a' = nodes a.
Proof.
  intros Hmute Hd Hi Hc Hdeps Hloop Hlen. unfold play_current_at.
  destruct (play_current_not_busy (play_next depth) a c Hmute)
    as (a1 & -> & Hq1 & Hn1 & Hh1 & Hd1 & Hl1 & _); [done|done| |].
  { by eapply linked_succ; [apply (dll_linked _ _ _ Hd)|]. }
  destruct (play_next_runs_to_end ls depth a1 i c Hmute)
    as (a' & -> & Hcur & Hhist & Hp & Hnodes); try done.
  - by rewrite Hq1, Hn1.
  - by rewrite Hq1.
  - by rewrite Hl1.
  - exists a'. rewrite Hhist, Hh1, Hnodes, Hn1. by split_and!.
Qed.

Lemma play_next_runs_to_bound ls depth : ∀ a i c,
  never_busy M →
  dll (nodes a) (queue a) ls → ls !! i = Some c →
  current (queue a) = Some c →
  HAS_DEPS a = true → is_looping a = true →
  ∃ a', play_next depth a = Some a'
    ∧ is_playing a' = true
    ∧ length (Stack.items (history a'))
      = (length (Stack.items (history a)) + S depth)%nat
    ∧ nodes a' = nodes a
    ∧ dll (nodes a') (queue a') ls.
Proof.
  induction depth as [|d IH]; intros a i c Hmute Hd Hi Hc Hdeps Hloop;
    pose proof (linked_get_next _ _ _ _ (dll_linked _ _ _ Hd) Hi) as Hn;
    simpl; unfold play_next_body; rewrite Hc; simpl; rewrite Hn; simpl;
    (assert (∃ x j, (match ls !! S i with
                     | Some x => Some x | None => head (queue a) end) = Some x
                    ∧ ls !! j = Some x) as (x & j & Hx & Hj);
     [destruct (ls !! S i) as [x|] eqn:Hx; [by exists x, (S i)|];
      rewrite (dll_head _ _ _ Hd);
      destruct ls as [|x ls']; [done|]; by exists x, O|]);
    (assert (is_Some (nodes a !! x)) as Hlive
       by (by eapply linked_succ; [apply (dll_linked _ _ _ Hd)|])).
  - assert (∀ v, v = Some x →
              ∃ a', play_current (λ _, None)
                      (set_queue_current v
                         (set_history (Stack.push c (history a)) a)) = Some a'
                ∧ is_playing a' = true
                ∧ length (Stack.items (history a'))
                  = (length (Stack.items (history a)) + 1)%nat
                ∧ nodes a' = nodes a
                ∧ dll (nodes a') (queue a') ls) as Hk.
    { intros v ->.
      destruct (play_current_not_busy (λ _, None)
                  (set_queue_current (Some x)
                     (set_history (Stack.push c (history a)) a)) x Hmute)
        as (a1 & -> & Hq1 & Hn1 & Hh1 & Hd1 & Hl1 & Hp1); [done|done|done|].
      exists a1. simpl. rewrite Hh1, Hn1, Hq1. simpl.
      rewrite length_app. simpl. split; [done|]. split; [done|].
      split; [done|]. split; [done|].
      apply dll_set_current; [done|].
      intros ? ?; simplify_eq. by eapply list_elem_of_lookup_2. }
    destruct (ls !! S i) as [y|]; [by apply Hk|].
    rewrite Hloop. by apply Hk.
  - assert (∀ v, v = Some x →
              ∃ a', play_current (play_next d)
                      (set_queue_current v
                         (set_history (Stack.push c (history a)) a)) = Some a'
                ∧ is_playing a' = true
                ∧ length (Stack.items (history a'))
                  = (length (Stack.items (history a)) + S (S d))%nat
                ∧ nodes a' = nodes a
                ∧ dll (nodes a') (queue a') ls) as Hk.
    { intros v ->.
      destruct (play_current_not_busy (play_next d)
                  (set_queue_current (Some x)
                     (set_history (Stack.push c (history a)) a)) x Hmute)
        as (a1 & -> & Hq1 & Hn1 & Hh1 & Hd1 & Hl1 & _); [done|done|done|].
      destruct (IH a1 j x Hmute) as (a' & -> & Hp & Hlen & Hnodes & Hd').
      - rewrite Hq1, Hn1. simpl. apply dll_set_current; [done|].
        intros ? ?; simplify_eq. by eapply list_elem_of_lookup_2.
      - done.
      - by rewrite Hq1.
      - done.
      - by rewrite Hl1.
      - exists a'. simpl. rewrite Hlen, Hh1, Hnodes, Hn1. simpl.
        rewrite length_app. simpl. split; [done|]. split; [done|].
        split; [lia|]. split; [done|]. by rewrite Hnodes, Hn1 in Hd'. }
    destruct (ls !! S i) as [y|]; [by apply Hk|].
    rewrite Hloop. by apply Hk.
Qed.

(** X27: with a backend that is never busy and loop on, the run that
    [play_current] starts on a valid queue does not end by itself: the
    nested calls [play_current] → [check_music_end] → [play_next] →
    [play_current] go on until the bound on their nesting ends them.  For
    every bound [depth] the call returns (the innermost [play_current]
    catches the failure) with [is_playing] true and exactly [depth + 1]
    more nodes on the history; heap and chain are untouched. *)
Theorem play_current_runs_to_bound a ls i c depth :
  never_busy M →
  dll (nodes a) (queue a) ls → ls !! i = Some c →
  current (queue a) = Some c →
  HAS_DEPS a = true → is_looping a = true →
  ∃ a', play_current_at depth a = Some a'
    ∧ is_playing a' = true
    ∧ length (Stack.items (history a'))
      = (length (Stack.items (history a)) + S depth)%nat
    ∧ nodes a' = nodes a
    ∧ dll (nodes a') (queue a') ls.
Proof.
  intros Hmute Hd Hi Hc Hdeps Hloop. unfold play_current_at.
  destruct (play_current_not_busy (play_next depth) a c Hmute)
    as (a1 & -> & Hq1 & Hn1 & Hh1 & Hd1 & Hl1 & _); [done|done| |].
  { by eapply linked_succ; [apply (dll_linked _ _ _ Hd)|]. }
  destruct (play_next_runs_to_bound ls depth a1 i c Hmute)
    as (a' & -> & Hp & Hlen & Hnodes & Hd'); try done.
  - by rewrite Hq1, Hn1.
  - by rewrite Hq1.
  - by rewrite Hl1.
  - exists a'. rewrite Hlen, Hh1. split; [done|]. split; [done|].
    split; [done|]. split; [congruence|done].
Qed.

End playback_props.

Lemma toggle_play_pause_resume_witness :
  ∃ a1 a2,
    HarmoniaApp.toggle_play (λ _, 0%nat) 0 None
      (app_ABC (Some 2%positive) true false mixer_playing) = Some a1 ∧
    HarmoniaApp.controller_state a1 = HarmoniaApp.Paused ∧
    HarmoniaApp.toggle_play (λ _, 0%nat) 0 None a1 = Some a2 ∧
    HarmoniaApp.controller_state a2 = HarmoniaApp.Playing ∧
    HarmoniaApp.queue a2
    = HarmoniaApp.queue (app_ABC (Some 2%positive) true false mixer_playing).
Proof.
  destruct (toggle_play_pause_resume
              (app_ABC (Some 2%positive) true false mixer_playing)
              (λ _, 0%nat) 0 0 2%positive)
    as (a1 & a2 & H1 & Hs1 & _ & H2 & Hs2 & _ & Hq & _);
    [reflexivity|reflexivity|reflexivity|reflexivity|reflexivity|].
  exists a1, a2. split_and!; assumption.
Defined.

Lemma toggle_play_selected_current_witness :
  ∃ a1 a2,
    HarmoniaApp.toggle_play (λ _, 0%nat) 0 (Some ("B", "y"))
      (app_ABC (Some 2%positive) true false mixer_playing) = Some a1 ∧
    HarmoniaApp.controller_state a1 = HarmoniaApp.Paused ∧
    HarmoniaApp.toggle_play (λ _, 0%nat) 0 (Some ("B", "y")) a1 = Some a2 ∧
    HarmoniaApp.controller_state a2 = HarmoniaApp.Playing ∧
    HarmoniaApp.queue a2
    = HarmoniaApp.queue (app_ABC (Some 2%positive) true false mixer_playing) ∧
    HarmoniaApp.nodes a2 = heap_ABC.
Proof.
  destruct (toggle_play_selected_current
              (app_ABC (Some 2%positive) true false mixer_playing)
              (λ _, 0%nat) 0 0 ("B", "y") 2%positive song_B)
    as (a1 & a2 & H1 & Hs1 & _ & _ & _ & _ & H2 & Hs2 & _ & Hq & Hn & _);
    [reflexivity|reflexivity|reflexivity|reflexivity|vm_compute; reflexivity
    |reflexivity|reflexivity|].
  exists a1, a2. split_and!; assumption.
Defined.

Lemma play_current_runs_to_end_witness :
  ∃ a', HarmoniaApp.play_current_at 2 (app_mute (Some 1%positive) false)
        = Some a'
    ∧ DoublyLinkedList.current (HarmoniaApp.queue a') = Some 3%positive
    ∧ Stack.items (HarmoniaApp.history a')
      = [1%positive; 2%positive; 3%positive]
    ∧ HarmoniaApp.is_playing a' = false.
Proof.
  destruct (play_current_runs_to_end (app_mute (Some 1%positive) false)
              [1%positive; 2%positive; 3%positive] 0 1%positive 2)
    as (a' & Heq & Hc & Hh & Hp & _).
  - split_and!; [by eexists|by eexists|reflexivity].
  - apply dllb_sound. vm_compute. reflexivity.
  - reflexivity.
  - reflexivity.
  - reflexivity.
  - reflexivity.
  - simpl. lia.
  - exists a'. split_and!; assumption.
Defined.

Lemma play_current_runs_to_bound_witness :
  ∃ a', HarmoniaApp.play_current_at 7 (app_mute (Some 1%positive) true)
        = Some a'
    ∧ HarmoniaApp.is_playing a' = true
    ∧ length (Stack.items (HarmoniaApp.history a')) = 8%nat.
Proof.
  destruct (play_current_runs_to_bound (app_mute (Some 1%positive) true)
              [1%positive; 2%positive; 3%positive] 0 1%positive 7)
    as (a' & Heq & Hp & Hlen & _).
  - split_and!; [by eexists|by eexists|reflexivity].
  - apply dllb_sound. vm_compute. reflexivity.
  - reflexivity.
  - reflexivity.
  - reflexivity.
  - reflexivity.
  - exists a'. split; [exact Heq|]. split; [exact Hp|exact Hlen].
Defined.

(** ** [play_next] at the tail *)

Section next_props.
Import DoublyLinkedList HarmoniaApp.
Context {M : Type} `{AudioBackend M}.
Implicit Types (a b : HarmoniaApp M) (ls : list loc).

(** On a valid queue [play_current] always returns, whatever the backend
    does; it keeps the chain and can only extend the history. *)
Lemma play_current_total k a ls :
  extends_history ls k →
  dll (nodes a) (queue a) ls →
  ∃ a', play_current k a = Some a'
    ∧ nodes a' = nodes a ∧ dll (nodes a') (queue a') ls
    ∧ Stack.items (history a) `prefix_of` Stack.items (history a').
Proof.
  intros Hk Hd. unfold play_current.
  destruct (current (queue a)) as [c|] eqn:Hc; [|by exists a].
  destruct (HAS_DEPS a) eqn:Hdeps; [|by exists a]. simpl.
  pose proof (dll_current _ _ _ Hd _ Hc) as Hin.
  apply list_elem_of_lookup in Hin as [i Hi].
  destruct (linked_get_data _ _ _ _ (dll_linked _ _ _ Hd) Hi) as [song ->].
  simpl.
  destruct (Sound_get_length (mixer a) (path song)); simpl;
    (destruct (music_load _ _) as [m1|]; [|by eexists]);
    (destruct (music_play m1) as [m2|]; [|by eexists]);
    unfold check_music_end, pygame; simpl; rewrite Hdeps; simpl;
    (destruct (music_get_busy m2); simpl; [by eexists|]);
    match goal with
    | |- context [k ?b] =>
        specialize (Hk b Hd); destruct (k b) as [b'|]; [|by eexists];
        destruct Hk as (Hn & Hd' & Hh); exists b'; by split_and!
    end.
Qed.

(** On a valid queue [play_next] always returns; it keeps the chain, and
    the old history followed by the node that was current is a prefix of
    the history afterwards. *)
Lemma play_next_total ls depth : ∀ a,
  dll (nodes a) (queue a) ls →
  ∃ a', play_next depth a = Some a'
    ∧ nodes a' = nodes a ∧ dll (nodes a') (queue a') ls
    ∧ (Stack.items (history a) ++ option_list (current (queue a)))
      `prefix_of` Stack.items (history a').
Proof.
  induction depth as [|d IH]; intros a Hd;
    simpl; unfold play_next_body;
    (destruct (current (queue a)) as [c|] eqn:Hc;
     [|exists a; simpl; by rewrite app_nil_r]);
    pose proof (dll_current _ _ _ Hd _ Hc) as Hin;
    apply list_elem_of_lookup in Hin as [i Hi];
    simpl; rewrite (linked_get_next _ _ _ _ (dll_linked _ _ _ Hd) Hi); simpl.
  - assert (extends_history ls (λ _ : HarmoniaApp M, None)) as Hk
      by (by intros b _).
    assert (∀ v, (∀ x, v = Some x → x ∈ ls) →
              ∃ a', play_current (λ _, None)
                      (set_queue_current v
                         (set_history (Stack.push c (history a)) a)) = Some a'
                ∧ nodes a' = nodes a ∧ dll (nodes a') (queue a') ls
                ∧ (Stack.items (history a) ++ [c])
                  `prefix_of` Stack.items (history a')) as Hrun.
    { intros v Hv.
      destruct (play_current_total _
                  (set_queue_current v
                     (set_history (Stack.push c (history a)) a)) ls Hk)
        as (a' & Heq & Hn' & Hd' & Hh); [by apply dll_set_current|].
      exists a'. by split_and!. }
    destruct (ls !! S i) as [x|] eqn:Hx.
    + apply Hrun. intros ? ?; simplify_eq. by eapply list_elem_of_lookup_2.
    + destruct (is_looping a).
      * apply Hrun. rewrite (dll_head _ _ _ Hd).
        intros x Hx0. by eapply list_elem_of_lookup_2.
      * eexists. split; [done|]. simpl. by split_and!.
  - assert (extends_history ls (play_next d)) as Hk.
    { intros b Hb. destruct (IH b Hb) as (b' & -> & Hn & Hd' & Hh).
      split_and!; try done. etrans; [|exact Hh]. by apply prefix_app_r. }
    assert (∀ v, (∀ x, v = Some x → x ∈ ls) →
              ∃ a', play_current (play_next d)
                      (set_queue_current v
                         (set_history (Stack.push c (history a)) a)) = Some a'
                ∧ nodes a' = nodes a ∧ dll (nodes a') (queue a') ls
                ∧ (Stack.items (history a) ++ [c])
                  `prefix_of` Stack.items (history a')) as Hrun.
    { intros v Hv.
      destruct (play_current_total _
                  (set_queue_current v
                     (set_history (Stack.push c (history a)) a)) ls Hk)
        as (a' & Heq & Hn' & Hd' & Hh); [by apply dll_set_current|].
      exists a'. by split_and!. }
    destruct (ls !! S i) as [x|] eqn:Hx.
    + apply Hrun. intros ? ?; simplify_eq. by eapply list_elem_of_lookup_2.
    + destruct (is_looping a).
      * apply Hrun. rewrite (dll_head _ _ _ Hd).
        intros x Hx0. by eapply list_elem_of_lookup_2.
      * eexists. split; [done|]. simpl. by split_and!.
Qed.

(** C2, as the code has it: when the current node is the tail,
    [play_next] pushes it onto the history in both cases, before it decides
    whether to advance: the call returns, and the old history followed by
    the tail is a prefix of the history afterwards, whatever the backend
    does.  With loop disabled it then clears the playing flag and does
    nothing else: the history is the old one with the tail pushed,
    [current] still is the tail, the backend is not commanded, and the
    controller is Stopped as soon as the backend reports no playback
    position.  With loop enabled it sets [current] to the head and calls
    [play_current] on it; with a backend that is busy right after [play()]
    the history then is the old one with the tail pushed and [current] is
    the head, and once the backend has loaded and started the head's song
    and reports busy, the controller is Playing that song.  The push is
    not special to the tail: on every valid queue with a current node
    [play_next] returns with the old history followed by that node as a
    prefix of the new one.  [play_prev] does not push: on every valid queue
    whose history top (if any) is a node object, with a backend that is
    busy right after [play()], the history after "previous" is the old
    history with its top popped. *)
Theorem C2_next_at_tail a ls t depth :
  dll (nodes a) (queue a) ls →
  current (queue a) = Some t → tail (queue a) = Some t →
  (∃ a', play_next depth a = Some a'
     ∧ nodes a' = nodes a
     ∧ Stack.items (Stack.push t (history a))
       `prefix_of` Stack.items (history a'))
  ∧ (is_looping a = false →
     play_next depth a
     = Some (set_is_playing false glyph_play
               (set_history (Stack.push t (history a)) a))
     ∧ (is_paused (mixer a) = false →
        controller_state (set_is_playing false glyph_play
                            (set_history (Stack.push t (history a)) a))
        = Stopped))
  ∧ (is_looping a = true →
     ∃ hd song, head (queue a) = Some hd
       ∧ get_data (nodes a) hd = Some song
       ∧ play_next depth a
         = play_current match depth with
                        | O => λ _, None
                        | S d => play_next d
                        end
             (set_queue_current (Some hd)
                (set_history (Stack.push t (history a)) a))
       ∧ (busy_after_play M →
          ∃ a', play_next depth a = Some a'
            ∧ history a' = Stack.push t (history a)
            ∧ queue a' = set_current (Some hd) (queue a)
            ∧ nodes a' = nodes a)
       ∧ ∀ m1 m2, HAS_DEPS a = true →
           music_load (path song) (mixer a) = Some m1 →
           music_play m1 = Some m2 → music_get_busy m2 = true →
           ∃ a', play_next depth a = Some a'
             ∧ history a' = Stack.push t (history a)
             ∧ queue a' = set_current (Some hd) (queue a)
             ∧ nodes a' = nodes a
             ∧ is_playing a' = true
             ∧ controller_state a' = Playing
             ∧ mixer a' = m2
             ∧ lbl_now_title a' = title song
             ∧ lbl_now_artist a' = artist song)
  ∧ (∀ b lsb c depth',
       dll (nodes b) (queue b) lsb → current (queue b) = Some c →
       ∃ b', play_next depth' b = Some b'
         ∧ Stack.items (Stack.push c (history b))
           `prefix_of` Stack.items (history b'))
  ∧ (busy_after_play M →
     ∀ b lsb depth',
       dll (nodes b) (queue b) lsb →
       (∀ n, last (Stack.items (history b)) = Some n → is_Some (nodes b !! n)) →
       ∃ b', play_prev depth' b = Some b'
         ∧ history b' = (Stack.pop (history b)).2
         ∧ Stack.items (history b') `prefix_of` Stack.items (history b)).
Proof.
  intros Hd Hc Ht.
  assert (get_next (nodes a) t = Some None) as Hn.
  { by apply (tail_next_none _ _ (dll_structural _ _ _ Hd)). }
  assert (t ∈ ls) as Hin by (by eapply dll_current).
  split; [|split; [|split; [|split]]].
  - destruct (play_next_total ls depth a Hd) as (a' & Heq & Hnodes & _ & Hh).
    rewrite Hc in Hh. by exists a'.
  - intros Hloop. split.
    + destruct depth; simpl; unfold play_next_body; rewrite Hc; simpl;
        rewrite Hn; simpl; by rewrite Hloop.
    + intros Hp. unfold controller_state. simpl. by rewrite Hp.
  - intros Hloop.
    destruct ls as [|hd ls0]; [by apply elem_of_nil in Hin|].
    pose proof (dll_head _ _ _ Hd) as Hh. simpl in Hh.
    destruct (linked_get_data _ _ 0 hd (dll_linked _ _ _ Hd) eq_refl)
      as [song Hsong].
    exists hd, song. split; [done|]. split; [done|].
    assert (∀ k, play_next_body (play_current k) a
                 = play_current k
                     (set_queue_current (Some hd)
                        (set_history (Stack.push t (history a)) a)))
      as Hstep.
    { intros k. unfold play_next_body. rewrite Hc. simpl. rewrite Hn. simpl.
      by rewrite Hloop, Hh. }
    split; [destruct depth; apply Hstep|]. split.
    + intros Hbusy.
      apply list_elem_of_lookup in Hin as [i Hi].
      destruct (play_next_spec a (hd :: ls0) i t depth Hbusy Hd Hi Hc)
        as (a' & Heq & Hhist & Hnodes & Hq & _).
      exists a'. split_and!; try done. rewrite Hq.
      pose proof (linked_get_next _ _ _ _ (dll_linked _ _ _ Hd) Hi) as Hn'.
      assert ((hd :: ls0) !! S i = None) as Hend by congruence.
      by rewrite Hend, Hloop.
    + intros m1 m2 Hdeps Hload Hplay Hbusy.
      assert (∀ k, play_next_body (play_current k) a
                   = Some (played_from song m2
                             (set_queue_current (Some hd)
                                (set_history (Stack.push t (history a)) a))))
        as Hrun.
      { intros k. rewrite Hstep. unfold play_current. simpl.
        rewrite Hdeps. simpl.
        rewrite Hsong. simpl. unfold played_from. simpl.
        destruct (Sound_get_length (mixer a) (path song)); simpl;
          rewrite Hload; simpl; rewrite Hplay; simpl;
          unfold check_music_end, pygame; simpl; rewrite Hdeps; simpl;
          by rewrite Hbusy. }
      eexists. split; [destruct depth; apply Hrun|].
      unfold played_from. simpl.
      destruct (Sound_get_length (mixer a) (path song)); by split_and!.
  - intros b lsb c depth' Hdb Hcb.
    destruct (play_next_total lsb depth' b Hdb) as (b' & Heq & _ & _ & Hh).
    rewrite Hcb in Hh. by exists b'.
  - intros Hbusy b lsb depth' Hdb Hlive.
    destruct (play_prev_spec b lsb depth' Hbusy Hdb Hlive)
      as (b' & Heq & Hhist & _).
    exists b'. split; [done|]. split; [done|]. rewrite Hhist.
    unfold Stack.pop. destruct (negb (Stack.is_empty (history b))); simpl;
      [|done].
    destruct (Stack.items (history b)) as [|x l] using rev_ind; [done|].
    rewrite removelast_last. by apply prefix_app_r.
Qed.

End next_props.

Lemma C2_next_at_tail_witness :
  HarmoniaApp.play_next 0 (app_ABC (Some 3%positive) true false mixer_playing)
  = Some (HarmoniaApp.set_is_playing false HarmoniaApp.glyph_play
            (HarmoniaApp.set_history (Stack.push 3%positive Stack.init)
               (app_ABC (Some 3%positive) true false mixer_playing)))
  ∧ (∃ a', HarmoniaApp.play_next 0
             (app_ABC (Some 3%positive) true true mixer_playing) = Some a'
       ∧ HarmoniaApp.history a' = Stack.push 3%positive Stack.init
       ∧ DoublyLinkedList.current (HarmoniaApp.queue a') = Some 1%positive
       ∧ HarmoniaApp.controller_state a' = HarmoniaApp.Playing
       ∧ HarmoniaApp.lbl_now_title a' = "A")
  ∧ (∃ b', HarmoniaApp.play_prev 0
             (HarmoniaApp.set_history (Stack.push 1%positive Stack.init)
                (app_ABC (Some 2%positive) true false mixer_playing))
           = Some b'
       ∧ HarmoniaApp.history b' = Stack.init).
Proof.
  split; [|split].
  - destruct (C2_next_at_tail
                (app_ABC (Some 3%positive) true false mixer_playing)
                [1%positive; 2%positive; 3%positive] 3%positive 0)
      as (_ & Hoff & _).
    + apply dllb_sound. vm_compute. reflexivity.
    + reflexivity.
    + reflexivity.
    + destruct (Hoff eq_refl) as [Heq _]. exact Heq.
  - destruct (C2_next_at_tail
                (app_ABC (Some 3%positive) true true mixer_playing)
                [1%positive; 2%positive; 3%positive] 3%positive 0)
      as (_ & _ & Hon & _).
    + apply dllb_sound. vm_compute. reflexivity.
    + reflexivity.
    + reflexivity.
    + destruct (Hon eq_refl) as (hd & song & Hhd & Hsong & _ & _ & Hplay).
      injection Hhd as <-. vm_compute in Hsong. injection Hsong as <-.
      destruct (Hplay (mkSim true false false) (mkSim true true false)
                  eq_refl eq_refl eq_refl eq_refl)
        as (a' & Heq & Hh & Hq & _ & _ & Hs & _ & Ht & _).
      exists a'. split; [exact Heq|]. split; [exact Hh|].
      split; [by rewrite Hq|]. split; [exact Hs|exact Ht].
  - destruct (C2_next_at_tail
                (app_ABC (Some 3%positive) true false mixer_playing)
                [1%positive; 2%positive; 3%positive] 3%positive 0)
      as (_ & _ & _ & _ & Hprev).
    + apply dllb_sound. vm_compute. reflexivity.
    + reflexivity.
    + reflexivity.
    + assert (busy_after_play SimMixer) as Hbusy.
      { intros [l s p] m'. simpl. destruct l; intros ?; by simplify_eq. }
      destruct (Hprev Hbusy
                  (HarmoniaApp.set_history (Stack.push 1%positive Stack.init)
                     (app_ABC (Some 2%positive) true false mixer_playing))
                  [1%positive; 2%positive; 3%positive] 0%nat)
        as (b' & Heq & Hh & _).
      * apply dllb_sound. vm_compute. reflexivity.
      * intros n Hn. injection Hn as <-. vm_compute. by eexists.
      * exists b'. split; [exact Heq|exact Hh].
Defined.

(** C2 as stated fails: at the tail with loop disabled the history does
    not stay as it was (the tail is pushed); and since the backend is not
    stopped, after a "next" during playback the controller is not in the
    state Stopped (the backend still reports a position). *)
Lemma C2_counterexample :
  ¬ (∃ a', HarmoniaApp.play_next 0
             (app_ABC (Some 3%positive) true false mixer_playing) = Some a'
       ∧ HarmoniaApp.history a'
         = HarmoniaApp.history (app_ABC (Some 3%positive) true false mixer_playing))
  ∧ ¬ (∃ a', HarmoniaApp.play_next 0
               (app_ABC (Some 3%positive) true false mixer_playing) = Some a'
         ∧ HarmoniaApp.controller_state a' = HarmoniaApp.Stopped).
Proof.
  split.
  - intros (a' & Heq & Hh). vm_compute in Heq. injection Heq as <-.
    vm_compute in Hh. discriminate Hh.
  - intros (a' & Heq & Hs). vm_compute in Heq. injection Heq as <-.
    vm_compute in Hs. discriminate Hs.
Qed.

